(** * CHRE API to CHPP code generator: model and properties

    A shallow embedding of [chpp/api_parser/chre_api_to_chpp.py]: the
    [ApiParser] that builds the graph of struct/union types reachable from
    the root structures, and the [CodeGenerator] that emits the packed CHPP
    structure definitions and the C conversion code.

    Python data is modelled as follows.
    - [str] is [string]; the identifiers handled are ASCII.
    - a [dict] keyed by type name is a [dict]: the list of its keys in
      insertion order (the order in which [items()] iterates) and a [gmap];
    - a [set] of type names is a [gset string]; [list(s)] is [elements s]
      and [sorted(s)] is [merge_sort String.le (elements s)];
    - a Python list used as a stack ([pop()] / [append]) is kept with its
      last element first;
    - a raised exception is [Raise e], a loop that exhausts the fuel of the
      model is [Timeout]. *)

From stdpp Require Import gmap strings list fin_maps sorting relations pretty.
From Stdlib Require Import ZArith Lia Ascii.

(** ** Python string helpers *)

Module Py.

(** [s.startswith(p)] *)
Definition startswith (s p : string) : bool := String.prefix p s.

(** [s[n:]] *)
Fixpoint drop (n : nat) (s : string) : string :=
  match n, s with
  | O, _ => s
  | S n', String _ s' => drop n' s'
  | S _, EmptyString => EmptyString
  end.

(** [s.split(c)] for a one-character separator: the pieces between the
    separators, empty pieces included. *)
Fixpoint split_go (c : ascii) (cur : string) (s : string) : list string :=
  match s with
  | EmptyString => [String.rev cur]
  | String a s' =>
      if Ascii.eqb a c then String.rev cur :: split_go c EmptyString s'
      else split_go c (String a cur) s'
  end.

Definition split (c : ascii) (s : string) : list string :=
  split_go c EmptyString s.

Definition is_upper (a : ascii) : bool :=
  (65 <=? nat_of_ascii a)%nat && (nat_of_ascii a <=? 90)%nat.

Definition is_lower (a : ascii) : bool :=
  (97 <=? nat_of_ascii a)%nat && (nat_of_ascii a <=? 122)%nat.

(** [c.upper()] and [c.lower()] on an ASCII character *)
Definition upper (a : ascii) : ascii :=
  if is_lower a then ascii_of_nat (nat_of_ascii a - 32) else a.

Definition lower (a : ascii) : ascii :=
  if is_upper a then ascii_of_nat (nat_of_ascii a + 32) else a.

(** [''.join(out)] *)
Fixpoint join (out : list string) : string :=
  match out with
  | [] => ""
  | s :: out' => s +:+ join out'
  end.

End Py.

(** The line feed, written as an escape in the source *)
Definition nl : string := String (ascii_of_nat 10) "".

(** ** Data model *)

(** A declarator of a [pyclibrary] type: the string ["*"] for a pointer, a
    list holding the length for an array, a tuple for function arguments. *)
Inductive declarator :=
| DStr (s : string)
| DList (dims : list Z)
| DTuple.

Global Instance declarator_eq_dec : EqDecision declarator.
Proof. solve_decision. Defined.

(** [pyclibrary]'s [Type]: a type specification and its declarators. *)
Record ctype := CType {
  type_spec : string;
  declarators : list declarator
}.

Global Instance ctype_eq_dec : EqDecision ctype.
Proof. solve_decision. Defined.

(** One entry of the JSON annotation list of a structure. The key
    ['annotation'] selects the kind; the other keys are the kind's
    parameters. Values that the generator only formats into the output
    ([value], the keys of [mapping]) are kept as the text they print as. *)
Inductive annotation_kind :=
| rename_type (type_override : string)
| rewrite_type (type_override : string)
| fixed_value (value : string)
| var_len_array (length_field : string)
| union_variant (discriminator : string) (mapping : list (string * string))
| enum
| other_annotation (tag : string).

Global Instance annotation_kind_eq_dec : EqDecision annotation_kind.
Proof. solve_decision. Defined.

Record annotation := Annotation {
  field : string;
  kind : annotation_kind
}.

Global Instance annotation_eq_dec : EqDecision annotation.
Proof. solve_decision. Defined.

Definition is_var_len_array (a : annotation) : bool :=
  match kind a with var_len_array _ => true | _ => false end.

Definition is_rewrite_type (a : annotation) : bool :=
  match kind a with rewrite_type _ => true | _ => false end.

(** An element of [json['struct_info']] *)
Record struct_info := StructInfo {
  si_name : string;
  si_annotations : list annotation
}.

(** The file-specific JSON object, as far as the generator reads it *)
Record json_obj := Json {
  filename : string;
  root_structs : list string;
  json_struct_info : list struct_info
}.

(** An element of [structs_and_unions[...]['members']] *)
Record member_info := MemberInfo {
  m_name : string;
  m_type : ctype;
  m_annotations : list annotation;
  m_is_nested_type : bool;
  m_nested_type_name : option string
}.

Global Instance member_info_eq_dec : EqDecision member_info.
Proof. solve_decision. Defined.

(** A value of [structs_and_unions] *)
Record entry := Entry {
  appears_in : gset string;
  dependencies : gset string;
  has_vla_member : bool;
  members : list member_info;
  is_union : bool
}.

(** [parser.defs]: the members of each parsed struct and union *)
Record parser_defs := ParserDefs {
  structs : gmap string (list (string * ctype));
  unions : gmap string (list (string * ctype))
}.

(** ** Exceptions and the result of a run *)

Inductive error :=
(** ["Pointer types require annotation\n{}".format(member_info)] *)
| PointerRequiresAnnotation (m : member_info)
(** ["Couldn't figure out new type name for {}".format(chre_type)] *)
| NoNewTypeName (chre_type : string)
(** ["Nested variable-length arrays is not currently supported ({} in {})"] *)
| NestedVlaUnsupported (member_name chre_type : string)
(** ["Invalid mapping - couldn't find target field {} in struct {}"] *)
| InvalidMapping (field_name chre_type : string)
(** ["Unexpected structure name {}".format(struct)] *)
| UnexpectedStructureName (struct : string)
(** ["Couldn't find {} in parsed structs/unions".format(type_name)] *)
| TypeNotFound (type_name : string)
| KeyError (key : string)
| IndexError.

Inductive outcome (A : Type) :=
| Done (a : A)
| Raise (e : error)
| Timeout.

Arguments Done {A} a.
Arguments Raise {A} e.
Arguments Timeout {A}.

Global Instance outcome_ret : MRet outcome := @Done.
Global Instance outcome_bind : MBind outcome := λ A B f m,
  match m with
  | Done a => f a
  | Raise e => Raise e
  | Timeout => Timeout
  end.

(** ** Insertion-ordered dictionaries *)

Record dict (V : Type) := Dict {
  dkeys : list string;
  dtable : gmap string V
}.

Arguments Dict {V} dkeys dtable.
Arguments dkeys {V} d.
Arguments dtable {V} d.

Definition dict_empty {V} : dict V := Dict [] ∅.

Definition dict_get {V} (d : dict V) (k : string) : option V := dtable d !! k.

(** [k in d] *)
Definition dict_mem {V} (d : dict V) (k : string) : bool :=
  bool_decide (is_Some (dtable d !! k)).

(** [d[k]]: [KeyError] when the key is absent *)
Definition dict_item {V} (d : dict V) (k : string) : outcome V :=
  match dtable d !! k with
  | Some v => Done v
  | None => Raise (KeyError k)
  end.

(** [d[k] = v] *)
Definition dict_set {V} (d : dict V) (k : string) (v : V) : dict V :=
  Dict (if dict_mem d k then dkeys d else dkeys d ++ [k]) (<[k := v]> (dtable d)).

(** An in-place change of the value stored under an existing key *)
Definition dict_alter {V} (f : V → V) (k : string) (d : dict V) : dict V :=
  Dict (dkeys d) (alter f k (dtable d)).

(** A [for] loop whose body may raise: the state is threaded through the
    elements in order and the first exception ends the loop. *)
Fixpoint for_each {S A} (body : S → A → outcome S) (l : list A) (s : S) : outcome S :=
  match l with
  | [] => Done s
  | x :: l' => s' ← body s x; for_each body l' s'
  end.

(** ** ApiParser *)

Definition set_appears_in (v : gset string) (e : entry) : entry :=
  Entry v (dependencies e) (has_vla_member e) (members e) (is_union e).
Definition set_dependencies (v : gset string) (e : entry) : entry :=
  Entry (appears_in e) v (has_vla_member e) (members e) (is_union e).
Definition set_has_vla_member (v : bool) (e : entry) : entry :=
  Entry (appears_in e) (dependencies e) v (members e) (is_union e).
Definition set_members (v : list member_info) (e : entry) : entry :=
  Entry (appears_in e) (dependencies e) (has_vla_member e) v (is_union e).
Definition set_is_union (v : bool) (e : entry) : entry :=
  Entry (appears_in e) (dependencies e) (has_vla_member e) (members e) v.

(** [self.annotations[type_name][field_name]]: both levels are
    [defaultdict]s, so an absent key reads as the empty list. *)
Definition annotations_lookup (annotations : gmap string (gmap string (list annotation)))
    (type_name field_name : string) : list annotation :=
  match annotations !! type_name with
  | Some by_field => default [] (by_field !! field_name)
  | None => []
  end.

(** [self.annotations[name][annotation['field']].append(annotation)] *)
Definition annotations_append (name : string) (a : annotation)
    (annotations : gmap string (gmap string (list annotation)))
    : gmap string (gmap string (list annotation)) :=
  <[name := <[field a := annotations_lookup annotations name (field a) ++ [a]]>
              (default ∅ (annotations !! name))]> annotations.

Definition _parse_annotations (json : json_obj) : gmap string (gmap string (list annotation)) :=
  foldl (λ annotations info,
           foldl (λ annotations a, annotations_append (si_name info) a annotations)
                 annotations (si_annotations info))
        ∅ (json_struct_info json).

(** The text between the first and the second space:
    [type_spec.split(' ')[1]]. It is read only for a [type_spec] that
    starts with ["struct "] or ["union "], where the second piece exists. *)
Definition split_item1 (type_spec : string) : string :=
  default "" (Py.split " " type_spec !! 1%nat).

(** Does a member carry a [var_len_array] annotation? *)
Definition has_vla_annotation (annotations : list annotation) : bool :=
  existsb is_var_len_array annotations.

(** True when one of the members carries [var_len_array] *)
Definition has_direct_vla (e : entry) : bool :=
  existsb (λ m, has_vla_annotation (m_annotations m)) (members e).

Section Parser.

Variable defs : parser_defs.
Variable annotations : gmap string (gmap string (list annotation)).

(** The body of [for member_name, member_type, _ in defs['members']]
    working on the entry under construction and on the work list. *)
Definition parse_member (type_name : string) (st : entry * list string)
    (member : string * ctype) : entry * list string :=
  let '(e, structs_and_unions_to_parse) := st in
  let '(member_name, member_type) := member in
  let member_annotations := annotations_lookup annotations type_name member_name in
  let nested := Py.startswith (type_spec member_type) "struct "
                || Py.startswith (type_spec member_type) "union " in
  let member_type_name := split_item1 (type_spec member_type) in
  let info := MemberInfo member_name member_type member_annotations nested
                (if nested then Some member_type_name else None) in
  let e1 := if nested then set_dependencies (dependencies e ∪ {[member_type_name]}) e else e in
  let to_parse := if nested then member_type_name :: structs_and_unions_to_parse
                  else structs_and_unions_to_parse in
  let e2 := set_members (members e1 ++ [info]) e1 in
  let e3 := if has_vla_member e2 then e2
            else set_has_vla_member (has_vla_annotation member_annotations) e2 in
  (e3, to_parse).

(** The [while len(structs_and_unions_to_parse) > 0] loop *)
Fixpoint parse_loop (fuel : nat) (structs_and_unions_to_parse : list string)
    (g : dict entry) : outcome (dict entry) :=
  match structs_and_unions_to_parse with
  | [] => Done g
  | type_name :: rest =>
      match fuel with
      | O => Timeout
      | S fuel' =>
          if dict_mem g type_name then parse_loop fuel' rest g
          else
            let new_entry := Entry ∅ ∅ false [] false in
            match structs defs !! type_name, unions defs !! type_name with
            | Some mems, _ =>
                let '(e, to_parse) :=
                  foldl (parse_member type_name) (set_is_union false new_entry, rest) mems in
                parse_loop fuel' to_parse (dict_set g type_name e)
            | None, Some mems =>
                let '(e, to_parse) :=
                  foldl (parse_member type_name) (set_is_union true new_entry, rest) mems in
                parse_loop fuel' to_parse (dict_set g type_name e)
            | None, None => Raise (TypeNotFound type_name)
            end
      end
  end.

End Parser.

(** [self.structs_and_unions[dependency]['appears_in'].add(type_name)] *)
Definition link_one (type_name : string) (g : dict entry) (dependency : string)
    : outcome (dict entry) :=
  if dict_mem g dependency
  then Done (dict_alter (λ e, set_appears_in (appears_in e ∪ {[type_name]}) e) dependency g)
  else Raise (KeyError dependency).

(** Build the reverse linkage of the dependency chain *)
Definition link_reverse (g : dict entry) : outcome (dict entry) :=
  for_each (λ g type_name,
              type_info ← dict_item g type_name;
              for_each (link_one type_name) (elements (dependencies type_info)) g)
           (dkeys g) g.

(** The [while len(types_to_mark) > 0] loop *)
Fixpoint mark_loop (fuel : nat) (types_to_mark : list string) (g : dict entry)
    : outcome (dict entry) :=
  match types_to_mark with
  | [] => Done g
  | type_to_mark :: rest =>
      match fuel with
      | O => Timeout
      | S fuel' =>
          match dict_get g type_to_mark with
          | None => Raise (KeyError type_to_mark)
          | Some e =>
              mark_loop fuel' (reverse (elements (appears_in e)) ++ rest)
                        (dict_alter (set_has_vla_member true) type_to_mark g)
          end
      end
  end.

(** Bubble up [has_vla_member] to the types each type appears in *)
Definition bubble_up (fuel : nat) (g : dict entry) : outcome (dict entry) :=
  for_each (λ g type_name,
              type_info ← dict_item g type_name;
              if has_vla_member type_info
              then mark_loop fuel (reverse (elements (appears_in type_info))) g
              else Done g)
           (dkeys g) g.

Definition _parse_structs_and_unions (fuel : nat) (defs : parser_defs)
    (annotations : gmap string (gmap string (list annotation)))
    (json : json_obj) : outcome (dict entry) :=
  g ← parse_loop defs annotations fuel (reverse (root_structs json)) dict_empty;
  g ← link_reverse g;
  bubble_up fuel g.

(** An [ApiParser] object after [__init__] *)
Record ApiParser := {
  api_json : json_obj;
  structs_and_unions : dict entry;
  api_annotations : gmap string (gmap string (list annotation));
  parser : parser_defs
}.

(** [ApiParser(json_obj)]; the C parser's result is an input here. *)
Definition ApiParser_init (fuel : nat) (defs : parser_defs) (json : json_obj)
    : outcome ApiParser :=
  let annotations := _parse_annotations json in
  g ← _parse_structs_and_unions fuel defs annotations json;
  mret {| api_json := json; structs_and_unions := g;
          api_annotations := annotations; parser := defs |}.

(** ** CodeGenerator *)

Record CodeGenerator := {
  api : ApiParser;
  service_name : string;
  capitalized_service_name : string
}.

(** [CodeGenerator(api)]: ["chre_api/include/chre_api/chre/wwan.h"] gives the
    service name ["wwan"]. *)
Definition CodeGenerator_init (api : ApiParser) : outcome CodeGenerator :=
  let base := default "" (last (Py.split "/" (filename (api_json api)))) in
  let service_name := default "" (head (Py.split "." base)) in
  match service_name with
  | EmptyString => Raise IndexError
  | String c rest =>
      Done {| api := api; service_name := service_name;
              capitalized_service_name := String (Py.upper c) rest |}
  end.

Section Generator.

Variable self : CodeGenerator.

(** [self.api.structs_and_unions[chre_type]] *)
Definition struct_info_of (chre_type : string) : outcome entry :=
  dict_item (structs_and_unions (api self)) chre_type.

Definition _is_array_type (type_info : ctype) : bool :=
  match declarators type_info with
  | [DList _] => true
  | _ => false
  end.

Definition _get_array_len (type_info : ctype) : outcome Z :=
  match declarators type_info with
  | DList (n :: _) :: _ => Done n
  | _ => Raise IndexError
  end.

Definition _get_struct_or_union_prefix (chre_type : string) : outcome string :=
  info ← struct_info_of chre_type;
  mret (if negb (is_union info) then "struct " else "union ").

(** The override of the first [rename_type] annotation *)
Fixpoint first_rename_type (annotations : list annotation) : option string :=
  match annotations with
  | [] => None
  | a :: rest =>
      match kind a with
      | rename_type type_override => Some type_override
      | _ => first_rename_type rest
      end
  end.

(** Given 'chreWwanCellInfo' returns 'struct ChppWwanCellInfo', etc. *)
Definition _get_chpp_type_from_chre (chre_type : string) : outcome string :=
  prefix ← _get_struct_or_union_prefix chre_type;
  match first_rename_type (annotations_lookup (api_annotations (api self)) chre_type ".") with
  | Some type_override => mret (prefix +:+ type_override)
  | None =>
      if Py.startswith chre_type "chre"
      then mret (prefix +:+ "Chpp" +:+ Py.drop 4 chre_type)
      else Raise (NoNewTypeName chre_type)
  end.

(** The [for annotation in member_info['annotations']] loop of
    [_get_member_type]: the type given by the first annotation that
    decides it. *)
Fixpoint member_type_by_annotation (underlying_vla_type : bool)
    (annotations : list annotation) : option string :=
  match annotations with
  | [] => None
  | a :: rest =>
      match kind a with
      | rewrite_type type_override => Some type_override
      | var_len_array _ =>
          if negb underlying_vla_type then Some "struct ChppOffset"
          else member_type_by_annotation underlying_vla_type rest
      | _ => member_type_by_annotation underlying_vla_type rest
      end
  end.

(** [len(declarators) > 0 and declarators[0] == "*"] *)
Definition is_pointer (type_info : ctype) : bool :=
  match declarators type_info with
  | d :: _ => bool_decide (d = DStr "*")
  | [] => false
  end.

(** [member_info['nested_type_name']] *)
Definition nested_type_name (member_info : member_info) : outcome string :=
  match m_nested_type_name member_info with
  | Some n => Done n
  | None => Raise (KeyError "nested_type_name")
  end.

(** Gets the CHPP type specification prefix for a struct/union member. *)
Definition _get_member_type (member_info : member_info) (underlying_vla_type : bool)
    : outcome string :=
  match member_type_by_annotation underlying_vla_type (m_annotations member_info) with
  | Some t => Done t
  | None =>
      if negb underlying_vla_type && is_pointer (m_type member_info)
      then Raise (PointerRequiresAnnotation member_info)
      else if m_is_nested_type member_info
      then n ← nested_type_name member_info; _get_chpp_type_from_chre n
      else Done (type_spec (m_type member_info))
  end.

Fixpoint _get_member_comment_loop (member_info : member_info)
    (annotations : list annotation) : outcome string :=
  match annotations with
  | [] => Done ""
  | a :: rest =>
      match kind a with
      | fixed_value value => Done ("  // Input ignored; always set to " +:+ value)
      | var_len_array length_field =>
          t ← _get_member_type member_info false;
          Done ("  // References " +:+ length_field +:+ " instances of " +:+ t)
      | _ => _get_member_comment_loop member_info rest
      end
  end.

Definition _get_member_comment (member_info : member_info) : outcome string :=
  _get_member_comment_loop member_info (m_annotations member_info).

Definition _get_member_type_suffix (member_info : member_info) : outcome string :=
  if _is_array_type (m_type member_info)
  then n ← _get_array_len (m_type member_info); Done ("[" +:+ pretty n +:+ "]")
  else Done "".

(** Generates the definition for a single struct/union type *)
Definition _gen_struct_or_union (name : string) : outcome (list string) :=
  let out := if negb (Py.startswith name "anon")
             then ["//! See {@link " +:+ name +:+ "} for details" +:+ nl] else [] in
  chpp_type ← _get_chpp_type_from_chre name;
  let out := out ++ [chpp_type +:+ " {" +:+ nl] in
  info ← struct_info_of name;
  out ← for_each (λ out member_info,
            t ← _get_member_type member_info false;
            suffix ← _get_member_type_suffix member_info;
            comment ← _get_member_comment member_info;
            Done (out ++ ["  " +:+ t +:+ " " +:+ m_name member_info +:+ suffix
                          +:+ ";" +:+ comment +:+ nl]))
         (members info) out;
  Done (out ++ ["} CHPP_PACKED_ATTR;" +:+ nl +:+ nl]).

(** [sorted(s)] for a set of names *)
Definition sorted (s : gset string) : list string := merge_sort String.le (elements s).

(** [sort_helper(collection, key)], threading [(visited, result)]; the
    recursion depth is bounded by the fuel. *)
Fixpoint sort_helper (fuel : nat) (collection : dict entry) (key : string)
    (st : gset string * list string) : outcome (gset string * list string) :=
  match fuel with
  | O => Timeout
  | S fuel' =>
      info ← dict_item collection key;
      st ← for_each (λ st dep,
                let '(visited, result) := st in
                if bool_decide (dep ∈ visited) then Done st
                else sort_helper fuel' collection dep (visited ∪ {[dep]}, result))
             (sorted (dependencies info)) st;
      let '(visited, result) := st in
      Done (visited, result ++ [key])
  end.

(** Implements a topological sort on [self.api.structs_and_unions]. *)
Definition _sorted_structs (fuel : nat) (root_nodes : list string) : outcome (list string) :=
  st ← for_each (λ st node, sort_helper fuel (structs_and_unions (api self)) node st)
         (merge_sort String.le root_nodes) (∅, []);
  Done st.2.

(** Generates definitions for all struct/union types required for the root
    structs. *)
Definition _gen_structs_and_unions (fuel : nat) : outcome (list string) :=
  let out := ["CHPP_PACKED_START" +:+ nl +:+ nl] in
  sorted_structs ← _sorted_structs fuel (root_structs (api_json (api self)));
  out ← for_each (λ out type_name,
            code ← _gen_struct_or_union type_name; Done (out ++ code))
         sorted_structs out;
  Done (out ++ ["CHPP_PACKED_END" +:+ nl +:+ nl]).

(** *** Encoder and size function generation *)

(** Strip 'chre' and service prefix, e.g. 'chreWwanCellResultInfo' ->
    'CellResultInfo' *)
Definition _strip_prefix_and_service_from_chre_struct_name (struct : string)
    : outcome string :=
  let chre_stripped := Py.drop 4 struct in
  match service_name self with
  | EmptyString => Raise IndexError
  | String c rest =>
      let upcased_service_name := String (Py.upper c) rest in
      if negb (Py.startswith struct "chre")
         || negb (Py.startswith chre_stripped upcased_service_name)
      then Raise (UnexpectedStructureName struct)
      else Done (Py.drop (String.length (service_name self)) chre_stripped)
  end.

(** Function name used to compute the encoded size of the given struct at
    runtime *)
Definition _get_chpp_sizeof_function_name (chre_struct : string) : outcome string :=
  core_type_name ← _strip_prefix_and_service_from_chre_struct_name chre_struct;
  Done ("chpp" +:+ capitalized_service_name self +:+ "SizeOf" +:+ core_type_name
        +:+ "FromChre").

Definition _get_encoding_function_name (chre_type : string) : outcome string :=
  core_type_name ← _strip_prefix_and_service_from_chre_struct_name chre_type;
  Done ("chpp" +:+ capitalized_service_name self +:+ "Convert" +:+ core_type_name
        +:+ "FromChre").

Definition _get_encode_allocation_function_name (chre_type : string) : outcome string :=
  core_type_name ← _strip_prefix_and_service_from_chre_struct_name chre_type;
  Done ("chpp" +:+ capitalized_service_name self +:+ core_type_name +:+ "FromChre").

(** Returns invocation used to determine the size of the provided member
    when encoded. *)
Definition _get_chpp_member_sizeof_call (member_info : member_info) : outcome string :=
  if m_is_nested_type member_info then
    chre_type ← nested_type_name member_info;
    info ← struct_info_of chre_type;
    if has_vla_member info then
      fn ← _get_chpp_sizeof_function_name chre_type;
      Done (fn +:+ "(in->" +:+ m_name member_info +:+ ")")
    else
      type_name ← _get_chpp_type_from_chre chre_type;
      Done ("sizeof(" +:+ type_name +:+ ")")
  else Done ("sizeof(" +:+ type_spec (m_type member_info) +:+ ")").

(** [s[0].lower() + s[1:]] *)
Definition lower_first (s : string) : outcome string :=
  match s with
  | EmptyString => Raise IndexError
  | String c rest => Done (String (Py.lower c) rest)
  end.

(** [member_info['is_nested_type'] and
    structs_and_unions[member_info['nested_type_name']]['has_vla_member']] *)
Definition nested_with_vla (member_info : member_info) : outcome bool :=
  if m_is_nested_type member_info then
    n ← nested_type_name member_info;
    info ← struct_info_of n;
    Done (has_vla_member info)
  else Done false.

(** The body of [for annotation in member_info['annotations']] in
    [_gen_chpp_sizeof_function] *)
Definition sizeof_annotation (chre_type parameter_name : string)
    (member_info : member_info) (out : list string) (a : annotation)
    : outcome (list string) :=
  match kind a with
  | var_len_array length_field =>
      nested ← nested_with_vla member_info;
      if (nested : bool)
      then Raise (NestedVlaUnsupported (m_name member_info) chre_type)
      else
        t ← _get_member_type member_info true;
        Done (out ++ ["  encodedSize += " +:+ parameter_name +:+ "->" +:+ length_field
                      +:+ " * sizeof(" +:+ t +:+ ");" +:+ nl])
  | _ => Done out
  end.

(** Generates a function to determine the encoded size of the CHRE struct,
    if necessary. *)
Definition _gen_chpp_sizeof_function (chre_type : string) : outcome (list string) :=
  struct_info ← struct_info_of chre_type;
  if negb (has_vla_member struct_info) then Done []
  else
    core_type_name ← _strip_prefix_and_service_from_chre_struct_name chre_type;
    parameter_name ← lower_first core_type_name;
    chpp_type_name ← _get_chpp_type_from_chre chre_type;
    let out := ["//! @return number of bytes required to represent the given" +:+ nl
                +:+ "//! " +:+ chre_type +:+ " as " +:+ chpp_type_name +:+ nl] in
    fn ← _get_chpp_sizeof_function_name chre_type;
    prefix ← _get_struct_or_union_prefix chre_type;
    let out := out ++ ["static size_t " +:+ fn +:+ "(" +:+ nl +:+ "        const "
                       +:+ prefix +:+ chre_type +:+ " *" +:+ parameter_name
                       +:+ ") {" +:+ nl] in
    let out := out ++ ["  size_t encodedSize = sizeof(" +:+ chpp_type_name +:+ ");" +:+ nl] in
    info ← struct_info_of chre_type;
    out ← for_each (λ out member_info,
              for_each (sizeof_annotation chre_type parameter_name member_info)
                       (m_annotations member_info) out)
           (members info) out;
    Done (out ++ ["  return encodedSize;" +:+ nl +:+ "}" +:+ nl +:+ nl]).

(** For each root struct, generate necessary functions to determine their
    encoded size. *)
Definition _gen_chpp_sizeof_functions : outcome (list string) :=
  for_each (λ out struct, code ← _gen_chpp_sizeof_function struct; Done (out ++ code))
           (root_structs (api_json (api self))) [].

(** Returns a statement to assign the provided member *)
Definition _get_assignment_statement_for_field (member_info : member_info)
    (in_vla_loop : bool) (containing_field_name : option string) : outcome string :=
  let array_index := if in_vla_loop then "[i]" else "" in
  let output_accessor := if in_vla_loop then "" else "out->" in
  let containing_field :=
    match containing_field_name with Some n => n +:+ "." | None => "" end in
  let output_variable :=
    output_accessor +:+ containing_field +:+ m_name member_info +:+ array_index in
  let input_variable :=
    "in->" +:+ containing_field +:+ m_name member_info +:+ array_index in
  if m_is_nested_type member_info then
    chre_type ← nested_type_name member_info;
    info ← struct_info_of chre_type;
    let vla_params :=
      if has_vla_member info then ", payload, payloadSize, vlaOffset" else "" in
    fn ← _get_encoding_function_name chre_type;
    Done (fn +:+ "(&" +:+ input_variable +:+ ", &" +:+ output_variable +:+ vla_params
          +:+ ");" +:+ nl)
  else if _is_array_type (m_type member_info) then
    Done ("memcpy(" +:+ output_variable +:+ ", " +:+ input_variable +:+ ", sizeof("
          +:+ output_variable +:+ "));" +:+ nl)
  else Done (output_variable +:+ " = " +:+ input_variable +:+ ";" +:+ nl).

(** [annotation['length_field']] *)
Definition length_field_of (a : annotation) : outcome string :=
  match kind a with
  | var_len_array length_field => Done length_field
  | _ => Raise (KeyError "length_field")
  end.

Definition _gen_vla_encoding (member_info : member_info) (annotation : annotation)
    : outcome (list string) :=
  let variable_name := m_name member_info in
  chpp_type ← _get_member_type member_info true;
  let out := [nl +:+ "    " +:+ chpp_type +:+ " *" +:+ variable_name +:+ " = ("
              +:+ chpp_type +:+ " *) &payload[*vlaOffset];" +:+ nl] in
  length_field ← length_field_of annotation;
  sizeof_call ← _get_chpp_member_sizeof_call member_info;
  let out := out ++ ["  out->" +:+ m_name member_info +:+ ".length = in->" +:+ length_field
                     +:+ " * " +:+ sizeof_call +:+ ";" +:+ nl] in
  let out := out ++ ["  CHPP_ASSERT(*vlaOffset + out->" +:+ m_name member_info
                     +:+ ".length <= payloadSize);" +:+ nl] in
  let out := out ++ ["  if (out->" +:+ m_name member_info +:+ ".length > 0 &&" +:+ nl
                     +:+ "      *vlaOffset + out->" +:+ m_name member_info
                     +:+ ".length <= payloadSize) {" +:+ nl] in
  let out := out ++ ["    out->" +:+ m_name member_info +:+ ".offset = *vlaOffset;" +:+ nl] in
  let out := out ++ ["    *vlaOffset += out->" +:+ m_name member_info +:+ ".length;" +:+ nl] in
  let out := out ++ ["    for (size_t i = 0; i < in->" +:+ length_field +:+ "; i++) {" +:+ nl] in
  stmt ← _get_assignment_statement_for_field member_info true None;
  let out := out ++ ["      " +:+ stmt] in
  let out := out ++ ["    }" +:+ nl] in
  let out := out ++ ["  } else {" +:+ nl] in
  let out := out ++ ["    out->" +:+ m_name member_info +:+ ".offset = 0;" +:+ nl] in
  let out := out ++ ["  }" +:+ nl] in
  Done out.

(** [annotation['discriminator']] and [annotation['mapping']] *)
Definition discriminator_of (a : annotation) : outcome string :=
  match kind a with
  | union_variant discriminator _ => Done discriminator
  | _ => Raise (KeyError "discriminator")
  end.

Definition mapping_of (a : annotation) : outcome (list (string * string)) :=
  match kind a with
  | union_variant _ mapping => Done mapping
  | _ => Raise (KeyError "mapping")
  end.

(** The first member called [field_name] *)
Definition find_member (members : list member_info) (field_name : string)
    : option member_info :=
  find (λ m, String.eqb (m_name m) field_name) members.

(** The body of [for value, field_name in annotation['mapping']] *)
Definition union_case (member_info : member_info) (chre_type : string)
    (struct_info : entry) (out : list string) (case : string * string)
    : outcome (list string) :=
  let '(value, field_name) := case in
  let out := out ++ ["    case " +:+ value +:+ ":" +:+ nl] in
  match find_member (members struct_info) field_name with
  | Some nested_member_info =>
      stmt ← _get_assignment_statement_for_field nested_member_info false
               (Some (m_name member_info));
      let out := out ++ ["      " +:+ stmt] in
      Done (out ++ ["      break;" +:+ nl])
  | None => Raise (InvalidMapping field_name chre_type)
  end.

(** Generates a switch statement to convert the "active"/"used" field within
    a union. *)
Definition _gen_union_variant_conversion_code (member_info : member_info)
    (annotation : annotation) : outcome (list string) :=
  chre_type ← nested_type_name member_info;
  struct_info ← struct_info_of chre_type;
  let out := ["  memset(&out->" +:+ m_name member_info +:+ ", 0, sizeof(out->"
              +:+ m_name member_info +:+ "));" +:+ nl] in
  discriminator ← discriminator_of annotation;
  let out := out ++ ["  switch (in->" +:+ discriminator +:+ ") {" +:+ nl] in
  mapping ← mapping_of annotation;
  out ← for_each (union_case member_info chre_type struct_info) mapping out;
  Done (out ++ ["    default:" +:+ nl +:+ "      CHPP_ASSERT(false);" +:+ nl
                +:+ "  }" +:+ nl]).

(** *** Memory allocation generation *)

(** Returns invocation used to determine the size of the provided CHRE
    struct after encoding. *)
Definition _get_chpp_sizeof_call (chre_type : string) : outcome string :=
  info ← struct_info_of chre_type;
  if has_vla_member info then
    fn ← _get_chpp_sizeof_function_name chre_type;
    Done (fn +:+ "(in)")
  else
    t ← _get_chpp_type_from_chre chre_type;
    Done ("sizeof(" +:+ t +:+ ")").

Definition encode_allocation_docs : string :=
  "/**" +:+ nl
  +:+ " * Converts from given CHRE structure to serialized CHPP type" +:+ nl
  +:+ " *" +:+ nl
  +:+ " * @param in Fully-formed CHRE structure" +:+ nl
  +:+ " * @param out Upon success, will point to a buffer allocated with "
  +:+ "chppMalloc()." +:+ nl
  +:+ " * It is the responsibility of the caller to free this buffer via "
  +:+ "chppFree()." +:+ nl
  +:+ " * @param outSize Upon success, will be set to the size of the output "
  +:+ "buffer," +:+ nl
  +:+ " * in bytes" +:+ nl
  +:+ " * @return true on success, false if memory allocation failed" +:+ nl
  +:+ " */" +:+ nl.

Definition _gen_encode_allocation_function_signature (chre_type : string)
    (gen_docs : bool) : outcome (list string) :=
  let out := if gen_docs then [encode_allocation_docs] else [] in
  fn ← _get_encode_allocation_function_name chre_type;
  let out := out ++ ["bool " +:+ fn +:+ "(" +:+ nl] in
  prefix ← _get_struct_or_union_prefix chre_type;
  let out := out ++ ["    const " +:+ prefix +:+ chre_type +:+ " *in," +:+ nl] in
  chpp_type ← _get_chpp_type_from_chre chre_type;
  let out := out ++ ["    " +:+ chpp_type +:+ " **out," +:+ nl] in
  Done (out ++ ["    size_t *outSize)"]).

Definition _gen_encode_allocation_function (chre_type : string) : outcome (list string) :=
  out ← _gen_encode_allocation_function_signature chre_type false;
  let out := out ++ [" {" +:+ nl] in
  let out := out ++ ["  CHPP_NOT_NULL(out);" +:+ nl] in
  let out := out ++ ["  CHPP_NOT_NULL(outSize);" +:+ nl +:+ nl] in
  sizeof_call ← _get_chpp_sizeof_call chre_type;
  let out := out ++ ["  size_t payloadSize = " +:+ sizeof_call +:+ ";" +:+ nl] in
  _ ← _get_chpp_type_from_chre chre_type;
  let out := out ++ ["  *out = chppMalloc(payloadSize);" +:+ nl] in
  let out := out ++ ["  if (*out != NULL) {" +:+ nl] in
  struct_info ← struct_info_of chre_type;
  out ← (if has_vla_member struct_info then
           let out := out ++ ["    uint8_t *payload = (uint8_t *) *out;" +:+ nl] in
           chpp_type ← _get_chpp_type_from_chre chre_type;
           Done (out ++ ["    uint16_t vlaOffset = sizeof(" +:+ chpp_type +:+ ");" +:+ nl])
         else Done out);
  fn ← _get_encoding_function_name chre_type;
  let out := out ++ ["    " +:+ fn +:+ "(in, *out"] in
  let out := if has_vla_member struct_info
             then out ++ [", payload, payloadSize, &vlaOffset"] else out in
  let out := out ++ [");" +:+ nl] in
  let out := out ++ ["    *outSize = payloadSize;" +:+ nl] in
  let out := out ++ ["    return true;" +:+ nl] in
  let out := out ++ ["  }" +:+ nl] in
  Done (out ++ ["  return false;" +:+ nl +:+ "}" +:+ nl]).

Definition _gen_encode_allocation_functions : outcome (list string) :=
  for_each (λ out chre_type,
              code ← _gen_encode_allocation_function chre_type; Done (out ++ code))
           (root_structs (api_json (api self))) [].

End Generator.

(** ** The generated C code

    The text the generator emits is read back as a small abstract syntax:
    each constructor stands for one form of emitted statement and [render]
    gives its exact characters, indentation included. The generators
    [*_ast] below build the syntax tree along the same path as the text
    generators above, and their rendering is proved equal to the emitted
    text. *)

Inductive expr :=
| EIn (base fld : string)           (* base->fld, a field of the CHRE input *)
| EOut (fld : string)               (* out->fld, a field of the CHPP output *)
| EDeref (var : string)             (* *var *)
| EVar (var : string)
| EAddrIndex (arr : string) (idx : expr)  (* &arr[idx] *)
| ESizeof (ty : string)             (* sizeof(ty) *)
| ECall (fn args : string)          (* fn(args) *)
| EInt (n : Z)
| ENull
| EFalse
| ETrue
| EMul (a b : expr)
| EAdd (a b : expr)
| ELe (a b : expr)
| EGt (a b : expr)
| ENe (a b : expr)
| EAnd (a b : expr).

Inductive stmt :=
(* lead ty *name = (ty * ) init; *)
| SDeclPtr (lead ty name : string) (init : expr)
(* ind ty name = init; *)
| SDecl (ind ty name : string) (init : expr)
(* ind lhs = rhs; *)
| SAssign (ind : string) (lhs rhs : expr)
(* ind lhs += rhs; *)
| SAddAssign (ind : string) (lhs rhs : expr)
(* ind CHPP_ASSERT(cond); *)
| SAssert (ind : string) (cond : expr)
(* ind CHPP_NOT_NULL(var); *)
| SNotNull (ind var : string)
(* an empty line *)
| SBlank
(* ind if (cond) { then_ ind } else { else_ ind } *)
| SIfElse (ind : string) (cond : expr) (then_ else_ : list stmt)
(* ind if (cond) { then_ ind } *)
| SIf (ind : string) (cond : expr) (then_ : list stmt)
(* ind for (size_t i = 0; i < bound; i++) { body ind } *)
| SFor (ind : string) (bound : expr) (body : list stmt)
(* ind switch (scrutinee) { case label: body break; ... default: default_ ind } *)
| SSwitch (ind : string) (scrutinee : expr) (cases : list (string * list stmt))
          (default_ : list stmt)
(* ind memset(&out->target, value, sizeof(out->target)); *)
| SMemset (ind target value : string)
(* ind memcpy(dst, src, sizeof(dst)); *)
| SMemcpy (ind dst src : string)
(* ind dst = src;   for an element or member copied as a whole *)
| SCopy (ind dst src : string)
(* ind fn(arg, ...); *)
| SCall (ind fn : string) (args : list string)
(* ind return e; *)
| SReturn (ind : string) (e : expr).

Fixpoint render_expr (e : expr) : string :=
  match e with
  | EIn base fld => base +:+ "->" +:+ fld
  | EOut fld => "out->" +:+ fld
  | EDeref var => "*" +:+ var
  | EVar var => var
  | EAddrIndex arr idx => "&" +:+ arr +:+ "[" +:+ render_expr idx +:+ "]"
  | ESizeof ty => "sizeof(" +:+ ty +:+ ")"
  | ECall fn args => fn +:+ "(" +:+ args +:+ ")"
  | EInt n => pretty n
  | ENull => "NULL"
  | EFalse => "false"
  | ETrue => "true"
  | EMul a b => render_expr a +:+ " * " +:+ render_expr b
  | EAdd a b => render_expr a +:+ " + " +:+ render_expr b
  | ELe a b => render_expr a +:+ " <= " +:+ render_expr b
  | EGt a b => render_expr a +:+ " > " +:+ render_expr b
  | ENe a b => render_expr a +:+ " != " +:+ render_expr b
  | EAnd a b => render_expr a +:+ " &&" +:+ nl +:+ "      " +:+ render_expr b
  end.

(** [', '.join(args)] *)
Fixpoint render_args (args : list string) : string :=
  match args with
  | [] => ""
  | [a] => a
  | a :: rest => a +:+ ", " +:+ render_args rest
  end.

Fixpoint render_stmt (s : stmt) : string :=
  let render_block := fix go (l : list stmt) : string :=
    match l with
    | [] => ""
    | s' :: l' => render_stmt s' +:+ go l'
    end in
  match s with
  | SDeclPtr lead ty name init =>
      lead +:+ ty +:+ " *" +:+ name +:+ " = (" +:+ ty +:+ " *) " +:+ render_expr init
      +:+ ";" +:+ nl
  | SDecl ind ty name init =>
      ind +:+ ty +:+ " " +:+ name +:+ " = " +:+ render_expr init +:+ ";" +:+ nl
  | SAssign ind lhs rhs =>
      ind +:+ render_expr lhs +:+ " = " +:+ render_expr rhs +:+ ";" +:+ nl
  | SAddAssign ind lhs rhs =>
      ind +:+ render_expr lhs +:+ " += " +:+ render_expr rhs +:+ ";" +:+ nl
  | SAssert ind cond => ind +:+ "CHPP_ASSERT(" +:+ render_expr cond +:+ ");" +:+ nl
  | SNotNull ind var => ind +:+ "CHPP_NOT_NULL(" +:+ var +:+ ");" +:+ nl
  | SBlank => nl
  | SIfElse ind cond then_ else_ =>
      ind +:+ "if (" +:+ render_expr cond +:+ ") {" +:+ nl
      +:+ render_block then_
      +:+ ind +:+ "} else {" +:+ nl
      +:+ render_block else_
      +:+ ind +:+ "}" +:+ nl
  | SIf ind cond then_ =>
      ind +:+ "if (" +:+ render_expr cond +:+ ") {" +:+ nl
      +:+ render_block then_
      +:+ ind +:+ "}" +:+ nl
  | SFor ind bound body =>
      ind +:+ "for (size_t i = 0; i < " +:+ render_expr bound +:+ "; i++) {" +:+ nl
      +:+ render_block body
      +:+ ind +:+ "}" +:+ nl
  | SSwitch ind scrutinee cases default_ =>
      ind +:+ "switch (" +:+ render_expr scrutinee +:+ ") {" +:+ nl
      +:+ (fix go_cases (cs : list (string * list stmt)) : string :=
             match cs with
             | [] => ""
             | (label, body) :: cs' =>
                 ind +:+ "  case " +:+ label +:+ ":" +:+ nl
                 +:+ render_block body
                 +:+ ind +:+ "    break;" +:+ nl
                 +:+ go_cases cs'
             end) cases
      +:+ ind +:+ "  default:" +:+ nl
      +:+ render_block default_
      +:+ ind +:+ "}" +:+ nl
  | SMemset ind target value =>
      ind +:+ "memset(&out->" +:+ target +:+ ", " +:+ value +:+ ", sizeof(out->"
      +:+ target +:+ "));" +:+ nl
  | SMemcpy ind dst src =>
      ind +:+ "memcpy(" +:+ dst +:+ ", " +:+ src +:+ ", sizeof(" +:+ dst +:+ "));" +:+ nl
  | SCopy ind dst src => ind +:+ dst +:+ " = " +:+ src +:+ ";" +:+ nl
  | SCall ind fn args => ind +:+ fn +:+ "(" +:+ render_args args +:+ ");" +:+ nl
  | SReturn ind e => ind +:+ "return " +:+ render_expr e +:+ ";" +:+ nl
  end.

Fixpoint render_block (l : list stmt) : string :=
  match l with
  | [] => ""
  | s :: l' => render_stmt s +:+ render_block l'
  end.

(** The cases of a [switch] *)
Definition render_cases (ind : string) : list (string * list stmt) → string :=
  fix go_cases (cs : list (string * list stmt)) : string :=
    match cs with
    | [] => ""
    | (label, body) :: cs' =>
        ind +:+ "  case " +:+ label +:+ ":" +:+ nl
        +:+ render_block body
        +:+ ind +:+ "    break;" +:+ nl
        +:+ go_cases cs'
    end.

(** A function definition: the text up to and including the opening brace,
    the statements of the body, the text that closes it. *)
Record cfun := CFun {
  f_header : string;
  f_body : list stmt;
  f_footer : string
}.

Definition render_fun (f : cfun) : string :=
  f_header f +:+ render_block (f_body f) +:+ f_footer f.

(** *** Execution of the generated code

    Integer values are mathematical integers, where the C code computes in
    types of limited width: the payload cursor is a [uint16_t], the fields
    of a descriptor are those of [struct ChppOffset], sizes are [size_t].
    The run of the model is that of the C code as long as the values stored
    are in the range of these types; the statements about runs name this
    range. Copies of whole members or elements, calls to other generated
    functions and [memset] are recorded in a trace. A pointer declared by
    the code is only used by such copies and calls, so its declaration
    evaluates the initialiser and binds nothing. *)

Inductive event :=
| EvCall (fn : string) (args : list string) (i : option Z)
| EvMemcpy (dst src : string) (i : option Z)
| EvCopy (dst src : string) (i : option Z)
| EvMemset (target value : string).

Record cstate := CState {
  vars : gmap string Z;        (* local variables and parameters *)
  cells : gmap string Z;       (* what a pointer variable points to *)
  out_fields : gmap string Z;  (* the scalar fields of *out assigned so far *)
  trace : list event
}.

(** What the generated code takes from its environment *)
Record cenv := CEnv {
  in_field : string → Z;       (* the value of [in->f] *)
  sizeof_val : string → Z;     (* [sizeof(T)] *)
  call_val : string → Z;       (* the value an external function returns *)
  const_val : string → Z;      (* the value of a case label *)
  asserts_fatal : bool         (* [CHPP_ASSERT] aborts on a false condition *)
}.

Inductive result :=
| Normal (st : cstate)
| Returned (v : Z) (st : cstate)
| Aborted (st : cstate)
| Fault.

Definition Z_of_bool (b : bool) : Z := if b then 1%Z else 0%Z.

Section Exec.

Variable env : cenv.

(** Reading through a null pointer or an unassigned object has no value. *)
Fixpoint eval (st : cstate) (e : expr) : option Z :=
  match e with
  | EIn _ fld => Some (in_field env fld)
  | EOut fld => out_fields st !! fld
  | EDeref var =>
      if bool_decide (vars st !! var = Some 0%Z) then None else cells st !! var
  | EVar var => vars st !! var
  | EAddrIndex arr idx => eval st idx
  | ESizeof ty => Some (sizeof_val env ty)
  | ECall fn _ => Some (call_val env fn)
  | EInt n => Some n
  | ENull => Some 0%Z
  | EFalse => Some 0%Z
  | ETrue => Some 1%Z
  | EMul a b => x ← eval st a; y ← eval st b; Some (x * y)%Z
  | EAdd a b => x ← eval st a; y ← eval st b; Some (x + y)%Z
  | ELe a b => x ← eval st a; y ← eval st b; Some (Z_of_bool (x <=? y)%Z)
  | EGt a b => x ← eval st a; y ← eval st b; Some (Z_of_bool (x >? y)%Z)
  | ENe a b => x ← eval st a; y ← eval st b; Some (Z_of_bool (negb (x =? y)%Z))
  | EAnd a b =>
      x ← eval st a;
      if (x =? 0)%Z then Some 0%Z
      else y ← eval st b; Some (Z_of_bool (negb (y =? 0)%Z))
  end.

Definition set_out (st : cstate) (fld : string) (v : Z) : cstate :=
  CState (vars st) (cells st) (<[fld := v]> (out_fields st)) (trace st).

Definition set_cell (st : cstate) (var : string) (v : Z) : cstate :=
  CState (vars st) (<[var := v]> (cells st)) (out_fields st) (trace st).

Definition set_var (st : cstate) (x : string) (v : Z) : cstate :=
  CState (<[x := v]> (vars st)) (cells st) (out_fields st) (trace st).

Definition unset_var (st : cstate) (x : string) : cstate :=
  CState (delete x (vars st)) (cells st) (out_fields st) (trace st).

Definition store (st : cstate) (lhs : expr) (v : Z) : option cstate :=
  match lhs with
  | EOut fld => Some (set_out st fld v)
  | EDeref var =>
      if bool_decide (vars st !! var = Some 0%Z) then None else Some (set_cell st var v)
  | EVar var => Some (set_var st var v)
  | _ => None
  end.

Definition log (st : cstate) (ev : event) : cstate :=
  CState (vars st) (cells st) (out_fields st) (trace st ++ [ev]).

(** [CHPP_ASSERT(cond)] with [cond] of value [v] *)
Definition chpp_assert (st : cstate) (v : Z) : result :=
  if (v =? 0)%Z then (if asserts_fatal env then Aborted st else Normal st)
  else Normal st.

Fixpoint exec_stmt (s : stmt) (st : cstate) {struct s} : result :=
  let exec_block := fix go (l : list stmt) (st : cstate) : result :=
    match l with
    | [] => Normal st
    | s' :: l' =>
        match exec_stmt s' st with
        | Normal st' => go l' st'
        | r => r
        end
    end in
  match s with
  | SDeclPtr _ _ _ init =>
      match eval st init with
      | Some _ => Normal st
      | None => Fault
      end
  | SDecl _ _ name init =>
      match eval st init with
      | Some v => Normal (set_var st name v)
      | None => Fault
      end
  | SAssign _ lhs rhs =>
      match eval st rhs with
      | Some v => match store st lhs v with Some st' => Normal st' | None => Fault end
      | None => Fault
      end
  | SAddAssign _ lhs rhs =>
      match eval st lhs, eval st rhs with
      | Some old, Some v =>
          match store st lhs (old + v)%Z with Some st' => Normal st' | None => Fault end
      | _, _ => Fault
      end
  | SAssert _ cond =>
      match eval st cond with
      | Some v => chpp_assert st v
      | None => Fault
      end
  | SNotNull _ var =>
      match vars st !! var with
      | Some v => chpp_assert st v
      | None => Fault
      end
  | SBlank => Normal st
  | SIfElse _ cond then_ else_ =>
      match eval st cond with
      | Some v => if (v =? 0)%Z then exec_block else_ st else exec_block then_ st
      | None => Fault
      end
  | SIf _ cond then_ =>
      match eval st cond with
      | Some v => if (v =? 0)%Z then Normal st else exec_block then_ st
      | None => Fault
      end
  | SFor _ bound body =>
      match eval st bound with
      | Some n =>
          (fix loop (k : nat) (i : Z) (st : cstate) : result :=
             match k with
             | O => Normal (unset_var st "i")
             | S k' =>
                 match exec_block body (set_var st "i" i) with
                 | Normal st' => loop k' (i + 1)%Z st'
                 | r => r
                 end
             end) (Z.to_nat n) 0%Z st
      | None => Fault
      end
  | SSwitch _ scrutinee cases default_ =>
      match eval st scrutinee with
      | Some v =>
          (fix select (cs : list (string * list stmt)) : result :=
             match cs with
             | [] => exec_block default_ st
             | (label, body) :: cs' =>
                 if (const_val env label =? v)%Z then exec_block body st else select cs'
             end) cases
      | None => Fault
      end
  | SMemset _ target value => Normal (log st (EvMemset target value))
  | SMemcpy _ dst src => Normal (log st (EvMemcpy dst src (vars st !! "i")))
  | SCopy _ dst src => Normal (log st (EvCopy dst src (vars st !! "i")))
  | SCall _ fn args => Normal (log st (EvCall fn args (vars st !! "i")))
  | SReturn _ e =>
      match eval st e with
      | Some v => Returned v st
      | None => Fault
      end
  end.

Fixpoint exec_block (l : list stmt) (st : cstate) : result :=
  match l with
  | [] => Normal st
  | s :: l' =>
      match exec_stmt s st with
      | Normal st' => exec_block l' st'
      | r => r
      end
  end.

(** The iterations of a [for] loop from index [i] on *)
Definition exec_loop (body : list stmt) : nat → Z → cstate → result :=
  fix loop (k : nat) (i : Z) (st : cstate) : result :=
    match k with
    | O => Normal (unset_var st "i")
    | S k' =>
        match exec_block body (set_var st "i" i) with
        | Normal st' => loop k' (i + 1)%Z st'
        | r => r
        end
    end.

(** The selection of a [switch] on the value [v] *)
Definition exec_select (v : Z) (default_ : list stmt) (st : cstate)
    : list (string * list stmt) → result :=
  fix select (cs : list (string * list stmt)) : result :=
    match cs with
    | [] => exec_block default_ st
    | (label, body) :: cs' =>
        if (const_val env label =? v)%Z then exec_block body st else select cs'
    end.

End Exec.

(** *** The syntax trees of the generated code *)

Section GeneratorAst.

Variable self : CodeGenerator.

(** The expression printed by [_get_chpp_member_sizeof_call] *)
Definition member_sizeof_call_ast (member_info : member_info) : outcome expr :=
  if m_is_nested_type member_info then
    chre_type ← nested_type_name member_info;
    info ← struct_info_of self chre_type;
    if has_vla_member info then
      fn ← _get_chpp_sizeof_function_name self chre_type;
      Done (ECall fn ("in->" +:+ m_name member_info))
    else
      type_name ← _get_chpp_type_from_chre self chre_type;
      Done (ESizeof type_name)
  else Done (ESizeof (type_spec (m_type member_info))).

(** The expression printed by [_get_chpp_sizeof_call] *)
Definition sizeof_call_ast (chre_type : string) : outcome expr :=
  info ← struct_info_of self chre_type;
  if has_vla_member info then
    fn ← _get_chpp_sizeof_function_name self chre_type;
    Done (ECall fn "in")
  else
    t ← _get_chpp_type_from_chre self chre_type;
    Done (ESizeof t).

(** The statement printed by [_get_assignment_statement_for_field], behind
    the indentation [ind] that its caller prints *)
Definition assignment_statement_ast (ind : string) (member_info : member_info)
    (in_vla_loop : bool) (containing_field_name : option string) : outcome stmt :=
  let array_index := if in_vla_loop then "[i]" else "" in
  let output_accessor := if in_vla_loop then "" else "out->" in
  let containing_field :=
    match containing_field_name with Some n => n +:+ "." | None => "" end in
  let output_variable :=
    output_accessor +:+ containing_field +:+ m_name member_info +:+ array_index in
  let input_variable :=
    "in->" +:+ containing_field +:+ m_name member_info +:+ array_index in
  if m_is_nested_type member_info then
    chre_type ← nested_type_name member_info;
    info ← struct_info_of self chre_type;
    fn ← _get_encoding_function_name self chre_type;
    Done (SCall ind fn (["&" +:+ input_variable; "&" +:+ output_variable]
                        ++ if has_vla_member info
                           then ["payload"; "payloadSize"; "vlaOffset"] else []))
  else if _is_array_type (m_type member_info) then
    Done (SMemcpy ind output_variable input_variable)
  else Done (SCopy ind output_variable input_variable).

(** [out->name.length] and [out->name.offset] *)
Definition vla_length (name : string) : expr := EOut (name +:+ ".length").
Definition vla_offset (name : string) : expr := EOut (name +:+ ".offset").

(** [*vlaOffset + out->name.length <= payloadSize] *)
Definition vla_fits (name : string) : expr :=
  ELe (EAdd (EDeref "vlaOffset") (vla_length name)) (EVar "payloadSize").

(** The statements printed by [_gen_vla_encoding] for the member [name],
    with elements of type [chpp_type] counted by [length_field], sized by
    [sizeof_call] and copied by [copy] *)
Definition vla_code (name chpp_type length_field : string) (sizeof_call : expr)
    (copy : stmt) : list stmt :=
  [ SDeclPtr (nl +:+ "    ") chpp_type name (EAddrIndex "payload" (EDeref "vlaOffset"));
    SAssign "  " (vla_length name) (EMul (EIn "in" length_field) sizeof_call);
    SAssert "  " (vla_fits name);
    SIfElse "  " (EAnd (EGt (vla_length name) (EInt 0)) (vla_fits name))
      [ SAssign "    " (vla_offset name) (EDeref "vlaOffset");
        SAddAssign "    " (EDeref "vlaOffset") (vla_length name);
        SFor "    " (EIn "in" length_field) [copy] ]
      [ SAssign "    " (vla_offset name) (EInt 0) ] ].

Definition vla_encoding_ast (member_info : member_info) (annotation : annotation)
    : outcome (list stmt) :=
  chpp_type ← _get_member_type self member_info true;
  length_field ← length_field_of annotation;
  sizeof_call ← member_sizeof_call_ast member_info;
  copy ← assignment_statement_ast "      " member_info true None;
  Done (vla_code (m_name member_info) chpp_type length_field sizeof_call copy).

Definition union_case_ast (member_info : member_info) (chre_type : string)
    (struct_info : entry) (cases : list (string * list stmt)) (case : string * string)
    : outcome (list (string * list stmt)) :=
  let '(value, field_name) := case in
  match find_member (members struct_info) field_name with
  | Some nested_member_info =>
      copy ← assignment_statement_ast "      " nested_member_info false
               (Some (m_name member_info));
      Done (cases ++ [(value, [copy])])
  | None => Raise (InvalidMapping field_name chre_type)
  end.

(** The statements printed by [_gen_union_variant_conversion_code] for the
    union member [name] discriminated by [discriminator] *)
Definition union_code (name discriminator : string) (cases : list (string * list stmt))
    : list stmt :=
  [ SMemset "  " name "0";
    SSwitch "  " (EIn "in" discriminator) cases [SAssert "      " EFalse] ].

Definition union_variant_ast (member_info : member_info) (annotation : annotation)
    : outcome (list stmt) :=
  chre_type ← nested_type_name member_info;
  struct_info ← struct_info_of self chre_type;
  discriminator ← discriminator_of annotation;
  mapping ← mapping_of annotation;
  cases ← for_each (union_case_ast member_info chre_type struct_info) mapping [];
  Done (union_code (m_name member_info) discriminator cases).

Definition sizeof_annotation_ast (chre_type parameter_name : string)
    (member_info : member_info) (body : list stmt) (a : annotation)
    : outcome (list stmt) :=
  match kind a with
  | var_len_array length_field =>
      nested ← nested_with_vla self member_info;
      if (nested : bool)
      then Raise (NestedVlaUnsupported (m_name member_info) chre_type)
      else
        t ← _get_member_type self member_info true;
        Done (body ++ [SAddAssign "  " (EVar "encodedSize")
                         (EMul (EIn parameter_name length_field) (ESizeof t))])
  | _ => Done body
  end.

(** The function printed by [_gen_chpp_sizeof_function], if any *)
Definition sizeof_function_ast (chre_type : string) : outcome (option cfun) :=
  struct_info ← struct_info_of self chre_type;
  if negb (has_vla_member struct_info) then Done None
  else
    core_type_name ← _strip_prefix_and_service_from_chre_struct_name self chre_type;
    parameter_name ← lower_first core_type_name;
    chpp_type_name ← _get_chpp_type_from_chre self chre_type;
    fn ← _get_chpp_sizeof_function_name self chre_type;
    prefix ← _get_struct_or_union_prefix self chre_type;
    let header :=
      "//! @return number of bytes required to represent the given" +:+ nl
      +:+ "//! " +:+ chre_type +:+ " as " +:+ chpp_type_name +:+ nl
      +:+ "static size_t " +:+ fn +:+ "(" +:+ nl +:+ "        const "
      +:+ prefix +:+ chre_type +:+ " *" +:+ parameter_name +:+ ") {" +:+ nl in
    info ← struct_info_of self chre_type;
    body ← for_each (λ body member_info,
               for_each (sizeof_annotation_ast chre_type parameter_name member_info)
                        (m_annotations member_info) body)
            (members info)
            [SDecl "  " "size_t" "encodedSize" (ESizeof chpp_type_name)];
    Done (Some (CFun header (body ++ [SReturn "  " (EVar "encodedSize")])
                     ("}" +:+ nl +:+ nl))).

(** The body printed by [_gen_encode_allocation_function]: the size is
    given by [sizeof_call], the encoder is [fn], and [decls] declares the
    payload pointer and the cursor when the type has a variable-length
    member. *)
Definition allocation_body (sizeof_call : expr) (decls : list stmt) (fn : string)
    (has_vla : bool) : list stmt :=
  [ SNotNull "  " "out";
    SNotNull "  " "outSize";
    SBlank;
    SDecl "  " "size_t" "payloadSize" sizeof_call;
    SAssign "  " (EDeref "out") (ECall "chppMalloc" "payloadSize");
    SIf "  " (ENe (EDeref "out") ENull)
      (decls
       ++ [ SCall "    " fn
              (["in"; "*out"]
               ++ if has_vla then ["payload"; "payloadSize"; "&vlaOffset"] else []);
            SAssign "    " (EDeref "outSize") (EVar "payloadSize");
            SReturn "    " ETrue ]);
    SReturn "  " EFalse ].

(** The function printed by [_gen_encode_allocation_function] *)
Definition encode_allocation_function_ast (chre_type : string) : outcome cfun :=
  signature ← _gen_encode_allocation_function_signature self chre_type false;
  sizeof_call ← sizeof_call_ast chre_type;
  _ ← _get_chpp_type_from_chre self chre_type;
  struct_info ← struct_info_of self chre_type;
  decls ← (if has_vla_member struct_info then
             chpp_type ← _get_chpp_type_from_chre self chre_type;
             Done [ SDeclPtr "    " "uint8_t" "payload" (EDeref "out");
                    SDecl "    " "uint16_t" "vlaOffset" (ESizeof chpp_type) ]
           else Done []);
  fn ← _get_encoding_function_name self chre_type;
  Done (CFun (Py.join signature +:+ " {" +:+ nl)
             (allocation_body sizeof_call decls fn (has_vla_member struct_info))
             ("}" +:+ nl)).

End GeneratorAst.

(** [fmap] on the result of a run *)
Definition outcome_map {A B} (f : A → B) (o : outcome A) : outcome B :=
  match o with
  | Done a => Done (f a)
  | Raise e => Raise e
  | Timeout => Timeout
  end.

(** ** CodeGenerator: the encoding functions and the prototypes *)

Section GeneratorEncoders.

Variable self : CodeGenerator.

Definition _gen_encoding_function_signature (chre_type : string) : outcome (list string) :=
  fn ← _get_encoding_function_name self chre_type;
  let out := ["void " +:+ fn +:+ "(" +:+ nl] in
  prefix ← _get_struct_or_union_prefix self chre_type;
  let out := out ++ ["    const " +:+ prefix +:+ chre_type +:+ " *in," +:+ nl] in
  chpp_type ← _get_chpp_type_from_chre self chre_type;
  let out := out ++ ["    " +:+ chpp_type +:+ " *out"] in
  info ← struct_info_of self chre_type;
  let out := if has_vla_member info
             then out ++ ["," +:+ nl] ++ ["    uint8_t *payload," +:+ nl]
                      ++ ["    size_t payloadSize," +:+ nl] ++ ["    uint16_t *vlaOffset"]
             else out in
  Done (out ++ [")"]).

(** The [for annotation in member_info['annotations']] loop of
    [_gen_encoding_function]: the first annotation of kind [fixed_value],
    [var_len_array] or [union_variant] gives the code of the member and ends
    the loop. The result holds [out] and [generated_by_annotation]. *)
Fixpoint encoding_by_annotation (member_info : member_info)
    (annotations : list annotation) (out : list string) : outcome (list string * bool) :=
  match annotations with
  | [] => Done (out, false)
  | annotation :: rest =>
      match kind annotation with
      | fixed_value value =>
          if _is_array_type (m_type member_info)
          then Done (out ++ ["  memset(&out->" +:+ m_name member_info +:+ ", " +:+ value
                             +:+ ", sizeof(out->" +:+ m_name member_info +:+ "));" +:+ nl],
                     true)
          else Done (out ++ ["  out->" +:+ m_name member_info +:+ " = " +:+ value
                             +:+ ";" +:+ nl], true)
      | var_len_array _ =>
          code ← _gen_vla_encoding self member_info annotation;
          Done (out ++ code, true)
      | union_variant _ _ =>
          code ← _gen_union_variant_conversion_code self member_info annotation;
          Done (out ++ code, true)
      | _ => encoding_by_annotation member_info rest out
      end
  end.

(** The body of [for member_info in ...['members']] in
    [_gen_encoding_function] *)
Definition encoding_member (out : list string) (member_info : member_info)
    : outcome (list string) :=
  st ← encoding_by_annotation member_info (m_annotations member_info) out;
  if (st.2 : bool) then Done st.1
  else
    stmt ← _get_assignment_statement_for_field self member_info false None;
    Done (st.1 ++ ["  " +:+ stmt]).

(** The part of [_gen_encoding_function] that follows
    [already_generated.add(chre_type)]: the definition of the function that
    encodes [chre_type], appended to [out] *)
Definition encoding_function_definition (chre_type : string) (out : list string)
    : outcome (list string) :=
  let out := out ++ ["static "] in
  signature ← _gen_encoding_function_signature chre_type;
  let out := out ++ signature in
  let out := out ++ [" {" +:+ nl] in
  info ← struct_info_of self chre_type;
  out ← for_each encoding_member (members info) out;
  Done (out ++ ["}" +:+ nl +:+ nl]).

(** [_gen_encoding_function(chre_type, already_generated)]: the text it
    returns and the set [already_generated] as the call leaves it. The
    recursion depth is bounded by the fuel. *)
Fixpoint _gen_encoding_function (fuel : nat) (chre_type : string)
    (already_generated : gset string) : outcome (list string * gset string) :=
  match fuel with
  | O => Timeout
  | S fuel' =>
      struct_info ← struct_info_of self chre_type;
      st ← for_each (λ st dependency,
                let '(out, already_generated) := st in
                if bool_decide (dependency ∈ already_generated) then Done st
                else
                  sub ← _gen_encoding_function fuel' dependency already_generated;
                  Done (out ++ sub.1, sub.2))
             (sorted (dependencies struct_info)) ([], already_generated);
      let '(out, already_generated) := st in
      if bool_decide (chre_type ∈ already_generated) || is_union struct_info
      then Done (out, already_generated)
      else
        let already_generated := already_generated ∪ {[chre_type]} in
        out ← encoding_function_definition chre_type out;
        Done (out, already_generated)
  end.

Definition _gen_encoding_functions (fuel : nat) : outcome (list string) :=
  st ← for_each (λ st struct,
            let '(out, already_generated) := st in
            sub ← _gen_encoding_function fuel struct already_generated;
            Done (out ++ sub.1, sub.2))
         (root_structs (api_json (api self))) ([], ∅);
  Done st.1.

Definition _gen_encode_allocation_function_signatures : outcome (list string) :=
  for_each (λ out chre_type,
              signature ← _gen_encode_allocation_function_signature self chre_type true;
              let out := out ++ signature in
              Done (out ++ [";" +:+ nl +:+ nl]))
           (root_structs (api_json (api self))) [].

End GeneratorEncoders.

(** *** The syntax trees of the encoding functions *)

Section EncoderAst.

Variable self : CodeGenerator.

(** The statements printed for a member by the first annotation that
    generates code, if there is one *)
Fixpoint encoding_by_annotation_ast (member_info : member_info)
    (annotations : list annotation) : outcome (option (list stmt)) :=
  match annotations with
  | [] => Done None
  | annotation :: rest =>
      match kind annotation with
      | fixed_value value =>
          if _is_array_type (m_type member_info)
          then Done (Some [SMemset "  " (m_name member_info) value])
          else Done (Some [SCopy "  " ("out->" +:+ m_name member_info) value])
      | var_len_array _ =>
          code ← vla_encoding_ast self member_info annotation; Done (Some code)
      | union_variant _ _ =>
          code ← union_variant_ast self member_info annotation; Done (Some code)
      | _ => encoding_by_annotation_ast member_info rest
      end
  end.

Definition encoding_member_ast (body : list stmt) (member_info : member_info)
    : outcome (list stmt) :=
  generated ← encoding_by_annotation_ast member_info (m_annotations member_info);
  match generated with
  | Some code => Done (body ++ code)
  | None =>
      copy ← assignment_statement_ast self "  " member_info false None;
      Done (body ++ [copy])
  end.

(** The function printed by [_gen_encoding_function] for [chre_type] *)
Definition encoding_function_ast (chre_type : string) : outcome cfun :=
  signature ← _gen_encoding_function_signature self chre_type;
  info ← struct_info_of self chre_type;
  body ← for_each encoding_member_ast (members info) [];
  Done (CFun ("static " +:+ Py.join signature +:+ " {" +:+ nl) body ("}" +:+ nl +:+ nl)).

End EncoderAst.

(** * Specification vocabulary *)

(** ** The type graph *)

(** [U] has a member of struct/union type [T] *)
Definition dep (g : dict entry) (U T : string) : Prop :=
  ∃ e, dict_get g U = Some e ∧ T ∈ dependencies e.

(** The dependency edges admit a rank that decreases along each edge: the
    graph has no cycle. *)
Definition acyclic (g : dict entry) : Prop :=
  ∃ rank : string → nat,
    map_Forall (λ U e, set_Forall (λ T, rank T < rank U) (dependencies e)) (dtable g).

Definition dict_wf {V} (d : dict V) : Prop :=
  NoDup (dkeys d) ∧ ∀ k, k ∈ dkeys d ↔ is_Some (dtable d !! k).

(** *** The work-list loop *)

(** What the first loop establishes for each entry: no reverse edge yet, and
    the flag says whether a member of the type itself is a
    variable-length array. *)
Definition entry_fresh (e : entry) : Prop :=
  appears_in e = ∅ ∧ has_vla_member e = has_direct_vla e.

Definition built (to_parse : list string) (g : dict entry) : Prop :=
  dict_wf g ∧
  ∀ T e, dict_get g T = Some e →
    entry_fresh e ∧
    ∀ D, D ∈ dependencies e → is_Some (dict_get g D) ∨ D ∈ to_parse.

(** *** Entry-wise relations between two states of the graph *)

Definition graph_rel (R : string → entry → entry → Prop) (g g' : dict entry) : Prop :=
  dkeys g' = dkeys g ∧ ∀ T, option_Forall2 (R T) (dtable g !! T) (dtable g' !! T).

(** The fields that are final once the work-list loop has ended *)
Definition same_shape (e e' : entry) : Prop :=
  dependencies e' = dependencies e ∧ members e' = members e ∧ is_union e' = is_union e.

(** *** Reverse linkage *)

(** The entry is unchanged except that the types [U] with [S U T] have been
    added to the [appears_in] set of [T]. *)
Definition linked (S : string → string → Prop) (T : string) (e e' : entry) : Prop :=
  same_shape e e' ∧ has_vla_member e' = has_vla_member e ∧
  ∀ U, U ∈ appears_in e' ↔ U ∈ appears_in e ∨ S U T.

(** *** Bubbling up the flag *)

(** The reverse edges are fixed while the flag is propagated: [A X] is the
    [appears_in] set of [X]. *)
Definition agrees (A : string → gset string) (g : dict entry) : Prop :=
  ∀ X e, dtable g !! X = Some e → appears_in e = A X.

(** [P] is one of the types [X] appears in *)
Definition up (A : string → gset string) (X P : string) : Prop := P ∈ A X.

Definition flagged (g : dict entry) (T : string) : Prop :=
  ∃ e, dtable g !! T = Some e ∧ has_vla_member e = true.

(** Only the flag changes, and it is raised exactly on the types [F]. *)
Definition marked (F : string → Prop) (T : string) (e e' : entry) : Prop :=
  same_shape e e' ∧ appears_in e' = appears_in e ∧
  (has_vla_member e' = true ↔ has_vla_member e = true ∨ F T).

Definition unchanged (e e' : entry) : Prop :=
  same_shape e e' ∧ appears_in e' = appears_in e.

(** *** The graph returned by [_parse_structs_and_unions] *)

Definition appears_in_of (g : dict entry) (X : string) : gset string :=
  default ∅ (appears_in <$> dtable g !! X).

(** The flag of [T] is set exactly when [T] has a member annotated
    [var_len_array] or one of its transitive dependencies has. *)
Definition vla_fixed_point (g : dict entry) : Prop :=
  ∀ T e, dict_get g T = Some e →
    (has_vla_member e = true ↔
       has_direct_vla e = true ∨
       ∃ D eD, tc (dep g) T D ∧ dict_get g D = Some eD ∧ has_direct_vla eD = true).

Record parsed (g : dict entry) : Prop := {
  parsed_wf : dict_wf g;
  parsed_closed : ∀ U T, dep g U T → is_Some (dict_get g T);
  parsed_appears_in :
    ∀ T e, dict_get g T = Some e → ∀ U, U ∈ appears_in e ↔ dep g U T;
  parsed_flag : vla_fixed_point g
}.

(** How the returned entry of [T] relates to the one built by the
    work-list loop *)
Definition finished (g0 : dict entry) (T : string) (e0 e : entry) : Prop :=
  same_shape e0 e ∧
  (∀ U, U ∈ appears_in e ↔ dep g0 U T) ∧
  (has_vla_member e = true ↔
     ∃ D eD, dict_get g0 D = Some eD ∧ has_direct_vla eD = true ∧ rtc (dep g0) T D).

(** The part of the state that the propagation loop leaves alone: the
    reverse edges [A] and the set [K] of the types of the graph *)
Definition ok_for (A : string → gset string) (K : string → Prop) (g : dict entry) : Prop :=
  agrees A g ∧ ∀ X, is_Some (dtable g !! X) ↔ K X.

(** ** Pointer members without annotation *)

(** A member whose type is a pointer and that carries neither
    [rewrite_type] nor [var_len_array] *)
Definition unannotated_pointer (m : member_info) : bool :=
  is_pointer (m_type m)
  && negb (existsb is_rewrite_type (m_annotations m))
  && negb (existsb is_var_len_array (m_annotations m)).

(** The exceptions of the graph construction *)
Definition graph_error (e : error) : Prop :=
  match e with
  | TypeNotFound _ | KeyError _ => True
  | _ => False
  end.

(** The members before the offending one give no error of their own. *)
Definition member_ok (self : CodeGenerator) (m : member_info) : Prop :=
  (∃ t, _get_member_type self m false = Done t) ∧
  (∃ s, _get_member_type_suffix m = Done s) ∧
  (∃ c, _get_member_comment self m = Done c).

(** ** The emitted text and its syntax tree *)

(** Two runs end the same way, with results related by [R]. *)
Definition outcome_rel {A B} (R : A → B → Prop) (o1 : outcome A) (o2 : outcome B) : Prop :=
  match o1, o2 with
  | Done a, Done b => R a b
  | Raise e1, Raise e2 => e1 = e2
  | Timeout, Timeout => True
  | _, _ => False
  end.

(** ** The run of the generated code *)

(** The value of the expression that sizes one element of an array *)
Definition element_size (env : cenv) (e : expr) : Z :=
  match e with
  | ESizeof ty => sizeof_val env ty
  | ECall fn _ => call_val env fn
  | _ => 0%Z
  end.

(** The statements that copy a member or an element as a whole *)
Definition is_leaf (s : stmt) : Prop :=
  match s with
  | SCall _ _ _ | SMemcpy _ _ _ | SCopy _ _ _ => True
  | _ => False
  end.

(** What such a statement adds to the trace when the loop index is [i] *)
Definition leaf_event (s : stmt) (i : option Z) : list event :=
  match s with
  | SCall _ fn args => [EvCall fn args i]
  | SMemcpy _ dst src => [EvMemcpy dst src i]
  | SCopy _ dst src => [EvCopy dst src i]
  | _ => []
  end.

(** The events of [k] iterations of a loop over [copy], from index [i] *)
Fixpoint loop_events (copy : stmt) (k : nat) (i : Z) : list event :=
  match k with
  | O => []
  | S k' => leaf_event copy (Some i) ++ loop_events copy k' (i + 1)%Z
  end.

(** The descriptor of the array member [name] and the payload cursor *)
Definition desc_length (st : cstate) (name : string) : option Z :=
  out_fields st !! (name +:+ ".length").
Definition desc_offset (st : cstate) (name : string) : option Z :=
  out_fields st !! (name +:+ ".offset").
Definition cursor (st : cstate) : option Z := cells st !! "vlaOffset".

(** The state in which the encoder of an array member starts: the cursor
    [*vlaOffset] is [cur] and the payload capacity [payloadSize] is [cap]. *)
Definition vla_ready (st : cstate) (cur cap : Z) : Prop :=
  cells st !! "vlaOffset" = Some cur ∧
  vars st !! "vlaOffset" ≠ Some 0%Z ∧
  vars st !! "payloadSize" = Some cap.

(** The byte length that the encoder computes for the array member [m]
    annotated [a]: the value of the length field times the size of one
    element *)
Definition vla_byte_length (self : CodeGenerator) (env : cenv) (m : member_info)
    (a : annotation) : Z :=
  match length_field_of a, member_sizeof_call_ast self m with
  | Done lf, Done sze => (in_field env lf * element_size env sze)%Z
  | _, _ => 0%Z
  end.

(** The entry point is called with pointers [out] and [outSize] that are
    not null. *)
Definition alloc_ready (st : cstate) : Prop :=
  (∃ p, vars st !! "out" = Some p ∧ p ≠ 0%Z) ∧
  (∃ q, vars st !! "outSize" = Some q ∧ q ≠ 0%Z).

(** ** The encoded size *)

(** What one [var_len_array] annotation of the member [m] adds to the
    encoded size: the value of the length field times the size of an
    element of the array *)
Definition annotation_vla_size (self : CodeGenerator) (env : cenv) (m : member_info)
    (a : annotation) : Z :=
  match kind a, _get_member_type self m true with
  | var_len_array lf, Done t => (in_field env lf * sizeof_val env t)%Z
  | _, _ => 0%Z
  end.

(** The sum over the annotations of a member: a member without
    [var_len_array] adds nothing, a member with one such annotation adds
    its count times the size of its elements. *)
Definition member_vla_size (self : CodeGenerator) (env : cenv) (m : member_info) : Z :=
  foldr (λ a acc, (annotation_vla_size self env m a + acc)%Z) 0%Z (m_annotations m).

(** The sum over the members of a type *)
Definition vla_payload_size (self : CodeGenerator) (env : cenv)
    (members : list member_info) : Z :=
  foldr (λ m acc, (member_vla_size self env m + acc)%Z) 0%Z members.

(** ** Nested variable-length arrays *)

(** The parser object is the result of a run of [ApiParser]. *)
Definition from_parser (a : ApiParser) : Prop :=
  ∃ fuel defs, ApiParser_init fuel defs (api_json a) = Done a.

(** A member annotated [var_len_array] whose element type is a
    struct/union with a variable-length member *)
Definition nested_vla_member (self : CodeGenerator) (m : member_info) : bool :=
  has_vla_annotation (m_annotations m)
  && match nested_with_vla self m with Done b => b | _ => false end.

(** The names that [_gen_chpp_sizeof_function] needs do resolve: that of
    the type itself when a size function is due, and the element types of
    the members annotated [var_len_array]. *)
Definition sizeof_names_resolve (self : CodeGenerator) (chre_type : string)
    (info : entry) : Prop :=
  (has_vla_member info = true →
   ∃ core p t,
     _strip_prefix_and_service_from_chre_struct_name self chre_type = Done core ∧
     lower_first core = Done p ∧
     _get_chpp_type_from_chre self chre_type = Done t) ∧
  Forall (λ m, has_vla_annotation (m_annotations m) = true →
               (∃ t, _get_member_type self m true = Done t) ∧
               (∃ b, nested_with_vla self m = Done b))
         (members info).

(** ** Union variants *)

(** The mapping entry [c] names a member of the union whose assignment
    statement can be generated. *)
Definition union_case_ok (self : CodeGenerator) (m : member_info) (info : entry)
    (c : string * string) : Prop :=
  ∃ nm copy,
    find_member (members info) c.2 = Some nm ∧
    assignment_statement_ast self "      " nm false (Some (m_name m)) = Done copy.

(** The case [k] of the generated switch is the one for the mapping entry
    [c]: its label is the value of the entry and its body copies the member
    the entry names. *)
Definition case_of (self : CodeGenerator) (m : member_info) (info : entry)
    (c : string * string) (k : string * list stmt) : Prop :=
  k.1 = c.1 ∧
  ∃ nm copy,
    find_member (members info) c.2 = Some nm ∧
    assignment_statement_ast self "      " nm false (Some (m_name m)) = Done copy ∧
    k.2 = [copy].

(** ** The range of the 16-bit fields

    The generated code keeps the payload cursor in a [uint16_t] (the
    generator emits its declaration) and the byte length and the offset of
    an array in the fields of [struct ChppOffset], which the CHPP headers
    declare as [uint16_t] too. The sizes are computed in [size_t], which
    holds at least these values, and the sum of the cursor and a length is
    formed in [int], which is wider than 16 bits on the platforms of CHPP.
    The model computes on the integers: it agrees with the run of the C code
    where the values at hand are in this range, and the statements about
    runs say so. *)
Definition fits_uint16 (v : Z) : Prop := (0 ≤ v ≤ 65535)%Z.

(** ** Union variants: the members that can be copied *)

(** The statement that copies the member can be generated: a member of
    struct/union type has its type in the graph, under a name from which the
    name of its encoding function is derived. *)
Definition encoder_resolves (self : CodeGenerator) (nm : member_info) : Prop :=
  m_is_nested_type nm = true →
  ∃ n info fn,
    nested_type_name nm = Done n ∧
    struct_info_of self n = Done info ∧
    _get_encoding_function_name self n = Done fn.

(** The mapping entry [c] names a member of the union, and the statement
    that copies this member can be generated. *)
Definition mapped_member_resolves (self : CodeGenerator) (info : entry)
    (c : string * string) : Prop :=
  ∃ nm, find_member (members info) c.2 = Some nm ∧ encoder_resolves self nm.

(** The mapping entry [c] names a member of the union. *)
Definition names_a_member (info : entry) (c : string * string) : Prop :=
  is_Some (find_member (members info) c.2).

(** ** The range of the size computation *)

(** The sizes that the size function adds up are not negative and their sum
    is a value that every [size_t] holds: the sum computed on the integers
    is the one computed in C. *)
Definition sizes_in_range (self : CodeGenerator) (env : cenv) (chpp_type : string)
    (members : list member_info) : Prop :=
  (0 ≤ sizeof_val env chpp_type)%Z ∧
  Forall (λ m, Forall (λ a, (0 ≤ annotation_vla_size self env m a)%Z) (m_annotations m))
         members ∧
  fits_uint16 (sizeof_val env chpp_type + vla_payload_size self env members).

(** ** The order of the generated definitions *)

(** Every type of the list comes after the types it depends on. *)
Definition deps_before (g : dict entry) (result : list string) : Prop :=
  ∀ l1 x l2, result = l1 ++ x :: l2 → ∀ d, dep g x d → d ∈ l1.

(** ** The encoding functions *)

Definition is_struct_type (g : dict entry) (T : string) : Prop :=
  ∃ e, dict_get g T = Some e ∧ is_union e = false.

(** The definitions of the encoding functions of the types of [order], one
    after the other, appended to [out] *)
Definition encoders_text (self : CodeGenerator) (order : list string) (out : list string)
    : outcome (list string) :=
  for_each (λ out T, encoding_function_definition self T out) order out.

(** The set [already_generated] holds, with a type, the structures that the
    type depends on, directly or through other types. *)
Definition generated_closed (g : dict entry) (ag : gset string) : Prop :=
  ∀ T, T ∈ ag → ∀ D, tc (dep g) T D → is_struct_type g D → D ∈ ag.

(** Nothing is left to generate for [t]. *)
Definition settled (g : dict entry) (ag : gset string) (t : string) : Prop :=
  (is_struct_type g t → t ∈ ag) ∧
  ∀ D, tc (dep g) t D → is_struct_type g D → D ∈ ag.

(** [y] depends, directly or not, on a type that depends on itself. *)
Definition reaches_cycle (g : dict entry) (y : string) : Prop :=
  ∃ s, rtc (dep g) y s ∧ tc (dep g) s s.

(** Each type of [order] comes after the structures that it depends on,
    directly or through other types; [ag] holds the structures whose
    functions are there already. *)
Fixpoint defined_before_use (g : dict entry) (ag : gset string) (order : list string)
    : Prop :=
  match order with
  | [] => True
  | x :: rest =>
      (∀ D, tc (dep g) x D → is_struct_type g D → D ∈ ag) ∧
      defined_before_use g (ag ∪ {[x]}) rest
  end.

(** ** The graph and the parsed definitions *)

(** The definition that the parser takes for the name [T]: that of the
    structure of this name when there is one, else that of the union. The
    flag tells a union. *)
Definition definition_of (defs : parser_defs) (T : string)
    : option (bool * list (string * ctype)) :=
  match structs defs !! T, unions defs !! T with
  | Some mems, _ => Some (false, mems)
  | None, Some mems => Some (true, mems)
  | None, None => None
  end.

(** The type specification names a structure or a union. *)
Definition is_nested (ty : ctype) : bool :=
  Py.startswith (type_spec ty) "struct " || Py.startswith (type_spec ty) "union ".

(** The [member_info] of a member of the definition of [T] *)
Definition member_of (annotations : gmap string (gmap string (list annotation)))
    (T : string) (member : string * ctype) : member_info :=
  MemberInfo member.1 member.2 (annotations_lookup annotations T member.1)
    (is_nested member.2)
    (if is_nested member.2 then Some (split_item1 (type_spec member.2)) else None).

(** The names of the structures and unions that the members are made of,
    in the order of the members *)
Definition nested_names (mems : list (string * ctype)) : list string :=
  omap (λ m, if is_nested m.2 then Some (split_item1 (type_spec m.2)) else None) mems.

(** The entry [e] describes the definition of [T]. *)
Definition mirrors (defs : parser_defs)
    (annotations : gmap string (gmap string (list annotation)))
    (T : string) (e : entry) : Prop :=
  ∃ mems, definition_of defs T = Some (is_union e, mems) ∧
          members e = member_of annotations T <$> mems ∧
          dependencies e = list_to_set (nested_names mems).

(** The definition of [T] has a member made of [D]. *)
Definition uses (defs : parser_defs) (T D : string) : Prop :=
  ∃ u mems, definition_of defs T = Some (u, mems) ∧ D ∈ nested_names mems.

(** [T] is a root structure or a type that a root structure is made of,
    directly or through other types. *)
Definition needed (defs : parser_defs) (roots : list string) (T : string) : Prop :=
  ∃ r, r ∈ roots ∧ rtc (uses defs) r T.

(** What the work-list loop keeps true: the entries describe the
    definitions, and the work list and the graph hold the root structures
    and nothing but types that a root structure is made of. *)
Definition parse_inv (defs : parser_defs)
    (annotations : gmap string (gmap string (list annotation)))
    (roots : list string) (wl : list string) (g : dict entry) : Prop :=
  (∀ T e, dict_get g T = Some e → mirrors defs annotations T e) ∧
  (∀ w, w ∈ wl → needed defs roots w) ∧
  (∀ T, is_Some (dict_get g T) → needed defs roots T) ∧
  (∀ r, r ∈ roots → r ∈ wl ∨ is_Some (dict_get g r)).

(** The types named in the [appears_in] sets are types of the graph. *)
Definition links_closed (g : dict entry) : Prop :=
  ∀ X e, dtable g !! X = Some e → ∀ P, P ∈ appears_in e → is_Some (dtable g !! P).

(** The names defined as a structure or as a union *)
Definition defined_names (defs : parser_defs) : gset string :=
  dom (structs defs) ∪ dom (unions defs).

(** The largest number of members of a definition *)
Definition max_members (defs : parser_defs) : nat :=
  max_list_with (λ p : string * list (string * ctype), length p.2)
    (map_to_list (structs defs) ++ map_to_list (unions defs)).

(** ** The annotations *)

(** The annotations that the JSON object gives for the field [field_name]
    of [struct]: those of every element of [struct_info] with this name, in
    the order of the file *)
Definition annotations_of (json : json_obj) (struct field_name : string)
    : list annotation :=
  filter (λ a, field a = field_name)
    (concat (si_annotations <$> filter (λ i, si_name i = struct) (json_struct_info json))).

(** ** The run of an encoding function *)

(** The annotation that gives the code of a member: the first one of kind
    [fixed_value], [var_len_array] or [union_variant] *)
Fixpoint deciding_annotation (annotations : list annotation) : option annotation :=
  match annotations with
  | [] => None
  | a :: rest =>
      match kind a with
      | fixed_value _ | var_len_array _ | union_variant _ _ => Some a
      | _ => deciding_annotation rest
      end
  end.

(** The bytes of payload that the code of the member [m] takes: the byte
    length of the array when the member is encoded as a variable-length
    array, nothing otherwise *)
Definition encoded_payload (self : CodeGenerator) (env : cenv) (m : member_info) : Z :=
  match deciding_annotation (m_annotations m) with
  | Some a => if is_var_len_array a then vla_byte_length self env m a else 0%Z
  | None => 0%Z
  end.

Definition encoded_payload_total (self : CodeGenerator) (env : cenv)
    (members : list member_info) : Z :=
  foldr (λ m acc, (encoded_payload self env m + acc)%Z) 0%Z members.

(** Where assertions are fatal, the discriminator of a union member has one
    of the values of the mapping. *)
Definition selects_a_member (env : cenv) (m : member_info) : Prop :=
  ∀ a disc mapping,
    deciding_annotation (m_annotations m) = Some a →
    kind a = union_variant disc mapping →
    asserts_fatal env = true →
    ∃ c, c ∈ mapping ∧ const_val env c.1 = in_field env disc.

(** The input is one that the code of [m] encodes in full: the byte length
    of an array is not negative, and no assertion on a discriminator
    fails. *)
Definition encodable (self : CodeGenerator) (env : cenv) (m : member_info) : Prop :=
  (0 ≤ encoded_payload self env m)%Z ∧ selects_a_member env m.

(** The case [k] of a switch stands for the mapping entry [c] and copies
    one member. *)
Definition copies_one (c : string * string) (k : string * list stmt) : Prop :=
  k.1 = c.1 ∧ ∃ copy, k.2 = [copy] ∧ is_leaf copy.

(** The code generated for a member by the annotation [a] *)
Definition code_of_annotation (self : CodeGenerator) (m : member_info) (a : annotation)
    (code : list stmt) : Prop :=
  match kind a with
  | fixed_value value =>
      code = [SMemset "  " (m_name m) value]
      ∨ code = [SCopy "  " ("out->" +:+ m_name m) value]
  | var_len_array _ => vla_encoding_ast self m a = Done code
  | union_variant _ _ => union_variant_ast self m a = Done code
  | _ => False
  end.

(** The member is not made of a type with a variable-length member, so the
    code of the member hands the payload cursor to no other function. *)
Definition keeps_cursor (self : CodeGenerator) (m : member_info) : Prop :=
  nested_with_vla self m = Done false.

(** A [var_len_array] annotation is the only annotation of its member. *)
Definition vla_alone (m : member_info) : Prop :=
  ∀ a, a ∈ m_annotations m → is_var_len_array a = true → m_annotations m = [a].

(** One of the statements of the body of [f] is a call of [fn]. *)
Definition calls (f : cfun) (fn : string) : Prop :=
  ∃ ind args, SCall ind fn args ∈ f_body f.

(** No [rename_type] annotation gives the type another name. *)
Definition keeps_name (self : CodeGenerator) (chre_type : string) : Prop :=
  first_rename_type (annotations_lookup (api_annotations (api self)) chre_type ".") = None.

(** ** A small API used in the examples *)

Module Example.

Definition t_u8 : ctype := CType "uint8_t" [].
Definition t_u32 : ctype := CType "uint32_t" [].

(** [struct chreWwanB { uint8_t n; const uint32_t *arr; }] and
    [struct chreWwanA { uint8_t count; struct chreWwanB b; }] *)
Definition defs : parser_defs :=
  ParserDefs
    (<["chreWwanA" := [("count", t_u8); ("b", CType "struct chreWwanB" [])]]>
       (<["chreWwanB" := [("n", t_u8); ("arr", CType "uint32_t" [DStr "*"])]]> ∅))
    ∅.

Definition json : json_obj :=
  Json "chre_api/include/chre_api/chre/wwan.h" ["chreWwanA"] [StructInfo "chreWwanB" [Annotation "arr" (var_len_array "n")]].

Definition annotations := _parse_annotations json.

Definition built_graph : dict entry :=
  Eval vm_compute in
    match parse_loop defs annotations 4 (reverse (root_structs json)) dict_empty with
    | Done g => g
    | _ => dict_empty
    end.

Definition rank (T : string) : nat := if String.eqb T "chreWwanA" then 1 else 0.

End Example.

(** The value of a run that is known to finish *)
Definition outcome_get {A} (d : A) (o : outcome A) : A :=
  match o with
  | Done a => a
  | _ => d
  end.

Definition no_api : ApiParser :=
  {| api_json := Json "" [] []; structs_and_unions := dict_empty;
     api_annotations := ∅; parser := ParserDefs ∅ ∅ |}.

Definition no_generator : CodeGenerator :=
  {| api := no_api; service_name := ""; capitalized_service_name := "" |}.

(** A root structure with a pointer member that has no annotation:
    [struct chreWwanRaw { uint8_t n; void *cookie; }] *)
Module ExamplePointer.

Definition m_n : member_info := MemberInfo "n" (CType "uint8_t" []) [] false None.
Definition m_cookie : member_info :=
  MemberInfo "cookie" (CType "void" [DStr "*"]) [] false None.

Definition defs : parser_defs :=
  ParserDefs
    (<["chreWwanRaw" := [("n", CType "uint8_t" []); ("cookie", CType "void" [DStr "*"])]]> ∅)
    ∅.

Definition json : json_obj :=
  Json "chre_api/include/chre_api/chre/wwan.h" ["chreWwanRaw"] [].

Definition parsed_api : ApiParser :=
  Eval vm_compute in outcome_get no_api (ApiParser_init 4 defs json).

Definition self : CodeGenerator :=
  Eval vm_compute in outcome_get no_generator (CodeGenerator_init parsed_api).

Definition info : entry := Entry ∅ ∅ false [m_n; m_cookie] false.

End ExamplePointer.

(** Two root structures, one nested in the other:
    [struct chreWwanB { uint8_t n; }] and
    [struct chreWwanA { struct chreWwanB b; }] *)
Module ExampleRoots.

Definition defs : parser_defs :=
  ParserDefs
    (<["chreWwanA" := [("b", CType "struct chreWwanB" [])]]>
       (<["chreWwanB" := [("n", CType "uint8_t" [])]]> ∅))
    ∅.

Definition json : json_obj :=
  Json "chre_api/include/chre_api/chre/wwan.h" ["chreWwanA"; "chreWwanB"] [].

Definition self : CodeGenerator :=
  Eval vm_compute in
    outcome_get no_generator (a ← ApiParser_init 4 defs json; CodeGenerator_init a).

End ExampleRoots.

(** The cell info result of the WWAN service, cut down: a root structure
    with a variable-length array of structures that hold a union.

    [struct chreWwanCellInfoResult { uint8_t version; uint8_t cellInfoCount;
       const void *cookie; const struct chreWwanCellInfo *cells; }]
    [struct chreWwanCellInfo { uint64_t timeStamp; uint8_t cellInfoType;
       uint8_t reserved[3]; union chreWwanCellInfoPerRat CellInfo; }]
    [union chreWwanCellInfoPerRat { struct chreWwanGsm gsm; uint32_t raw;
       uint8_t bytes[4]; }]
    [struct chreWwanGsm { int32_t mcc; }] *)
Module ExampleWwan.

Definition defs : parser_defs :=
  ParserDefs
    (<["chreWwanCellInfoResult" :=
         [("version", CType "uint8_t" []); ("cellInfoCount", CType "uint8_t" []);
          ("cookie", CType "void" [DStr "*"]);
          ("cells", CType "struct chreWwanCellInfo" [DStr "*"])]]>
    (<["chreWwanCellInfo" :=
         [("timeStamp", CType "uint64_t" []); ("cellInfoType", CType "uint8_t" []);
          ("reserved", CType "uint8_t" [DList [3%Z]]);
          ("CellInfo", CType "union chreWwanCellInfoPerRat" [])]]>
    (<["chreWwanGsm" := [("mcc", CType "int32_t" [])]]> ∅)))
    (<["chreWwanCellInfoPerRat" :=
         [("gsm", CType "struct chreWwanGsm" []); ("raw", CType "uint32_t" []);
          ("bytes", CType "uint8_t" [DList [4%Z]])]]> ∅).

Definition a_cells : annotation := Annotation "cells" (var_len_array "cellInfoCount").

Definition a_CellInfo : annotation :=
  Annotation "CellInfo"
    (union_variant "cellInfoType"
       [("CHRE_WWAN_CELL_INFO_TYPE_GSM", "gsm"); ("2", "raw"); ("3", "bytes")]).

Definition json : json_obj :=
  Json "chre_api/include/chre_api/chre/wwan.h" ["chreWwanCellInfoResult"]
    [StructInfo "chreWwanCellInfoResult"
       [Annotation "version" (fixed_value "CHRE_WWAN_CELL_INFO_RESULT_VERSION");
        Annotation "cookie" (rewrite_type "uint32_t");
        a_cells];
     StructInfo "chreWwanCellInfo"
       [Annotation "reserved" (fixed_value "0"); a_CellInfo]].

Definition parsed_api : ApiParser :=
  Eval vm_compute in outcome_get no_api (ApiParser_init 8 defs json).

Definition self : CodeGenerator :=
  Eval vm_compute in outcome_get no_generator (CodeGenerator_init parsed_api).

Definition m_cells : member_info :=
  MemberInfo "cells" (CType "struct chreWwanCellInfo" [DStr "*"]) [a_cells]
    true (Some "chreWwanCellInfo").

Definition m_CellInfo : member_info :=
  MemberInfo "CellInfo" (CType "union chreWwanCellInfoPerRat" []) [a_CellInfo]
    true (Some "chreWwanCellInfoPerRat").

(** The code that encodes [cells] *)
Definition cells_code : list stmt :=
  Eval vm_compute in outcome_get [] (vla_encoding_ast self m_cells a_cells).

(** An input with [count] cells, where each encoded cell takes 4 bytes *)
Definition env (count : Z) (fatal : bool) : cenv :=
  CEnv (λ f, if String.eqb f "cellInfoCount" then count else 0%Z)
       (λ _, 4%Z) (λ _, 0%Z) (λ _, 0%Z) fatal.

(** The encoder is entered with the cursor at 8 and room for [cap] bytes. *)
Definition start (cap : Z) : cstate :=
  CState (<["payloadSize" := cap]> ∅) (<["vlaOffset" := 8%Z]> ∅) ∅ [].

(** The code that encodes the union [CellInfo] *)
Definition union_stmts : list stmt :=
  Eval vm_compute in outcome_get [] (union_variant_ast self m_CellInfo a_CellInfo).

(** An input whose discriminator [cellInfoType] is [disc]; the constant
    [CHRE_WWAN_CELL_INFO_TYPE_GSM] is 1. *)
Definition union_env (disc : Z) (fatal : bool) : cenv :=
  CEnv (λ f, if String.eqb f "cellInfoType" then disc else 0%Z)
       (λ _, 4%Z) (λ _, 0%Z)
       (λ label, if String.eqb label "CHRE_WWAN_CELL_INFO_TYPE_GSM" then 1%Z
                 else if String.eqb label "2" then 2%Z
                 else if String.eqb label "3" then 3%Z else 0%Z)
       fatal.

Definition empty_state : cstate := CState ∅ ∅ ∅ [].

(** A mapping whose second entry names no member of the union *)
Definition a_bad : annotation :=
  Annotation "CellInfo" (union_variant "cellInfoType" [("1", "gsm"); ("2", "nope")]).

Definition union_info : entry :=
  Eval vm_compute in
    outcome_get (Entry ∅ ∅ false [] false) (struct_info_of self "chreWwanCellInfoPerRat").

Definition result_info : entry :=
  Eval vm_compute in
    outcome_get (Entry ∅ ∅ false [] false) (struct_info_of self "chreWwanCellInfoResult").

(** The size function of [chreWwanCellInfoResult] *)
Definition size_fun : cfun :=
  Eval vm_compute in
    outcome_get (CFun "" [] "")
      (o ← sizeof_function_ast self "chreWwanCellInfoResult";
       match o with Some f => Done f | None => Raise IndexError end).

(** The entry point that encodes a [chreWwanCellInfoResult] *)
Definition alloc_fun : cfun :=
  Eval vm_compute in
    outcome_get (CFun "" [] "")
      (encode_allocation_function_ast self "chreWwanCellInfoResult").

(** [chppMalloc] returns [ptr]; the size function returns 20. *)
Definition alloc_env (ptr : Z) : cenv :=
  CEnv (λ _, 0%Z) (λ _, 8%Z)
       (λ fn, if String.eqb fn "chppMalloc" then ptr else 20%Z) (λ _, 0%Z) true.

(** The caller's [*out] holds 4096 and [*outSize] holds 77 before the call. *)
Definition alloc_start : cstate :=
  CState (<["out" := 1000%Z]> (<["outSize" := 1008%Z]> ∅))
         (<["out" := 4096%Z]> (<["outSize" := 77%Z]> ∅)) ∅ [].

End ExampleWwan.

(** A variable-length array whose elements hold a variable-length array:
    [struct chreWwanOuter { uint8_t n; const struct chreWwanInner *items; }]
    [struct chreWwanInner { uint8_t k; const uint32_t *vals; }] *)
Module ExampleNested.

Definition defs : parser_defs :=
  ParserDefs
    (<["chreWwanOuter" :=
         [("n", CType "uint8_t" []); ("items", CType "struct chreWwanInner" [DStr "*"])]]>
    (<["chreWwanInner" :=
         [("k", CType "uint8_t" []); ("vals", CType "uint32_t" [DStr "*"])]]> ∅))
    ∅.

Definition json : json_obj :=
  Json "chre_api/include/chre_api/chre/wwan.h" ["chreWwanOuter"]
    [StructInfo "chreWwanOuter" [Annotation "items" (var_len_array "n")];
     StructInfo "chreWwanInner" [Annotation "vals" (var_len_array "k")]].

Definition parsed_api : ApiParser :=
  Eval vm_compute in outcome_get no_api (ApiParser_init 6 defs json).

Definition self : CodeGenerator :=
  Eval vm_compute in outcome_get no_generator (CodeGenerator_init parsed_api).

Definition outer_info : entry :=
  Eval vm_compute in
    outcome_get (Entry ∅ ∅ false [] false) (struct_info_of self "chreWwanOuter").

Definition m_items : member_info :=
  MemberInfo "items" (CType "struct chreWwanInner" [DStr "*"])
    [Annotation "items" (var_len_array "n")] true (Some "chreWwanInner").

End ExampleNested.

(** A union with a member of a structure type whose name does not follow
    the pattern of the service, as the anonymous structures of the API
    headers, which an annotation renames:
    [struct chreWwanCellInfo { uint8_t cellInfoType;
       union chreWwanCellInfoPerRat CellInfo; }]
    [union chreWwanCellInfoPerRat { struct anon_struct0 gsm; uint32_t raw; }]
    [struct anon_struct0 { int32_t mcc; }] *)
Module ExampleAnon.

Definition defs : parser_defs :=
  ParserDefs
    (<["chreWwanCellInfo" :=
         [("cellInfoType", CType "uint8_t" []);
          ("CellInfo", CType "union chreWwanCellInfoPerRat" [])]]>
    (<["anon_struct0" := [("mcc", CType "int32_t" [])]]> ∅))
    (<["chreWwanCellInfoPerRat" :=
         [("gsm", CType "struct anon_struct0" []); ("raw", CType "uint32_t" [])]]> ∅).

Definition a_CellInfo : annotation :=
  Annotation "CellInfo" (union_variant "cellInfoType" [("1", "gsm"); ("2", "raw")]).

Definition json : json_obj :=
  Json "chre_api/include/chre_api/chre/wwan.h" ["chreWwanCellInfo"]
    [StructInfo "chreWwanCellInfo" [a_CellInfo];
     StructInfo "anon_struct0" [Annotation "." (rename_type "ChppWwanGsm")]].

Definition parsed_api : ApiParser :=
  Eval vm_compute in outcome_get no_api (ApiParser_init 8 defs json).

Definition self : CodeGenerator :=
  Eval vm_compute in outcome_get no_generator (CodeGenerator_init parsed_api).

Definition m_CellInfo : member_info :=
  MemberInfo "CellInfo" (CType "union chreWwanCellInfoPerRat" []) [a_CellInfo]
    true (Some "chreWwanCellInfoPerRat").

Definition union_info : entry :=
  Eval vm_compute in
    outcome_get (Entry ∅ ∅ false [] false) (struct_info_of self "chreWwanCellInfoPerRat").

End ExampleAnon.

(** A member that is a pointer to a function: its first declarator holds
    the arguments, the pointer comes second. *)
Definition m_callback : member_info :=
  MemberInfo "cb" (CType "void" [DTuple; DStr "*"]) [] false None.

(** The texts that the generator returns for the WWAN example *)
Module WwanText.

Definition cells_text : list string :=
  Eval vm_compute in
    outcome_get [] (_gen_vla_encoding ExampleWwan.self ExampleWwan.m_cells ExampleWwan.a_cells).

Definition alloc_text : list string :=
  Eval vm_compute in
    outcome_get [] (_gen_encode_allocation_function ExampleWwan.self "chreWwanCellInfoResult").

Definition size_text : list string :=
  Eval vm_compute in
    outcome_get [] (_gen_chpp_sizeof_function ExampleWwan.self "chreWwanCellInfoResult").

Definition union_text : list string :=
  Eval vm_compute in
    outcome_get [] (_gen_union_variant_conversion_code ExampleWwan.self
                      ExampleWwan.m_CellInfo ExampleWwan.a_CellInfo).

End WwanText.
(** ** The types of the cell info example in dependency order *)

Module ExampleOrder.

Definition rank (T : string) : nat :=
  if String.eqb T "chreWwanCellInfoResult" then 3
  else if String.eqb T "chreWwanCellInfo" then 2
  else if String.eqb T "chreWwanCellInfoPerRat" then 1
  else 0.

Definition sorted_types : list string :=
  ["chreWwanGsm"; "chreWwanCellInfoPerRat"; "chreWwanCellInfo"; "chreWwanCellInfoResult"].

End ExampleOrder.

(** The text of the encoding functions of the cell info example *)
Definition wwan_encoders : list string :=
  Eval vm_compute in outcome_get [] (_gen_encoding_functions ExampleWwan.self 8).

(** A structure that points to a structure of its own type:
    [struct chreWwanNode { uint8_t value; const struct chreWwanNode *next; }] *)
Module ExampleCycle.

Definition defs : parser_defs :=
  ParserDefs
    (<["chreWwanNode" :=
         [("value", CType "uint8_t" []);
          ("next", CType "struct chreWwanNode" [DStr "*"])]]> ∅)
    ∅.

Definition json : json_obj :=
  Json "chre_api/include/chre_api/chre/wwan.h" ["chreWwanNode"]
    [StructInfo "chreWwanNode" [Annotation "next" (rewrite_type "uint32_t")]].

Definition parsed_api : ApiParser :=
  Eval vm_compute in outcome_get no_api (ApiParser_init 4 defs json).

Definition self : CodeGenerator :=
  Eval vm_compute in outcome_get no_generator (CodeGenerator_init parsed_api).

End ExampleCycle.

(** The list of root structures names a structure that the header does
    not define: [struct chreWwanHolder { uint8_t n; }] is defined,
    [chreWwanAbsent] is not. *)
Module ExampleMissing.

Definition defs : parser_defs :=
  ParserDefs (<["chreWwanHolder" := [("n", CType "uint8_t" [])]]> ∅) ∅.

Definition json : json_obj :=
  Json "chre_api/include/chre_api/chre/wwan.h" ["chreWwanHolder"; "chreWwanAbsent"] [].

End ExampleMissing.

(** A structure with a variable-length array that points to a structure
    of its own type:
    [struct chreWwanChain { uint8_t n; const uint32_t *items;
       const struct chreWwanChain *next; }] *)
Module ExampleVlaCycle.

Definition defs : parser_defs :=
  ParserDefs
    (<["chreWwanChain" :=
         [("n", CType "uint8_t" []); ("items", CType "uint32_t" [DStr "*"]);
          ("next", CType "struct chreWwanChain" [DStr "*"])]]> ∅)
    ∅.

Definition json : json_obj :=
  Json "chre_api/include/chre_api/chre/wwan.h" ["chreWwanChain"]
    [StructInfo "chreWwanChain"
       [Annotation "items" (var_len_array "n"); Annotation "next" (rewrite_type "uint32_t")]].

Definition built_graph : dict entry :=
  Eval vm_compute in
    match parse_loop defs (_parse_annotations json) 4 (reverse (root_structs json))
            dict_empty with
    | Done g => g
    | _ => dict_empty
    end.

Definition info : entry :=
  Eval vm_compute in default (Entry ∅ ∅ false [] false) (dict_get built_graph "chreWwanChain").

End ExampleVlaCycle.

(** The encoding function of [chreWwanCellInfoResult] is entered with the
    cursor behind a structure of 4 bytes and a payload of 16 bytes. *)
Definition wwan_encoder_start : cstate :=
  CState (<["payloadSize" := 16%Z]> (<["vlaOffset" := 2000%Z]> ∅))
         (<["vlaOffset" := 4%Z]> ∅) ∅ [].

Definition wwan_result_encoder : list string :=
  Eval vm_compute in
    outcome_get [] (encoding_function_definition ExampleWwan.self "chreWwanCellInfoResult" []).

(** The state in which the size function of [chreWwanCellInfoResult] ends
    on an input with three cells *)
Definition wwan_size_end : cstate :=
  Eval vm_compute in
    match exec_block (ExampleWwan.env 3 true) (f_body ExampleWwan.size_fun)
            (ExampleWwan.start 0) with
    | Returned _ st => st
    | _ => ExampleWwan.empty_state
    end.


(** A structure with a union member that carries no annotation:
    [struct chreWwanBox { uint8_t kind; union chreWwanValue v; }]
    [union chreWwanValue { uint32_t raw; uint8_t bytes[4]; }] *)
Module ExampleBareUnion.

Definition defs : parser_defs :=
  ParserDefs
    (<["chreWwanBox" :=
         [("kind", CType "uint8_t" []); ("v", CType "union chreWwanValue" [])]]> ∅)
    (<["chreWwanValue" :=
         [("raw", CType "uint32_t" []); ("bytes", CType "uint8_t" [DList [4%Z]])]]> ∅).

Definition json : json_obj :=
  Json "chre_api/include/chre_api/chre/wwan.h" ["chreWwanBox"] [].

Definition parsed_api : ApiParser :=
  Eval vm_compute in outcome_get no_api (ApiParser_init 6 defs json).

Definition self : CodeGenerator :=
  Eval vm_compute in outcome_get no_generator (CodeGenerator_init parsed_api).

Definition box_info : entry :=
  Eval vm_compute in
    outcome_get (Entry ∅ ∅ false [] false) (struct_info_of self "chreWwanBox").

Definition value_info : entry :=
  Eval vm_compute in
    outcome_get (Entry ∅ ∅ false [] false) (struct_info_of self "chreWwanValue").

Definition m_v : member_info :=
  MemberInfo "v" (CType "union chreWwanValue" []) [] true (Some "chreWwanValue").

Definition encoders : list string :=
  Eval vm_compute in outcome_get [] (_gen_encoding_functions self 6).

End ExampleBareUnion.

(** The entry points of the WWAN example, as the conversion file has them *)
Definition wwan_entry_points : list string :=
  Eval vm_compute in outcome_get [] (_gen_encode_allocation_functions ExampleWwan.self).
(** * Properties *)

(** ** Properties of the type graph *)

Section DictFacts.
Context {V : Type}.
Implicit Types (d : dict V) (k : string).

Lemma dict_mem_true d k : dict_mem d k = true ↔ is_Some (dtable d !! k).
Proof. unfold dict_mem. by rewrite bool_decide_eq_true. Qed.

Lemma dict_mem_false d k : dict_mem d k = false ↔ dtable d !! k = None.
Proof.
  unfold dict_mem. rewrite bool_decide_eq_false. by rewrite eq_None_not_Some.
Qed.

Lemma dict_wf_empty : dict_wf (@dict_empty V).
Proof.
  split; [constructor|]. intros k. cbn. rewrite lookup_empty.
  split; [by intros ?%elem_of_nil | by intros [? ?]].
Qed.

Lemma dict_wf_set d k v : dict_wf d → dict_wf (dict_set d k v).
Proof.
  intros [Hnd Hk]. unfold dict_set, dict_wf.
  destruct (dict_mem d k) eqn:Hm; cbn.
  - apply dict_mem_true in Hm. split; [done|]. intros k'. rewrite Hk.
    destruct (decide (k = k')) as [->|Hne].
    + rewrite lookup_insert_eq. naive_solver.
    + by rewrite lookup_insert_ne.
  - apply dict_mem_false in Hm. split.
    + apply NoDup_app. split_and!; [done| |apply NoDup_singleton].
      intros x Hx ->%list_elem_of_singleton. apply Hk in Hx.
      rewrite Hm in Hx. by destruct Hx.
    + intros k'. rewrite elem_of_app, list_elem_of_singleton, Hk.
      destruct (decide (k = k')) as [->|Hne].
      * rewrite lookup_insert_eq. naive_solver.
      * rewrite lookup_insert_ne by done. naive_solver.
Qed.

Lemma dict_wf_alter (f : V → V) d k : dict_wf d → dict_wf (dict_alter f k d).
Proof.
  intros [Hnd Hk]. split; [done|]. intros k'. cbn. rewrite Hk.
  destruct (decide (k = k')) as [->|Hne].
  - rewrite lookup_alter_eq. by rewrite fmap_is_Some.
  - by rewrite lookup_alter_ne.
Qed.

End DictFacts.

(** *** Generic loop rules *)

Lemma for_each_app {S A} (body : S → A → outcome S) l1 l2 s :
  for_each body (l1 ++ l2) s = (s' ← for_each body l1 s; for_each body l2 s').
Proof.
  revert s. induction l1 as [|x l1 IH]; intros s; cbn; [done|].
  destruct (body s x); cbn; auto.
Qed.

(** Partial correctness: an invariant indexed by the elements processed. *)
Lemma for_each_inv {S A} (body : S → A → outcome S) (I : list A → S → Prop) l s s' :
  I [] s →
  (∀ done x s s', x ∈ l → I done s → body s x = Done s' → I (done ++ [x]) s') →
  for_each body l s = Done s' → I l s'.
Proof.
  intros H0 Hstep.
  assert (∀ done rest s, done ++ rest = l → I done s →
            for_each body rest s = Done s' → I l s') as Hgen.
  { intros done rest. revert done. induction rest as [|x rest IH]; intros done s0 Hl HI Hrun.
    - cbn in Hrun. simplify_eq. by rewrite app_nil_r.
    - cbn in Hrun. destruct (body s0 x) as [s1| |] eqn:Hb; cbn in Hrun; try done.
      apply (IH (done ++ [x]) s1); [by rewrite <- app_assoc| |done].
      eapply Hstep; [|done..]. rewrite <- Hl. set_solver. }
  intros Hrun. by apply (Hgen [] l s).
Qed.

(** Total correctness: each iteration finishes and keeps the invariant. *)
Lemma for_each_total {S A} (body : S → A → outcome S) (I : list A → S → Prop) l s :
  I [] s →
  (∀ done x s, x ∈ l → I done s → ∃ s', body s x = Done s' ∧ I (done ++ [x]) s') →
  ∃ s', for_each body l s = Done s' ∧ I l s'.
Proof.
  intros H0 Hstep.
  assert (∀ done rest s, done ++ rest = l → I done s →
            ∃ s', for_each body rest s = Done s' ∧ I l s') as Hgen.
  { intros done rest. revert done. induction rest as [|x rest IH]; intros done s0 Hl HI.
    - exists s0. rewrite app_nil_r in Hl. by subst.
    - destruct (Hstep done x s0) as (s1 & Hb & HI1); [rewrite <- Hl; set_solver|done|].
      cbn. rewrite Hb. cbn. apply (IH (done ++ [x])); [by rewrite <- app_assoc|done]. }
  by apply (Hgen [] l s).
Qed.

Lemma has_direct_vla_snoc e info :
  has_direct_vla (set_members (members e ++ [info]) e)
  = has_direct_vla e || has_vla_annotation (m_annotations info).
Proof.
  unfold has_direct_vla. cbn. rewrite existsb_app. cbn. by rewrite orb_false_r.
Qed.

Lemma parse_member_spec annotations type_name e0 wl0 member e wl :
  parse_member annotations type_name (e0, wl0) member = (e, wl) →
  entry_fresh e0 → (∀ D, D ∈ dependencies e0 → D ∈ wl0) →
  entry_fresh e ∧ (∀ D, D ∈ dependencies e → D ∈ wl) ∧
  (∀ x, x ∈ wl0 → x ∈ wl) ∧ is_union e = is_union e0.
Proof.
  destruct member as [member_name member_type]. unfold parse_member.
  intros Heq [Ha Hf] Hd.
  set (nested := Py.startswith _ _ || Py.startswith _ _) in Heq.
  set (info := MemberInfo _ _ _ _ _) in Heq.
  assert (∀ e1, appears_in e1 = ∅ → has_vla_member e1 = has_direct_vla e1 →
     let e2 := set_members (members e1 ++ [info]) e1 in
     entry_fresh (if has_vla_member e2 then e2
                  else set_has_vla_member
                         (has_vla_annotation
                            (annotations_lookup annotations type_name member_name)) e2))
    as Hfresh.
  { intros e1 Ha1 Hf1 e2. split.
    - by destruct (has_vla_member e2).
    - assert (has_direct_vla e2
              = has_direct_vla e1
                || has_vla_annotation (annotations_lookup annotations type_name member_name))
        as He2 by apply has_direct_vla_snoc.
      destruct (has_vla_member e2) eqn:Hv.
      + unfold has_direct_vla in *. cbn in *. rewrite He2, <- Hf1.
        by rewrite Hv.
      + unfold has_direct_vla in *. cbn in *. rewrite He2, <- Hf1. by rewrite Hv. }
  destruct nested; simplify_eq.
  - split_and!.
    + apply Hfresh; [done|]. cbn. done.
    + destruct (has_vla_member _); cbn; intros D; set_solver.
    + set_solver.
    + by destruct (has_vla_member _).
  - split_and!.
    + by apply Hfresh.
    + destruct (has_vla_member _); cbn; intros D; set_solver.
    + set_solver.
    + by destruct (has_vla_member _).
Qed.

Lemma parse_members_spec annotations type_name mems e0 wl0 e wl :
  foldl (parse_member annotations type_name) (e0, wl0) mems = (e, wl) →
  entry_fresh e0 → (∀ D, D ∈ dependencies e0 → D ∈ wl0) →
  entry_fresh e ∧ (∀ D, D ∈ dependencies e → D ∈ wl) ∧
  (∀ x, x ∈ wl0 → x ∈ wl) ∧ is_union e = is_union e0.
Proof.
  revert e0 wl0. induction mems as [|m mems IH]; intros e0 wl0 Heq Hf Hd.
  - cbn in Heq. by simplify_eq.
  - change (foldl (parse_member annotations type_name)
                  (parse_member annotations type_name (e0, wl0) m) mems = (e, wl)) in Heq.
    destruct (parse_member annotations type_name (e0, wl0) m) as [e1 wl1] eqn:Hm.
    destruct (parse_member_spec _ _ _ _ _ _ _ Hm Hf Hd) as (Hf1 & Hd1 & Hw1 & Hu1).
    destruct (IH _ _ Heq Hf1 Hd1) as (Hf2 & Hd2 & Hw2 & Hu2).
    split_and!; [done|done|auto|congruence].
Qed.

Lemma built_insert g type_name rest e wl :
  built (type_name :: rest) g →
  entry_fresh e → (∀ D, D ∈ dependencies e → D ∈ wl) → (∀ x, x ∈ rest → x ∈ wl) →
  built wl (dict_set g type_name e).
Proof.
  intros [Hwf Hb] Hf Hd Hw. split; [by apply dict_wf_set|].
  intros T e'. unfold dict_get, dict_set. cbn.
  assert (∀ D, is_Some (dtable g !! D) ∨ D ∈ type_name :: rest →
               is_Some (<[type_name:=e]> (dtable g) !! D) ∨ D ∈ wl) as Hmono.
  { intros D [HD|HD].
    - left. rewrite lookup_insert_is_Some. destruct (decide (type_name = D)); auto.
    - apply elem_of_cons in HD as [->|HD]; [left; by rewrite lookup_insert_eq|auto]. }
  destruct (decide (type_name = T)) as [->|Hne].
  - rewrite lookup_insert_eq. intros [= <-]. split; [done|]. intros D HD. right. auto.
  - rewrite lookup_insert_ne by done. intros HT.
    destruct (Hb T e' HT) as [Hf' Hd']. split; [done|]. intros D HD.
    apply Hmono. by apply Hd'.
Qed.

Lemma parse_loop_built defs annotations fuel wl g g' :
  built wl g → parse_loop defs annotations fuel wl g = Done g' → built [] g'.
Proof.
  revert wl g. induction fuel as [|fuel IH]; intros wl g Hb Hrun.
  - destruct wl; cbn in Hrun; [by simplify_eq|done].
  - destruct wl as [|type_name rest]; cbn in Hrun; [by simplify_eq|].
    destruct (dict_mem g type_name) eqn:Hm.
    + apply (IH rest g); [|done]. destruct Hb as [Hwf Hb]. split; [done|].
      intros T e HT. destruct (Hb T e HT) as [Hf Hd]. split; [done|].
      intros D HD. destruct (Hd D HD) as [?|[->|?]%elem_of_cons]; auto.
      left. by apply dict_mem_true.
    + assert (∀ u mems e wl',
        foldl (parse_member annotations type_name)
              (set_is_union u (Entry ∅ ∅ false [] false), rest) mems = (e, wl') →
        built wl' (dict_set g type_name e)) as Hins.
      { intros u mems e wl' Hfold.
        apply parse_members_spec in Hfold as (Hf & Hd & Hw & _).
        - by eapply built_insert.
        - done.
        - cbn. set_solver. }
      destruct (structs defs !! type_name) as [mems|].
      * destruct (foldl _ _ mems) as [e wl'] eqn:Hfold. eauto.
      * destruct (unions defs !! type_name) as [mems|]; [|done].
        destruct (foldl _ _ mems) as [e wl'] eqn:Hfold. eauto.
Qed.

Lemma built_empty wl : built wl dict_empty.
Proof.
  split; [apply dict_wf_empty|]. intros T e. unfold dict_get. cbn.
  by rewrite lookup_empty.
Qed.

Lemma parse_loop_fuel_mono defs annotations fuel fuel' wl g g' :
  parse_loop defs annotations fuel wl g = Done g' → fuel ≤ fuel' →
  parse_loop defs annotations fuel' wl g = Done g'.
Proof.
  revert fuel' wl g. induction fuel as [|fuel IH]; intros fuel' wl g Hrun Hle.
  - destruct wl; cbn in Hrun; [|done]. by destruct fuel'.
  - destruct fuel' as [|fuel']; [lia|].
    destruct wl as [|type_name rest]; [done|]. cbn in *.
    destruct (dict_mem g type_name); [apply IH; [done|lia]|].
    destruct (structs defs !! type_name) as [mems|].
    + destruct (foldl _ _ mems). apply IH; [done|lia].
    + destruct (unions defs !! type_name) as [mems|]; [|done].
      destruct (foldl _ _ mems). apply IH; [done|lia].
Qed.

Lemma graph_rel_refl (R : string → entry → entry → Prop) g :
  (∀ T e, R T e e) → graph_rel R g g.
Proof. intros HR. split; [done|]. intros T. destruct (dtable g !! T); by constructor. Qed.

Lemma graph_rel_impl (R R' : string → entry → entry → Prop) g g' :
  (∀ T e e', dtable g !! T = Some e → R T e e' → R' T e e') →
  graph_rel R g g' → graph_rel R' g g'.
Proof.
  intros HR [Hk Hg]. split; [done|]. intros T. specialize (Hg T).
  destruct (dtable g !! T) eqn:HT; inversion Hg; subst; constructor; eauto.
Qed.

Lemma graph_rel_trans (R1 R2 R3 : string → entry → entry → Prop) g g1 g2 :
  (∀ T a b c, dtable g !! T = Some a → R1 T a b → R2 T b c → R3 T a c) →
  graph_rel R1 g g1 → graph_rel R2 g1 g2 → graph_rel R3 g g2.
Proof.
  intros HR [Hk1 H1] [Hk2 H2]. split; [congruence|]. intros T.
  specialize (H1 T). specialize (H2 T).
  destruct (dtable g !! T) eqn:HT; inversion H1 as [? ? ? Ha Hb|Ha Hb]; subst;
    rewrite <- Hb in H2; inversion H2; subst; constructor; eauto.
Qed.

Lemma graph_rel_alter (f : entry → entry) k g :
  graph_rel (λ T e e', e' = if decide (T = k) then f e else e) g (dict_alter f k g).
Proof.
  split; [done|]. intros T. cbn. destruct (decide (T = k)) as [->|Hne].
  - rewrite lookup_alter_eq.
    destruct (dtable g !! k); [by apply Some_Forall2|apply None_Forall2].
  - rewrite lookup_alter_ne by done. by destruct (dtable g !! T); constructor.
Qed.

Lemma graph_rel_is_Some R g g' T :
  graph_rel R g g' → is_Some (dtable g' !! T) ↔ is_Some (dtable g !! T).
Proof.
  intros [_ Hg]. specialize (Hg T). inversion Hg; split; intros [? ?]; eauto; congruence.
Qed.

Lemma graph_rel_wf R g g' : graph_rel R g g' → dict_wf g → dict_wf g'.
Proof.
  intros Hg [Hnd Hk]. pose proof Hg as [Hkeys _]. split; [by rewrite Hkeys|].
  intros k. rewrite Hkeys, Hk. symmetry. by eapply graph_rel_is_Some.
Qed.

Lemma graph_rel_lookup R g g' T e' :
  graph_rel R g g' → dtable g' !! T = Some e' →
  ∃ e, dtable g !! T = Some e ∧ R T e e'.
Proof.
  intros [_ Hg] HT. specialize (Hg T). rewrite HT in Hg. inversion Hg; subst. eauto.
Qed.

Lemma graph_rel_lookup_l R g g' T e :
  graph_rel R g g' → dtable g !! T = Some e →
  ∃ e', dtable g' !! T = Some e' ∧ R T e e'.
Proof.
  intros [_ Hg] HT. specialize (Hg T). rewrite HT in Hg. inversion Hg; subst. eauto.
Qed.

Lemma graph_rel_None R g g' T :
  graph_rel R g g' → dtable g !! T = None → dtable g' !! T = None.
Proof.
  intros Hrel HT. apply eq_None_not_Some. rewrite (graph_rel_is_Some _ _ _ T Hrel).
  rewrite HT. by intros [? ?].
Qed.

Lemma link_one_spec type_name g dependency :
  is_Some (dtable g !! dependency) →
  ∃ g', link_one type_name g dependency = Done g' ∧
        graph_rel (linked (λ U T, U = type_name ∧ T = dependency)) g g'.
Proof.
  intros Hd. unfold link_one. apply dict_mem_true in Hd. rewrite Hd.
  eexists. split; [done|].
  eapply graph_rel_impl; [|apply graph_rel_alter].
  intros T e e' _ ->. unfold linked, same_shape.
  destruct (decide (T = dependency)) as [->|Hne]; cbn; split_and!; try done.
  - intros U. set_solver.
  - intros U. naive_solver.
Qed.

Lemma link_deps_spec type_name ds g :
  (∀ D, D ∈ ds → is_Some (dtable g !! D)) →
  ∃ g', for_each (link_one type_name) ds g = Done g' ∧
        graph_rel (linked (λ U T, U = type_name ∧ T ∈ ds)) g g'.
Proof.
  intros Hds.
  apply (for_each_total (link_one type_name)
           (λ done g', graph_rel (linked (λ U T, U = type_name ∧ T ∈ done)) g g')).
  - apply graph_rel_refl. intros T e. unfold linked, same_shape. split_and!; try done.
    intros U. set_solver.
  - intros done x g1 Hx Hg1.
    destruct (link_one_spec type_name g1 x) as (g2 & Hrun & Hg2).
    { rewrite (graph_rel_is_Some _ _ _ _ Hg1). auto. }
    exists g2. split; [done|].
    eapply graph_rel_trans; [|exact Hg1|exact Hg2].
    intros T a b c _ (Hs1 & Hv1 & Ha1) (Hs2 & Hv2 & Ha2).
    unfold linked, same_shape in *. split_and!; try (destruct_and!; congruence).
    intros U. rewrite Ha2, Ha1. set_solver.
Qed.

Lemma link_reverse_spec g :
  built [] g →
  ∃ g', link_reverse g = Done g' ∧ graph_rel (linked (dep g)) g g'.
Proof.
  intros [Hwf Hb]. unfold link_reverse.
  destruct (for_each_total
    (λ g0 type_name, type_info ← dict_item g0 type_name;
       for_each (link_one type_name) (elements (dependencies type_info)) g0)
    (λ done g', graph_rel (linked (λ U T, U ∈ done ∧ dep g U T)) g g')
    (dkeys g) g) as (g' & Hrun & Hg').
  - apply graph_rel_refl. intros T e. unfold linked, same_shape. split_and!; try done.
    intros U. set_solver.
  - intros done x g1 Hx Hg1.
    apply Hwf in Hx as [e He].
    destruct (graph_rel_lookup_l _ _ _ _ _ Hg1 He) as (e1 & He1 & (Hs1 & _)).
    unfold dict_item. rewrite He1. cbn.
    destruct (link_deps_spec x (elements (dependencies e1)) g1) as (g2 & Hrun & Hg2).
    { intros D HD. rewrite (graph_rel_is_Some _ _ _ _ Hg1).
      apply elem_of_elements in HD. destruct Hs1 as [Hd1 _]. rewrite Hd1 in HD.
      destruct (Hb x e He) as [_ Hcl]. destruct (Hcl D HD) as [?|?%elem_of_nil]; done. }
    exists g2. split; [done|].
    eapply graph_rel_trans; [|exact Hg1|exact Hg2].
    intros T a b c HT (Hsa & Hva & Haa) (Hsb & Hvb & Hab).
    unfold linked, same_shape in *. split_and!; try (destruct_and!; congruence).
    intros U. rewrite Hab, Haa. destruct Hs1 as [Hd1 _].
    assert (U = x ∧ T ∈ elements (dependencies e1) ↔ U = x ∧ dep g U T) as ->.
    { rewrite elem_of_elements, Hd1. unfold dep, dict_get. split.
      - intros [-> ?]. eauto.
      - intros [-> (e0 & He0 & ?)]. by simplify_eq. }
    set_solver.
  - exists g'. split; [done|].
    eapply graph_rel_impl; [|exact Hg'].
    intros T e e' _ (Hs & Hv & Ha). split_and!; try done.
    intros U. rewrite Ha. split; [naive_solver|].
    intros [?|Hd]; [by left|right]. split; [|done].
    destruct Hd as (eU & HU & _). apply Hwf. by eexists.
Qed.

Lemma marked_agrees A F g g' : graph_rel (marked F) g g' → agrees A g → agrees A g'.
Proof.
  intros Hg HA X e' HX.
  destruct (graph_rel_lookup _ _ _ _ _ Hg HX) as (e & He & (_ & Ha & _)).
  rewrite Ha. eauto.
Qed.

Lemma marked_flagged F g g' T :
  graph_rel (marked F) g g' →
  flagged g' T ↔ (flagged g T ∨ (F T ∧ is_Some (dtable g !! T))).
Proof.
  intros Hg. unfold flagged. split.
  - intros (e' & He' & Hv).
    destruct (graph_rel_lookup _ _ _ _ _ Hg He') as (e & He & (_ & _ & Hf)).
    apply Hf in Hv. destruct Hv as [Hv'|HF]; eauto.
  - intros [(e & He & Hv)|[HF [e He]]];
      destruct (graph_rel_lookup_l _ _ _ _ _ Hg He) as (e' & He' & (_ & _ & Hf));
      exists e'; (split; [done|]); apply Hf; auto.
Qed.

Lemma mark_step_rel type_to_mark g :
  graph_rel (marked (λ T, T = type_to_mark)) g
            (dict_alter (set_has_vla_member true) type_to_mark g).
Proof.
  eapply graph_rel_impl; [|apply graph_rel_alter].
  intros T e e' _ ->. unfold marked, same_shape.
  destruct (decide (T = type_to_mark)) as [->|Hne]; cbn; split_and!; try done.
  - naive_solver.
  - naive_solver.
Qed.

(** Partial correctness of the inner loop: it raises the flag of every type
    reachable from the work list through [appears_in], all of which are
    types of the graph. *)
Lemma mark_loop_spec A fuel wl g g' :
  agrees A g → mark_loop fuel wl g = Done g' →
  graph_rel (marked (λ T, ∃ w, w ∈ wl ∧ rtc (up A) w T)) g g' ∧
  ∀ w T, w ∈ wl → rtc (up A) w T → is_Some (dtable g !! T).
Proof.
  revert wl g. induction fuel as [|fuel IH]; intros wl g HA Hrun.
  - destruct wl; cbn in Hrun; [|done]. simplify_eq. split.
    + apply graph_rel_refl. intros T e. unfold marked, same_shape.
      split_and!; try done. split; [auto|]. intros [?|(w & ?%elem_of_nil & _)]; done.
    + by intros w T ?%elem_of_nil.
  - destruct wl as [|t rest]; cbn in Hrun.
    { simplify_eq. split.
      - apply graph_rel_refl. intros T e. unfold marked, same_shape.
        split_and!; try done. split; [auto|]. intros [?|(w & ?%elem_of_nil & _)]; done.
      - by intros w T ?%elem_of_nil. }
    unfold dict_get in Hrun. destruct (dtable g !! t) as [e|] eqn:Ht; [|done].
    pose proof (mark_step_rel t g) as Hstep.
    pose proof (marked_agrees A _ _ _ Hstep HA) as HA1.
    destruct (IH _ _ HA1 Hrun) as [Hrel Hkeys].
    rewrite (HA t e Ht) in Hrel, Hkeys.
    assert (∀ T, rtc (up A) t T →
                 T = t ∨ ∃ w, w ∈ reverse (elements (A t)) ++ rest ∧ rtc (up A) w T) as Hinv.
    { intros T [->|(y & Hy & Hr)]%rtc_inv; [by left|right].
      exists y. split; [|done]. rewrite elem_of_app, elem_of_reverse, elem_of_elements. by left. }
    split.
    + eapply graph_rel_trans; [|exact Hstep|exact Hrel].
      intros T a b c _ (Hs1 & Ha1 & Hf1) (Hs2 & Ha2 & Hf2).
      unfold marked, same_shape in *. split_and!; try (destruct_and!; congruence).
      rewrite Hf2, Hf1. split.
      * intros [[?| ->]|(w & Hw & Hr)]; [by left|right; exists t; split; [set_solver|done]|].
        right. apply elem_of_app in Hw as [Hw|Hw].
        -- exists t. split; [set_solver|]. eapply rtc_l; [|done].
           unfold up. by rewrite elem_of_reverse, elem_of_elements in Hw.
        -- exists w. split; [set_solver|done].
      * intros [?|(w & [->|Hw]%elem_of_cons & Hr)]; [by left; left| |].
        -- destruct (Hinv T Hr) as [->|?]; [by left; right|by right].
        -- right. exists w. split; [set_solver|done].
    + intros w T [->|Hw]%elem_of_cons Hr.
      * destruct (Hinv T Hr) as [->|(w & Hw & Hr')]; [by eexists|].
        rewrite <- (graph_rel_is_Some _ _ _ T Hstep). eauto.
      * rewrite <- (graph_rel_is_Some _ _ _ T Hstep).
        apply (Hkeys w); [set_solver|done].
Qed.

Lemma mark_loop_fuel_mono fuel fuel' wl g g' :
  mark_loop fuel wl g = Done g' → (fuel ≤ fuel')%nat → mark_loop fuel' wl g = Done g'.
Proof.
  revert fuel' wl g. induction fuel as [|fuel IH]; intros fuel' wl g Hrun Hle.
  - destruct wl; cbn in Hrun; [|done]. by destruct fuel'.
  - destruct fuel' as [|fuel']; [lia|].
    destruct wl as [|t rest]; [done|]. cbn in *.
    destruct (dict_get g t); [|done]. apply IH; [done|lia].
Qed.

(** Partial correctness of the propagation: a type ends up flagged exactly
    when it is reachable, through [appears_in], from a type flagged before. *)
Lemma bubble_up_spec A fuel g g' :
  dict_wf g → agrees A g → bubble_up fuel g = Done g' →
  graph_rel (λ _, unchanged) g g' ∧
  ∀ T, flagged g' T ↔ ∃ D, flagged g D ∧ rtc (up A) D T.
Proof.
  intros Hwf HA Hrun. unfold bubble_up in Hrun.
  pose (I := λ (done : list string) (g1 : dict entry),
    graph_rel (λ _, unchanged) g g1 ∧
    (∀ T, flagged g1 T → ∃ D, flagged g D ∧ rtc (up A) D T) ∧
    (∀ T, flagged g T → flagged g1 T) ∧
    (∀ X T, X ∈ done → flagged g1 X → rtc (up A) X T → flagged g1 T)).
  assert (I (dkeys g) g') as (Hrel & Hsound & Hmono & Hcompl).
  { eapply (for_each_inv _ I); [| |exact Hrun].
    - split_and!.
      + apply graph_rel_refl. intros T e. by unfold unchanged, same_shape.
      + intros T HT. exists T. eauto using rtc_refl.
      + done.
      + by intros X T ?%elem_of_nil.
    - intros done x g1 g2 Hx (Hrel1 & Hs1 & Hm1 & Hc1) Hbody.
      assert (agrees A g1) as HA1.
      { intros X e1 HX.
        destruct (graph_rel_lookup _ _ _ _ _ Hrel1 HX) as (e & He & (_ & Ha)).
        rewrite Ha. eauto. }
      unfold dict_item in Hbody.
      destruct (dtable g1 !! x) as [e1|] eqn:Hx1; cbn in Hbody; [|done].
      destruct (has_vla_member e1) eqn:Hv.
      + destruct (mark_loop_spec A _ _ _ _ HA1 Hbody) as [Hrel2 Hkeys2].
        rewrite (HA1 x e1 Hx1) in Hrel2, Hkeys2.
        pose proof (marked_flagged _ _ _ x Hrel2) as Hfx.
        assert (flagged g1 x) as Hflx by (by exists e1).
        assert (∀ T, flagged g2 T ↔
                     flagged g1 T ∨ ∃ w, up A x w ∧ rtc (up A) w T) as Hfl.
        { intros T. rewrite (marked_flagged _ _ _ T Hrel2). split.
          - intros [?|[(w & Hw & Hr) _]]; [by left|right].
            exists w. split; [|done]. unfold up.
            by rewrite elem_of_reverse, elem_of_elements in Hw.
          - intros [?|(w & Hw & Hr)]; [by left|right].
            assert (w ∈ reverse (elements (A x))) as Hw'.
            { by rewrite elem_of_reverse, elem_of_elements. }
            split; [eauto|]. by apply (Hkeys2 w). }
        split_and!.
        * eapply graph_rel_trans; [|exact Hrel1|exact Hrel2].
          intros T a b c _ ((? & ? & ?) & ?) ((? & ? & ?) & ? & _).
          unfold unchanged, same_shape. split_and!; congruence.
        * intros T [HT|(w & Hw & Hr)]%Hfl; [auto|].
          destruct (Hs1 x Hflx) as (D & HD & HDx). exists D. split; [done|].
          etrans; [exact HDx|]. eapply rtc_l; done.
        * intros T HT. apply Hfl. left. auto.
        * intros X T [HX| ->%list_elem_of_singleton]%elem_of_app HflX Hr.
          -- apply Hfl in HflX as [HflX|(w & Hw & Hr')].
             ++ apply Hfl. left. by apply (Hc1 X).
             ++ apply Hfl. right. exists w. split; [done|]. by etrans.
          -- apply rtc_inv in Hr as [->|(y & Hy & Hr)]; [done|].
             apply Hfl. right. eauto.
      + simplify_eq. split_and!; try done.
        intros X T [HX| ->%list_elem_of_singleton]%elem_of_app HflX Hr.
        * by apply (Hc1 X).
        * destruct HflX as (e' & He' & Hv'). congruence. }
  split; [done|]. intros T. split; [auto|].
  intros (D & HD & Hr). apply (Hcompl D); [|auto|done].
  destruct HD as (e & He & _). apply Hwf. by eexists.
Qed.

Lemma for_each_mono {S A} (body1 body2 : S → A → outcome S) l s s' :
  (∀ s x s', body1 s x = Done s' → body2 s x = Done s') →
  for_each body1 l s = Done s' → for_each body2 l s = Done s'.
Proof.
  intros Hb. revert s. induction l as [|x l IH]; intros s Hrun; [done|].
  cbn in *. destruct (body1 s x) as [s1| |] eqn:H1; cbn in Hrun; try done.
  rewrite (Hb _ _ _ H1). cbn. auto.
Qed.

Lemma bubble_up_fuel_mono fuel fuel' g g' :
  bubble_up fuel g = Done g' → (fuel ≤ fuel')%nat → bubble_up fuel' g = Done g'.
Proof.
  intros Hrun Hle. unfold bubble_up in *. eapply for_each_mono; [|exact Hrun].
  intros g1 x g2. cbn. destruct (dict_item g1 x) as [e| |]; cbn; try done.
  destruct (has_vla_member e); [|done]. intros. by eapply mark_loop_fuel_mono.
Qed.

(** *** Termination of the propagation on an acyclic graph *)

Section MarkTermination.

Variable A : string → gset string.
Variable K : string → Prop.
Variable rank : string → nat.
Variable bound : nat.
Hypothesis closed : ∀ X P, K X → P ∈ A X → K P ∧ (rank X < rank P)%nat.
Hypothesis bounded : ∀ X, K X → (rank X < bound)%nat.

Local Abbreviation ok := (ok_for A K).

Lemma ok_mark g t : ok g → ok (dict_alter (set_has_vla_member true) t g).
Proof.
  intros [HA HK]. pose proof (mark_step_rel t g) as Hrel. split.
  - by eapply marked_agrees.
  - intros X. rewrite <- HK. by eapply graph_rel_is_Some.
Qed.

Lemma mark_loop_nil fuel g : mark_loop fuel [] g = Done g.
Proof. by destruct fuel. Qed.

Lemma mark_list_terminates (k : nat) :
  (∀ X, K X → (bound - rank X ≤ k)%nat →
     ∃ n, ∀ m rest g, ok g →
       ∃ g', ok g' ∧ mark_loop (n + m) (X :: rest) g = mark_loop m rest g') →
  ∀ l, (∀ P, P ∈ l → K P ∧ (bound - rank P ≤ k)%nat) →
     ∃ n, ∀ m rest g, ok g →
       ∃ g', ok g' ∧ mark_loop (n + m) (l ++ rest) g = mark_loop m rest g'.
Proof.
  intros Hnode l. induction l as [|P l IH]; intros Hl.
  - exists 0%nat. intros m rest g Hok. by exists g.
  - destruct (Hnode P) as [nP HP]; [apply Hl; set_solver..|].
    destruct IH as [nl Hnl]; [intros; apply Hl; set_solver|].
    exists (nP + nl)%nat. intros m rest g Hok.
    destruct (HP (nl + m)%nat (l ++ rest) g Hok) as (g1 & Hok1 & Hrun1).
    destruct (Hnl m rest g1 Hok1) as (g2 & Hok2 & Hrun2).
    exists g2. split; [done|].
    rewrite <- Nat.add_assoc. cbn [app]. by rewrite Hrun1.
Qed.

Lemma mark_node_terminates (k : nat) :
  ∀ X, K X → (bound - rank X ≤ k)%nat →
     ∃ n, ∀ m rest g, ok g →
       ∃ g', ok g' ∧ mark_loop (n + m) (X :: rest) g = mark_loop m rest g'.
Proof.
  induction k as [|k IH]; intros X HX Hk.
  - apply bounded in HX. lia.
  - destruct (mark_list_terminates k IH (reverse (elements (A X)))) as [n Hn].
    { intros P HP. rewrite elem_of_reverse, elem_of_elements in HP.
      destruct (closed X P HX HP). split; [done|lia]. }
    exists (S n). intros m rest g Hok.
    destruct Hok as [HA HK]. pose proof HX as HX'. apply HK in HX' as [e He].
    destruct (Hn m rest (dict_alter (set_has_vla_member true) X g)) as (g' & Hok' & Hrun).
    { by apply ok_mark. }
    exists g'. split; [done|]. cbn. unfold dict_get. rewrite He.
    rewrite (HA X e He). done.
Qed.

Lemma mark_from_terminates X :
  K X → ∃ n, ∀ fuel g, (n ≤ fuel)%nat → ok g →
    ∃ g', ok g' ∧ mark_loop fuel (reverse (elements (A X))) g = Done g'.
Proof.
  intros HX.
  destruct (mark_list_terminates bound (mark_node_terminates bound)
              (reverse (elements (A X)))) as [n Hn].
  { intros P HP. rewrite elem_of_reverse, elem_of_elements in HP.
    destruct (closed X P HX HP). split; [done|lia]. }
  exists n. intros fuel g Hle Hok.
  destruct (Hn (fuel - n)%nat [] g Hok) as (g' & Hok' & Hrun).
  exists g'. split; [done|].
  rewrite app_nil_r, mark_loop_nil in Hrun.
  by replace (n + (fuel - n))%nat with fuel in Hrun by lia.
Qed.

Lemma mark_all_terminate (l : list string) :
  (∀ X, X ∈ l → K X) →
  ∃ n, ∀ X fuel g, X ∈ l → (n ≤ fuel)%nat → ok g →
    ∃ g', ok g' ∧ mark_loop fuel (reverse (elements (A X))) g = Done g'.
Proof.
  induction l as [|Y l IH]; intros Hl.
  - exists 0%nat. by intros X fuel g ?%elem_of_nil.
  - destruct (mark_from_terminates Y) as [nY HY]; [apply Hl; set_solver|].
    destruct IH as [nl Hnl]; [intros; apply Hl; set_solver|].
    exists (nY `max` nl)%nat. intros X fuel g [->|HX]%elem_of_cons Hle Hok.
    + apply HY; [lia|done].
    + apply (Hnl X); [done|lia|done].
Qed.

Lemma bubble_up_total g :
  (∀ X, X ∈ dkeys g → K X) → ok g →
  ∃ n, ∀ fuel, (n ≤ fuel)%nat → ∃ g', bubble_up fuel g = Done g'.
Proof.
  intros Hkeys Hok. destruct (mark_all_terminate (dkeys g) Hkeys) as [n Hn].
  exists n. intros fuel Hle. unfold bubble_up.
  destruct (for_each_total
    (λ g0 type_name, type_info ← dict_item g0 type_name;
       if has_vla_member type_info
       then mark_loop fuel (reverse (elements (appears_in type_info))) g0
       else Done g0)
    (λ _ g1, ok g1) (dkeys g) g) as (g' & Hrun & _); [done| |by exists g'].
  intros done x g1 Hx Hok1. pose proof Hok1 as [HA1 HK1].
  destruct (proj2 (HK1 x) (Hkeys x Hx)) as [e He].
  unfold dict_item. rewrite He. cbn.
  destruct (has_vla_member e); [|by exists g1].
  rewrite (HA1 x e He).
  destruct (Hn x fuel g1 Hx Hle Hok1) as (g2 & Hok2 & Hrun2). by exists g2.
Qed.

End MarkTermination.

Lemma agrees_appears_in_of g : agrees (appears_in_of g) g.
Proof. intros X e He. unfold appears_in_of. by rewrite He. Qed.

Lemma up_is_dep g0 g1 :
  built [] g0 → graph_rel (linked (dep g0)) g0 g1 →
  ∀ X P, up (appears_in_of g1) X P ↔ dep g0 P X.
Proof.
  intros [Hwf Hb] Hrel X P. unfold up, appears_in_of. split.
  - destruct (dtable g1 !! X) as [e1|] eqn:H1; cbn; [|set_solver].
    destruct (graph_rel_lookup _ _ _ _ _ Hrel H1) as (e0 & H0 & (_ & _ & Ha)).
    rewrite Ha. destruct (Hb X e0 H0) as [[Hemp _] _]. rewrite Hemp. set_solver.
  - intros Hd. pose proof Hd as (eP & HP & HX).
    destruct (Hb P eP HP) as [_ Hcl].
    destruct (Hcl X HX) as [[e0 H0]|?%elem_of_nil]; [|done].
    destruct (graph_rel_lookup_l _ _ _ _ _ Hrel H0) as (e1 & H1 & (_ & _ & Ha)).
    unfold dict_get in *. rewrite H1. cbn. apply Ha. by right.
Qed.

Lemma rtc_flip {X} (R : relation X) x y : rtc R x y → rtc (flip R) y x.
Proof. induction 1; [done|]. eapply rtc_r; eauto. Qed.

Lemma rtc_iff {X} (R R' : relation X) x y :
  (∀ a b, R a b ↔ R' a b) → rtc R x y ↔ rtc R' x y.
Proof. intros HR. split; apply rtc_subrel; intros a b; apply HR. Qed.

Lemma parse_phases fuel g0 g1 g :
  built [] g0 → link_reverse g0 = Done g1 → bubble_up fuel g1 = Done g →
  graph_rel (finished g0) g0 g.
Proof.
  intros Hb Hlink Hbub.
  destruct (link_reverse_spec g0 Hb) as (g1' & Hlink' & Hrel1).
  rewrite Hlink in Hlink'. simplify_eq.
  pose proof (graph_rel_wf _ _ _ Hrel1 (proj1 Hb)) as Hwf1.
  destruct (bubble_up_spec (appears_in_of g1') fuel g1' g Hwf1
              (agrees_appears_in_of g1') Hbub) as [Hrel2 Hfl].
  pose proof (up_is_dep g0 g1' Hb Hrel1) as Hup.
  split; [destruct Hrel1, Hrel2; congruence|]. intros T.
  destruct (dtable g0 !! T) as [e0|] eqn:H0; cycle 1.
  { rewrite (graph_rel_None _ _ _ T Hrel2); [constructor|].
    by apply (graph_rel_None _ _ _ T Hrel1). }
  destruct (graph_rel_lookup_l _ _ _ _ _ Hrel1 H0) as (e1 & H1 & He1).
  destruct (graph_rel_lookup_l _ _ _ _ _ Hrel2 H1) as (e & He2 & He).
  rewrite He2. constructor.
  destruct He1 as (Hs1 & Hv1 & Ha1), He as (Hs2 & Ha2).
  split_and!.
  - unfold same_shape in *. split_and!; destruct_and!; congruence.
  - intros U. rewrite Ha2, Ha1. destruct Hb as [_ Hb].
    destruct (Hb T e0 H0) as [[Hemp _] _]. rewrite Hemp. set_solver.
  - assert (has_vla_member e = true ↔ flagged g T) as ->.
    { unfold flagged. split; [eauto|]. intros (e' & ? & ?). congruence. }
    rewrite Hfl. split.
    + intros (D & (e1D & H1D & HvD) & Hr).
      destruct (graph_rel_lookup _ _ _ _ _ Hrel1 H1D)
        as (e0D & H0D & (_ & HvD' & _)).
      { destruct Hb as [_ Hb]. exists D, e0D. split_and!; [done| |].
        - destruct (Hb D e0D H0D) as [[_ Hd] _]. congruence.
        - apply rtc_flip in Hr. eapply rtc_subrel; [|exact Hr].
          intros a b Hab. by apply Hup. }
    + intros (D & e0D & H0D & HdD & Hr).
      destruct (graph_rel_lookup_l _ _ _ _ _ Hrel1 H0D)
        as (e1D & H1D & (_ & HvD' & _)).
      { exists D. split.
        - exists e1D. split; [done|]. destruct Hb as [_ Hb].
          destruct (Hb D e0D H0D) as [[_ Hd] _]. congruence.
        - apply rtc_flip in Hr. eapply rtc_subrel; [|exact Hr].
          intros a b Hab. by apply Hup. }
Qed.

Lemma has_direct_vla_members e e' : members e' = members e → has_direct_vla e' = has_direct_vla e.
Proof. unfold has_direct_vla. by intros ->. Qed.

Lemma finished_dep g0 g :
  graph_rel (finished g0) g0 g → ∀ U T, dep g U T ↔ dep g0 U T.
Proof.
  intros Hrel U T. unfold dep, dict_get. split.
  - intros (e & He & HT).
    destruct (graph_rel_lookup _ _ _ _ _ Hrel He) as (e0 & H0 & ((Hd & _) & _)).
    exists e0. split; [done|congruence].
  - intros (e0 & H0 & HT).
    destruct (graph_rel_lookup_l _ _ _ _ _ Hrel H0) as (e & He & ((Hd & _) & _)).
    exists e. split; [done|congruence].
Qed.

Lemma finished_parsed g0 g :
  built [] g0 → graph_rel (finished g0) g0 g → parsed g.
Proof.
  intros Hb Hrel. pose proof (finished_dep g0 g Hrel) as Hdep.
  destruct Hb as [Hwf Hb]. split.
  - by eapply graph_rel_wf.
  - intros U T HUT. apply Hdep in HUT as (e0 & H0 & HT).
    destruct (Hb U e0 H0) as [_ Hcl].
    destruct (Hcl T HT) as [HS|?%elem_of_nil]; [|done].
    unfold dict_get. by rewrite (graph_rel_is_Some _ _ _ T Hrel).
  - intros T e He U.
    destruct (graph_rel_lookup _ _ _ _ _ Hrel He) as (e0 & H0 & (_ & Ha & _)).
    by rewrite Ha, Hdep.
  - intros T e He.
    destruct (graph_rel_lookup _ _ _ _ _ Hrel He) as (e0 & H0 & ((_ & Hm & _) & _ & Hv)).
    rewrite Hv. split.
    + intros (D & e0D & H0D & HdD & Hr).
      destruct (graph_rel_lookup_l _ _ _ _ _ Hrel H0D) as (eD & HD & ((_ & HmD & _) & _)).
      assert (has_direct_vla eD = true) as HdD'
        by (by rewrite (has_direct_vla_members _ _ HmD)).
      apply (rtc_iff _ _ _ _ Hdep) in Hr. apply rtc_tc in Hr as [<-|Htc].
      * left. unfold dict_get in *. congruence.
      * right. by exists D, eD.
    + intros [Hd|(D & eD & Htc & HD & HdD)].
      * exists T, e0. split_and!; [done| |done].
        by rewrite <- (has_direct_vla_members _ _ Hm).
      * destruct (graph_rel_lookup _ _ _ _ _ Hrel HD) as (e0D & H0D & ((_ & HmD & _) & _)).
        exists D, e0D. split_and!; [done| |].
        -- by rewrite <- (has_direct_vla_members _ _ HmD).
        -- apply (rtc_iff _ _ _ _ Hdep). by apply tc_rtc.
Qed.

(** Every graph the parser returns is well formed. *)
Lemma parse_structs_and_unions_parsed fuel defs annotations json g :
  _parse_structs_and_unions fuel defs annotations json = Done g → parsed g.
Proof.
  unfold _parse_structs_and_unions. intros Hrun.
  destruct (parse_loop _ _ _ _ _) as [g0| |] eqn:H0; cbn in Hrun; try done.
  destruct (link_reverse g0) as [g1| |] eqn:H1; cbn in Hrun; try done.
  pose proof (parse_loop_built _ _ _ _ _ _ (built_empty _) H0) as Hb.
  eapply finished_parsed; [done|]. by eapply parse_phases.
Qed.

Lemma max_list_with_elem_of {X} (f : X → nat) (l : list X) x :
  x ∈ l → (f x ≤ max_list_with f l)%nat.
Proof.
  induction l as [|y l IH]; [by intros ?%elem_of_nil|].
  intros [->|Hx]%elem_of_cons; cbn; [lia|]. specialize (IH Hx). lia.
Qed.

(** On an acyclic graph the two later loops finish, whatever fuel the model
    is given beyond a bound. *)
Lemma parse_structs_and_unions_total defs annotations json fuel0 g0 :
  parse_loop defs annotations fuel0 (reverse (root_structs json)) dict_empty = Done g0 →
  acyclic g0 →
  ∃ n g, ∀ fuel, (n ≤ fuel)%nat →
    _parse_structs_and_unions fuel defs annotations json = Done g.
Proof.
  intros H0 [rank Hrank].
  pose proof (parse_loop_built _ _ _ _ _ _ (built_empty _) H0) as Hb.
  destruct (link_reverse_spec g0 Hb) as (g1 & Hlink & Hrel1).
  pose proof (graph_rel_wf _ _ _ Hrel1 (proj1 Hb)) as Hwf1.
  pose proof (up_is_dep g0 g1 Hb Hrel1) as Hup.
  destruct (bubble_up_total (appears_in_of g1) (λ X, is_Some (dtable g1 !! X)) rank
              (S (max_list_with rank (dkeys g1)))) with (g := g1) as [n1 Hn1].
  - intros X P HX HP. apply Hup in HP as (eP & HP & HXP). split.
    + rewrite (graph_rel_is_Some _ _ _ P Hrel1). by eexists.
    + by apply (Hrank P eP HP X).
  - intros X HX. apply Hwf1 in HX.
    pose proof (max_list_with_elem_of rank _ _ HX). lia.
  - intros X HX. by apply Hwf1.
  - split; [apply agrees_appears_in_of|done].
  - destruct (Hn1 n1) as [g Hg]; [done|].
    exists (fuel0 `max` n1)%nat, g. intros fuel Hle. unfold _parse_structs_and_unions.
    rewrite (parse_loop_fuel_mono _ _ _ fuel _ _ _ H0) by lia. cbn.
    rewrite Hlink. cbn. eapply bubble_up_fuel_mono; [done|lia].
Qed.

(** C4. Once the work-list loop has built the graph, and provided the graph
    has no dependency cycle, [_parse_structs_and_unions] returns a graph in
    which [has_vla_member] of a type [T] is true if and only if [T] has a
    member annotated [var_len_array] or a transitive dependency of [T] has
    one. *)
Theorem has_vla_member_is_fixed_point defs annotations json fuel0 g0 :
  parse_loop defs annotations fuel0 (reverse (root_structs json)) dict_empty = Done g0 →
  acyclic g0 →
  ∃ n g,
    (∀ fuel, (n ≤ fuel)%nat →
       _parse_structs_and_unions fuel defs annotations json = Done g) ∧
    vla_fixed_point g.
Proof.
  intros H0 Hacyc.
  destruct (parse_structs_and_unions_total _ _ _ _ _ H0 Hacyc) as (n & g & Hn).
  exists n, g. split; [done|].
  by destruct (parse_structs_and_unions_parsed n _ _ _ _ (Hn n (le_n n))).
Qed.

(** ** Pointer members without annotation *)

Lemma for_each_raise {S A} (body : S → A → outcome S) (P : error → Prop) l s e :
  (∀ s x e, body s x = Raise e → P e) → for_each body l s = Raise e → P e.
Proof.
  intros Hb. revert s. induction l as [|x l IH]; intros s; cbn; [done|].
  destruct (body s x) as [s1|e1|] eqn:H1; cbn; [eauto| |done].
  intros [= <-]. eauto.
Qed.

Lemma parse_loop_raise defs annotations fuel wl g e :
  parse_loop defs annotations fuel wl g = Raise e → graph_error e.
Proof.
  revert wl g. induction fuel as [|fuel IH]; intros wl g; destruct wl as [|t rest]; cbn; try done.
  destruct (dict_mem g t); [apply IH|].
  destruct (structs defs !! t) as [mems|].
  - destruct (foldl _ _ mems). apply IH.
  - destruct (unions defs !! t) as [mems|].
    + destruct (foldl _ _ mems). apply IH.
    + by intros [= <-].
Qed.

Lemma dict_item_raise {V} (d : dict V) k e : dict_item d k = Raise e → graph_error e.
Proof. unfold dict_item. destruct (dtable d !! k); [done|]. by intros [= <-]. Qed.

Lemma link_reverse_raise g e : link_reverse g = Raise e → graph_error e.
Proof.
  unfold link_reverse. apply for_each_raise. intros g1 x e1.
  destruct (dict_item g1 x) as [info|e2|] eqn:Hi; cbn; [| |done].
  - apply for_each_raise. intros g2 d e2. unfold link_one.
    destruct (dict_mem g2 d); [done|]. by intros [= <-].
  - intros [= <-]. by eapply dict_item_raise.
Qed.

Lemma mark_loop_raise fuel wl g e : mark_loop fuel wl g = Raise e → graph_error e.
Proof.
  revert wl g. induction fuel as [|fuel IH]; intros wl g; destruct wl as [|t rest]; cbn; try done.
  destruct (dict_get g t); [apply IH|]. by intros [= <-].
Qed.

Lemma bubble_up_raise fuel g e : bubble_up fuel g = Raise e → graph_error e.
Proof.
  unfold bubble_up. apply for_each_raise. intros g1 x e1.
  destruct (dict_item g1 x) as [info|e2|] eqn:Hi; cbn; [| |done].
  - destruct (has_vla_member info); [apply mark_loop_raise|done].
  - intros [= <-]. by eapply dict_item_raise.
Qed.

Lemma ApiParser_init_raise fuel defs json e :
  ApiParser_init fuel defs json = Raise e → graph_error e.
Proof.
  unfold ApiParser_init, _parse_structs_and_unions.
  destruct (parse_loop _ _ _ _ _) as [g0|e0|] eqn:H0; cbn; [| |done].
  - destruct (link_reverse g0) as [g1|e1|] eqn:H1; cbn; [| |done].
    + destruct (bubble_up fuel g1) as [g2|e2|] eqn:H2; cbn; [done| |done].
      intros [= <-]. by eapply bubble_up_raise.
    + intros [= <-]. by eapply link_reverse_raise.
  - intros [= <-]. by eapply parse_loop_raise.
Qed.

Lemma member_type_by_annotation_none annotations :
  existsb is_rewrite_type annotations = false →
  existsb is_var_len_array annotations = false →
  member_type_by_annotation false annotations = None.
Proof.
  induction annotations as [|a rest IH]; [done|]. cbn.
  unfold is_rewrite_type, is_var_len_array at 1.
  destruct (kind a); cbn; auto; done.
Qed.

Lemma get_member_type_pointer self m :
  unannotated_pointer m = true →
  _get_member_type self m false = Raise (PointerRequiresAnnotation m).
Proof.
  unfold unannotated_pointer. intros [[Hp Hr%negb_true_iff]%andb_prop Hv%negb_true_iff]%andb_prop.
  unfold _get_member_type. rewrite member_type_by_annotation_none by done.
  by rewrite Hp.
Qed.

Lemma for_each_raise_at {S A} (body : S → A → outcome S) pre x post s e :
  (∀ s, body s x = Raise e) →
  (∀ s y, y ∈ pre → ∃ s', body s y = Done s') →
  for_each body (pre ++ x :: post) s = Raise e.
Proof.
  intros Hx. revert s. induction pre as [|y pre IH]; intros s Hpre; cbn.
  - by rewrite Hx.
  - destruct (Hpre s y) as [s' Hy]; [set_solver|]. rewrite Hy. cbn.
    apply IH. intros s0 z Hz. apply Hpre. set_solver.
Qed.

Lemma for_each_raise_some {S A} (body : S → A → outcome S) pre x post s :
  (∀ s, ∃ e, body s x = Raise e) →
  (∀ s y, body s y ≠ Timeout) →
  ∃ e, for_each body (pre ++ x :: post) s = Raise e.
Proof.
  intros Hx Hnt. revert s. induction pre as [|y pre IH]; intros s; cbn.
  - destruct (Hx s) as [e He]. rewrite He. by exists e.
  - destruct (body s y) as [s'|e|] eqn:Hy; cbn; [apply IH|by exists e|].
    by destruct (Hnt s y).
Qed.

Lemma dict_item_no_timeout {V} (d : dict V) k : dict_item d k ≠ Timeout.
Proof. unfold dict_item. by destruct (dtable d !! k). Qed.

Lemma get_chpp_type_from_chre_no_timeout self chre_type :
  _get_chpp_type_from_chre self chre_type ≠ Timeout.
Proof.
  unfold _get_chpp_type_from_chre, _get_struct_or_union_prefix, struct_info_of, dict_item.
  destruct (dtable _ !! chre_type); cbn; [|done].
  destruct (first_rename_type _); [done|]. by destruct (Py.startswith _ _).
Qed.

Lemma get_member_type_no_timeout self m b : _get_member_type self m b ≠ Timeout.
Proof.
  unfold _get_member_type. destruct (member_type_by_annotation _ _); [done|].
  destruct (negb b && is_pointer _); [done|].
  destruct (m_is_nested_type m); [|done]. unfold nested_type_name.
  destruct (m_nested_type_name m); cbn; [|done]. apply get_chpp_type_from_chre_no_timeout.
Qed.

Lemma get_member_comment_no_timeout self m : _get_member_comment self m ≠ Timeout.
Proof.
  unfold _get_member_comment. induction (m_annotations m) as [|a rest IH]; cbn; [done|].
  destruct (kind a); try done.
  pose proof (get_member_type_no_timeout self m false).
  by destruct (_get_member_type self m false).
Qed.

Lemma get_member_type_suffix_no_timeout m : _get_member_type_suffix m ≠ Timeout.
Proof.
  unfold _get_member_type_suffix, _get_array_len. destruct (_is_array_type _); [|done].
  destruct (declarators _) as [|[?|[|? ?]|] ?]; done.
Qed.

(** C1, as the code has it. A member whose type has the pointer ["*"] as
    its first declarator and that carries neither [rewrite_type] nor
    [var_len_array] is not rejected while the graph is built: [ApiParser]
    never raises this error. It is rejected when the CHPP definition of the
    containing type is generated: [_get_member_type] raises the error,
    which carries the member and so names the field, hence
    [_gen_struct_or_union] fails, and with this very error when the type
    name and the members before the field resolve. The test of the code
    reads the first declarator only; a type with another first declarator
    is outside the statement. *)
Theorem unannotated_pointer_rejected_at_generation self name info pre m post :
  struct_info_of self name = Done info →
  members info = pre ++ m :: post →
  unannotated_pointer m = true →
  (∀ fuel defs json, ApiParser_init fuel defs json ≠ Raise (PointerRequiresAnnotation m)) ∧
  _get_member_type self m false = Raise (PointerRequiresAnnotation m) ∧
  (∃ e, _gen_struct_or_union self name = Raise e) ∧
  ((∃ t, _get_chpp_type_from_chre self name = Done t) →
   Forall (member_ok self) pre →
   _gen_struct_or_union self name = Raise (PointerRequiresAnnotation m)).
Proof.
  intros Hinfo Hmem Hptr.
  pose proof (get_member_type_pointer self m Hptr) as Hm.
  split_and!.
  - intros fuel defs json Hr. by apply ApiParser_init_raise in Hr.
  - done.
  - unfold _gen_struct_or_union.
    pose proof (get_chpp_type_from_chre_no_timeout self name).
    destruct (_get_chpp_type_from_chre self name) as [t|e|]; cbn; [|by exists e|done].
    rewrite Hinfo. cbn. rewrite Hmem.
    match goal with |- ∃ e, (x ← for_each ?body _ ?s; _) = _ =>
      destruct (for_each_raise_some body pre m post s) as [e He] end.
    + intros s. rewrite Hm. cbn. eauto.
    + intros s y.
      pose proof (get_member_type_no_timeout self y false).
      pose proof (get_member_type_suffix_no_timeout y).
      pose proof (get_member_comment_no_timeout self y).
      destruct (_get_member_type self y false); cbn; try done.
      destruct (_get_member_type_suffix y); cbn; try done.
      by destruct (_get_member_comment self y).
    + rewrite He. cbn. by exists e.
  - intros [t Ht] Hpre. unfold _gen_struct_or_union. rewrite Ht. cbn.
    rewrite Hinfo. cbn. rewrite Hmem.
    erewrite for_each_raise_at; [done| |].
    + intros s. by rewrite Hm.
    + intros s y Hy. rewrite Forall_forall in Hpre.
      destruct (Hpre y Hy) as ([t' ->] & [s' ->] & [c' ->]). cbn. eauto.
Qed.

Lemma has_vla_member_is_fixed_point_witness :
  parse_loop Example.defs Example.annotations 4
    (reverse (root_structs Example.json)) dict_empty = Done Example.built_graph ∧
  acyclic Example.built_graph ∧
  ∃ n g,
    (∀ fuel, (n ≤ fuel)%nat →
       _parse_structs_and_unions fuel Example.defs Example.annotations Example.json
       = Done g) ∧
    vla_fixed_point g.
Proof.
  assert (parse_loop Example.defs Example.annotations 4
            (reverse (root_structs Example.json)) dict_empty
          = Done Example.built_graph) as H0 by (vm_compute; reflexivity).
  assert (acyclic Example.built_graph) as H1.
  { exists Example.rank. refine (bool_decide_unpack _ _). vm_compute. exact I. }
  split; [exact H0|]. split; [exact H1|].
  exact (has_vla_member_is_fixed_point _ _ _ _ _ H0 H1).
Defined.

Lemma unannotated_pointer_rejected_at_generation_witness :
  struct_info_of ExamplePointer.self "chreWwanRaw" = Done ExamplePointer.info ∧
  members ExamplePointer.info = [ExamplePointer.m_n] ++ ExamplePointer.m_cookie :: [] ∧
  unannotated_pointer ExamplePointer.m_cookie = true ∧
  _gen_struct_or_union ExamplePointer.self "chreWwanRaw"
  = Raise (PointerRequiresAnnotation ExamplePointer.m_cookie).
Proof.
  assert (struct_info_of ExamplePointer.self "chreWwanRaw" = Done ExamplePointer.info)
    as H0 by (vm_compute; reflexivity).
  assert (members ExamplePointer.info
          = [ExamplePointer.m_n] ++ ExamplePointer.m_cookie :: []) as H1 by reflexivity.
  assert (unannotated_pointer ExamplePointer.m_cookie = true) as H2 by reflexivity.
  split_and!; [exact H0|exact H1|exact H2|].
  destruct (unannotated_pointer_rejected_at_generation _ _ _ _ _ _ H0 H1 H2)
    as (_ & _ & _ & Hgen).
  apply Hgen.
  - eexists. vm_compute. reflexivity.
  - repeat constructor; eexists; vm_compute; reflexivity.
Defined.

(** C1 as stated fails: the graph of a root structure with an unannotated
    pointer member is built without any error. *)
Lemma pointer_member_accepted_by_graph_build :
  ApiParser_init 4 ExamplePointer.defs ExamplePointer.json = Done ExamplePointer.parsed_api ∧
  dict_get (structs_and_unions ExamplePointer.parsed_api) "chreWwanRaw"
  = Some ExamplePointer.info ∧
  ExamplePointer.m_cookie ∈ members ExamplePointer.info ∧
  unannotated_pointer ExamplePointer.m_cookie = true.
Proof.
  split_and!.
  - vm_compute. reflexivity.
  - vm_compute. reflexivity.
  - unfold ExamplePointer.info. cbn. set_solver.
  - reflexivity.
Qed.

(** The test of [_get_member_type] reads the first declarator only: a
    pointer to a function, whose first declarator holds the arguments, is
    given the type specification as its type. *)
Lemma function_pointer_member_not_tested self :
  is_pointer (m_type m_callback) = false ∧
  _get_member_type self m_callback false = Done "void".
Proof. split; reflexivity. Qed.

(** ** The topological sort *)

(** C5 fails on the code when a root structure is also a dependency of
    another one: roots are neither looked up in nor added to [visited], so
    [chreWwanB] is emitted twice, the second time after [chreWwanA], which
    depends on it. *)
Theorem sorted_structs_repeats_nested_root :
  _sorted_structs ExampleRoots.self 4 (root_structs ExampleRoots.json)
  = Done ["chreWwanB"; "chreWwanA"; "chreWwanB"].
Proof. vm_compute. reflexivity. Qed.


(** ** The emitted text and its syntax tree *)

Local Arguments String.append !_ _ / : simpl nomatch.

Lemma str_app_assoc (a b c : string) : (a +:+ b) +:+ c = a +:+ (b +:+ c).
Proof. induction a as [|x a IH]; simpl; [done|]. by f_equal. Qed.

Lemma str_app_nil_r (a : string) : a +:+ "" = a.
Proof. induction a as [|x a IH]; simpl; [done|]. by f_equal. Qed.

Lemma join_app (l1 l2 : list string) : Py.join (l1 ++ l2) = Py.join l1 +:+ Py.join l2.
Proof.
  induction l1 as [|s l1 IH]; simpl; [done|]. by rewrite IH, str_app_assoc.
Qed.

Lemma render_block_app (l1 l2 : list stmt) :
  render_block (l1 ++ l2) = render_block l1 +:+ render_block l2.
Proof.
  induction l1 as [|s l1 IH]; [done|].
  change (render_stmt s +:+ render_block (l1 ++ l2)
          = (render_stmt s +:+ render_block l1) +:+ render_block l2).
  by rewrite IH, str_app_assoc.
Qed.

Lemma outcome_rel_refl {A} (o : outcome A) : outcome_rel eq o o.
Proof. by destruct o. Qed.

Lemma for_each_rel {S T A} (R : S → T → Prop)
    (body1 : S → A → outcome S) (body2 : T → A → outcome T) l s t :
  (∀ s t x, R s t → outcome_rel R (body1 s x) (body2 t x)) →
  R s t → outcome_rel R (for_each body1 l s) (for_each body2 l t).
Proof.
  intros Hb. revert s t. induction l as [|x l IH]; intros s t HR; cbn; [done|].
  specialize (Hb s t x HR).
  destruct (body1 s x), (body2 t x); cbn in *; try done. by apply IH.
Qed.

(** Run the monadic steps whose result is known. *)
Ltac obind := cbn [mbind outcome_bind outcome_rel]; try done.
Ltac obind_in H := cbn [mbind outcome_bind outcome_rel] in H; try done.

(** Bring both sides to right-nested appends and compare. *)
Ltac str_norm :=
  repeat (progress (rewrite ?str_app_assoc, ?str_app_nil_r; simpl)).

Lemma member_sizeof_call_render self m :
  outcome_rel (λ s e, s = render_expr e)
    (_get_chpp_member_sizeof_call self m) (member_sizeof_call_ast self m).
Proof.
  unfold _get_chpp_member_sizeof_call, member_sizeof_call_ast.
  destruct (m_is_nested_type m); [|done].
  destruct (nested_type_name m) as [n| |]; cbn; try done.
  destruct (struct_info_of self n) as [info| |]; cbn; try done.
  destruct (has_vla_member info).
  - destruct (_get_chpp_sizeof_function_name self n); cbn; done.
  - destruct (_get_chpp_type_from_chre self n); cbn; done.
Qed.

Lemma sizeof_call_render self chre_type :
  outcome_rel (λ s e, s = render_expr e)
    (_get_chpp_sizeof_call self chre_type) (sizeof_call_ast self chre_type).
Proof.
  unfold _get_chpp_sizeof_call, sizeof_call_ast.
  destruct (struct_info_of self chre_type) as [info| |]; cbn; try done.
  destruct (has_vla_member info).
  - destruct (_get_chpp_sizeof_function_name self chre_type); cbn; done.
  - destruct (_get_chpp_type_from_chre self chre_type); cbn; done.
Qed.

Lemma assignment_statement_render self ind m in_vla_loop containing_field_name :
  outcome_rel (λ s st, ind +:+ s = render_stmt st)
    (_get_assignment_statement_for_field self m in_vla_loop containing_field_name)
    (assignment_statement_ast self ind m in_vla_loop containing_field_name).
Proof.
  unfold _get_assignment_statement_for_field, assignment_statement_ast.
  destruct (m_is_nested_type m).
  - destruct (nested_type_name m) as [n| |]; cbn; try done.
    destruct (struct_info_of self n) as [info| |]; cbn; try done.
    destruct (_get_encoding_function_name self n) as [fn| |]; cbn; try done.
    destruct (has_vla_member info); cbn; by str_norm.
  - destruct (_is_array_type (m_type m)); cbn; done.
Qed.

Lemma vla_encoding_render self m a :
  outcome_rel (λ out code, Py.join out = render_block code)
    (_gen_vla_encoding self m a) (vla_encoding_ast self m a).
Proof.
  unfold _gen_vla_encoding, vla_encoding_ast.
  destruct (_get_member_type self m true) as [chpp_type| |]; cbn; try done.
  destruct (length_field_of a) as [length_field| |]; cbn; try done.
  pose proof (member_sizeof_call_render self m) as Hsz.
  destruct (_get_chpp_member_sizeof_call self m) as [sz| |],
           (member_sizeof_call_ast self m) as [sze| |]; cbn in *; try done.
  pose proof (assignment_statement_render self "      " m true None) as Hcopy.
  destruct (_get_assignment_statement_for_field self m true None) as [copy| |],
           (assignment_statement_ast self "      " m true None) as [copye| |];
    cbn in *; try done.
  subst sz. unfold vla_code, render_block, vla_length, vla_offset, vla_fits.
  cbn [render_stmt render_expr]. rewrite <- Hcopy.
  change (@pretty Z pretty_Z 0%Z) with "0".
  by str_norm.
Qed.

Lemma render_switch ind scrutinee cases default_ :
  render_stmt (SSwitch ind scrutinee cases default_)
  = ind +:+ "switch (" +:+ render_expr scrutinee +:+ ") {" +:+ nl
    +:+ render_cases ind cases
    +:+ ind +:+ "  default:" +:+ nl
    +:+ render_block default_
    +:+ ind +:+ "}" +:+ nl.
Proof. reflexivity. Qed.

Lemma render_cases_app ind (c1 c2 : list (string * list stmt)) :
  render_cases ind (c1 ++ c2) = render_cases ind c1 +:+ render_cases ind c2.
Proof.
  induction c1 as [|[label body] c1 IH]; [done|].
  change (ind +:+ "  case " +:+ label +:+ ":" +:+ nl +:+ render_block body
          +:+ ind +:+ "    break;" +:+ nl +:+ render_cases ind (c1 ++ c2)
          = (ind +:+ "  case " +:+ label +:+ ":" +:+ nl +:+ render_block body
             +:+ ind +:+ "    break;" +:+ nl +:+ render_cases ind c1)
            +:+ render_cases ind c2).
  rewrite IH. by rewrite !str_app_assoc.
Qed.

Lemma union_variant_render self m a :
  outcome_rel (λ out code, Py.join out = render_block code)
    (_gen_union_variant_conversion_code self m a) (union_variant_ast self m a).
Proof.
  unfold _gen_union_variant_conversion_code, union_variant_ast.
  destruct (nested_type_name m) as [chre_type| |]; obind.
  destruct (struct_info_of self chre_type) as [info| |]; obind.
  destruct (discriminator_of a) as [discriminator| |]; obind.
  destruct (mapping_of a) as [mapping| |]; obind.
  set (prefix := ["  memset(&out->" +:+ m_name m +:+ ", 0, sizeof(out->" +:+ m_name m
                  +:+ "));" +:+ nl]
                 ++ ["  switch (in->" +:+ discriminator +:+ ") {" +:+ nl]).
  pose (R := λ (out : list string) (cases : list (string * list stmt)),
    Py.join out = Py.join prefix +:+ render_cases "  " cases).
  assert (outcome_rel R
            (for_each (union_case self m chre_type info) mapping prefix)
            (for_each (union_case_ast self m chre_type info) mapping [])) as Hloop.
  { apply for_each_rel.
    - intros out cases [value field_name] HR. unfold union_case, union_case_ast.
      destruct (find_member (members info) field_name) as [nm|]; [|done].
      pose proof (assignment_statement_render self "      " nm false (Some (m_name m)))
        as Hcopy.
      destruct (_get_assignment_statement_for_field self nm false (Some (m_name m)))
        as [copy| |],
        (assignment_statement_ast self "      " nm false (Some (m_name m)))
        as [copye| |]; obind_in Hcopy; obind.
      unfold R in *. rewrite !join_app, HR, render_cases_app. clear HR.
      rewrite !str_app_assoc. f_equal. f_equal.
      unfold render_cases, render_block. rewrite <- Hcopy. by str_norm.
    - unfold R. simpl. by str_norm. }
  destruct (for_each (union_case self m chre_type info) mapping prefix) as [out| |],
           (for_each (union_case_ast self m chre_type info) mapping []) as [cases| |];
    obind_in Hloop; obind.
  unfold R in Hloop. rewrite join_app, Hloop. unfold union_code.
  change (render_block [SMemset "  " (m_name m) "0";
                        SSwitch "  " (EIn "in" discriminator) cases
                          [SAssert "      " EFalse]])
    with (render_stmt (SMemset "  " (m_name m) "0")
          +:+ render_stmt (SSwitch "  " (EIn "in" discriminator) cases
                             [SAssert "      " EFalse]) +:+ "").
  rewrite render_switch. unfold prefix, render_block.
  cbn [render_stmt render_expr]. generalize (render_cases "  " cases). intros s.
  by str_norm.
Qed.

Lemma sizeof_annotation_render self chre_type parameter_name m header out body a :
  Py.join out = header +:+ render_block body →
  outcome_rel (λ out body, Py.join out = header +:+ render_block body)
    (sizeof_annotation self chre_type parameter_name m out a)
    (sizeof_annotation_ast self chre_type parameter_name m body a).
Proof.
  intros HR. unfold sizeof_annotation, sizeof_annotation_ast.
  destruct (kind a); try done.
  destruct (nested_with_vla self m) as [[|]| |]; obind.
  destruct (_get_member_type self m true) as [t| |]; obind.
  rewrite join_app, render_block_app, HR. unfold render_block.
  cbn [render_stmt render_expr Py.join]. by str_norm.
Qed.

Lemma sizeof_function_render self chre_type :
  outcome_rel (λ out f, match f with
                        | None => out = []
                        | Some f => Py.join out = render_fun f
                        end)
    (_gen_chpp_sizeof_function self chre_type) (sizeof_function_ast self chre_type).
Proof.
  unfold _gen_chpp_sizeof_function, sizeof_function_ast.
  destruct (struct_info_of self chre_type) as [info| |] eqn:Hinfo; obind.
  destruct (negb (has_vla_member info)); [done|].
  destruct (_strip_prefix_and_service_from_chre_struct_name self chre_type)
    as [core| |]; obind.
  destruct (lower_first core) as [parameter_name| |]; obind.
  destruct (_get_chpp_type_from_chre self chre_type) as [chpp_type_name| |]; obind.
  destruct (_get_chpp_sizeof_function_name self chre_type) as [fn| |]; obind.
  destruct (_get_struct_or_union_prefix self chre_type) as [prefix| |]; obind.
  match goal with
  | |- outcome_rel _ (for_each ?b1 _ ?s ≫= _)
                     (for_each ?b2 _ ?t ≫= λ body, Done (Some (CFun ?h _ _))) =>
      assert (outcome_rel (λ out body, Py.join out = h +:+ render_block body)
                (for_each b1 (members info) s) (for_each b2 (members info) t)) as Hloop
  end.
  { apply for_each_rel.
    - intros out0 body0 x HR. apply for_each_rel; [|done].
      intros out1 body1 a HR1. by apply sizeof_annotation_render.
    - unfold render_block. cbn [render_stmt render_expr Py.join app]. by str_norm. }
  match type of Hloop with
  | outcome_rel _ ?o1 ?o2 =>
      destruct o1 as [out| |], o2 as [body| |]; obind_in Hloop; obind
  end.
  unfold render_fun. cbn [f_header f_body f_footer].
  rewrite join_app, render_block_app, Hloop.
  unfold render_block. cbn [render_stmt render_expr Py.join]. by str_norm.
Qed.

Lemma render_if ind cond then_ :
  render_stmt (SIf ind cond then_)
  = ind +:+ "if (" +:+ render_expr cond +:+ ") {" +:+ nl
    +:+ render_block then_ +:+ ind +:+ "}" +:+ nl.
Proof. reflexivity. Qed.

Lemma encode_allocation_function_render self chre_type :
  outcome_rel (λ out f, Py.join out = render_fun f)
    (_gen_encode_allocation_function self chre_type)
    (encode_allocation_function_ast self chre_type).
Proof.
  unfold _gen_encode_allocation_function, encode_allocation_function_ast.
  destruct (_gen_encode_allocation_function_signature self chre_type false)
    as [signature| |]; obind.
  pose proof (sizeof_call_render self chre_type) as Hsz.
  destruct (_get_chpp_sizeof_call self chre_type) as [sz| |],
           (sizeof_call_ast self chre_type) as [sze| |]; obind_in Hsz; obind.
  subst sz.
  destruct (_get_chpp_type_from_chre self chre_type) as [chpp_type| |]; obind.
  destruct (struct_info_of self chre_type) as [info| |]; obind.
  destruct (_get_encoding_function_name self chre_type) as [fn| |];
    destruct (has_vla_member info); obind.
  - unfold render_fun, allocation_body. cbn [f_header f_body f_footer]. rewrite !join_app.
    change (render_block (?a :: ?b :: ?c :: ?d :: ?e :: SIf ?i ?cnd ?t :: ?f :: []))
      with (render_stmt a +:+ render_stmt b +:+ render_stmt c +:+ render_stmt d
            +:+ render_stmt e +:+ render_stmt (SIf i cnd t) +:+ render_stmt f +:+ "").
    rewrite render_if. unfold render_block.
    cbn [render_stmt render_expr render_args Py.join app]. by str_norm.
  - unfold render_fun, allocation_body. cbn [f_header f_body f_footer]. rewrite !join_app.
    change (render_block (?a :: ?b :: ?c :: ?d :: ?e :: SIf ?i ?cnd ?t :: ?f :: []))
      with (render_stmt a +:+ render_stmt b +:+ render_stmt c +:+ render_stmt d
            +:+ render_stmt e +:+ render_stmt (SIf i cnd t) +:+ render_stmt f +:+ "").
    rewrite render_if. unfold render_block.
    cbn [render_stmt render_expr render_args Py.join app]. by str_norm.
Qed.

(** ** The run of the generated code *)

Section ExecFacts.

Variable env : cenv.

Lemma exec_block_cons s l st :
  exec_block env (s :: l) st
  = match exec_stmt env s st with
    | Normal st' => exec_block env l st'
    | r => r
    end.
Proof. reflexivity. Qed.

Lemma exec_SIfElse ind cond then_ else_ st :
  exec_stmt env (SIfElse ind cond then_ else_) st
  = match eval env st cond with
    | Some v => if (v =? 0)%Z then exec_block env else_ st else exec_block env then_ st
    | None => Fault
    end.
Proof. reflexivity. Qed.

Lemma exec_SIf ind cond then_ st :
  exec_stmt env (SIf ind cond then_) st
  = match eval env st cond with
    | Some v => if (v =? 0)%Z then Normal st else exec_block env then_ st
    | None => Fault
    end.
Proof. reflexivity. Qed.

Lemma exec_SFor ind bound body st :
  exec_stmt env (SFor ind bound body) st
  = match eval env st bound with
    | Some n => exec_loop env body (Z.to_nat n) 0%Z st
    | None => Fault
    end.
Proof. reflexivity. Qed.

Lemma exec_SSwitch ind scrutinee cases default_ st :
  exec_stmt env (SSwitch ind scrutinee cases default_) st
  = match eval env st scrutinee with
    | Some v => exec_select env v default_ st cases
    | None => Fault
    end.
Proof. reflexivity. Qed.

Lemma exec_leaf s st :
  is_leaf s →
  exec_stmt env s st
  = Normal (CState (vars st) (cells st) (out_fields st)
                   (trace st ++ leaf_event s (vars st !! "i"))).
Proof. by destruct s. Qed.

Lemma exec_loop_leaf copy k i st :
  is_leaf copy →
  exec_loop env [copy] k i st
  = Normal (CState (delete "i" (vars st)) (cells st) (out_fields st)
                   (trace st ++ loop_events copy k i)).
Proof.
  intros Hleaf. revert i st. induction k as [|k IH]; intros i st.
  - cbn. by rewrite app_nil_r.
  - change (exec_loop env [copy] (S k) i st)
      with (match exec_block env [copy] (set_var st "i" i) with
            | Normal st' => exec_loop env [copy] k (i + 1)%Z st'
            | r => r
            end).
    cbn [loop_events]. rewrite exec_block_cons, (exec_leaf _ _ Hleaf).
    cbn [exec_block]. rewrite IH. cbn. rewrite lookup_insert_eq, delete_insert_eq.
    by rewrite app_assoc.
Qed.

End ExecFacts.

Lemma vla_keys_ne name : name +:+ ".offset" ≠ name +:+ ".length".
Proof. intros H. apply (inj (String.app name)) in H. discriminate. Qed.

Lemma eval_deref env st p :
  vars st !! p ≠ Some 0%Z → eval env st (EDeref p) = cells st !! p.
Proof. intros Hp. cbn. by rewrite bool_decide_eq_false_2. Qed.

Lemma eval_EAdd env st a b :
  eval env st (EAdd a b) = (x ← eval env st a; y ← eval env st b; Some (x + y)%Z).
Proof. reflexivity. Qed.

Lemma eval_ELe env st a b :
  eval env st (ELe a b)
  = (x ← eval env st a; y ← eval env st b; Some (Z_of_bool (x <=? y)%Z)).
Proof. reflexivity. Qed.

(** The run of the code of an array member, in full *)
Lemma exec_vla_code env name chpp_type lf sze copy st cur cap sz :
  (∀ st, eval env st sze = Some sz) → is_leaf copy → vla_ready st cur cap →
  let len := (in_field env lf * sz)%Z in
  let st2 := set_out st (name +:+ ".length") len in
  exec_block env (vla_code name chpp_type lf sze copy) st
  = if (cur + len <=? cap)%Z then
      if (len >? 0)%Z then
        Normal (CState (delete "i" (vars st))
                       (<["vlaOffset" := (cur + len)%Z]> (cells st))
                       (<[name +:+ ".offset" := cur]> (out_fields st2))
                       (trace st ++ loop_events copy (Z.to_nat (in_field env lf)) 0))
      else Normal (set_out st2 (name +:+ ".offset") 0)
    else if asserts_fatal env then Aborted st2
         else Normal (set_out st2 (name +:+ ".offset") 0).
Proof.
  intros Hsz Hleaf (Hcur & Hptr & Hcap) len st2. unfold vla_code.
  assert (eval env st (EAddrIndex "payload" (EDeref "vlaOffset")) = Some cur) as E1.
  { change (eval env st (EDeref "vlaOffset") = Some cur). by rewrite eval_deref. }
  rewrite exec_block_cons. cbn [exec_stmt]. rewrite E1.
  assert (eval env st (EMul (EIn "in" lf) sze) = Some len) as E2.
  { cbn [eval]. rewrite Hsz. done. }
  rewrite exec_block_cons. unfold vla_length at 1. cbn [exec_stmt store]. rewrite E2.
  fold st2.
  assert (eval env st2 (vla_length name) = Some len) as E3.
  { unfold vla_length, st2. cbn. apply lookup_insert_eq. }
  assert (eval env st2 (vla_fits name) = Some (Z_of_bool (cur + len <=? cap)%Z)) as E4.
  { unfold vla_fits. rewrite eval_ELe, eval_EAdd, E3.
    change (eval env st2 (EDeref "vlaOffset")) with (eval env st (EDeref "vlaOffset")).
    rewrite eval_deref by done. rewrite Hcur. cbn. by rewrite Hcap. }
  rewrite exec_block_cons. cbn [exec_stmt]. rewrite E4. unfold chpp_assert.
  assert (eval env st2 (EAnd (EGt (vla_length name) (EInt 0)) (vla_fits name))
          = Some (Z_of_bool ((len >? 0)%Z && (cur + len <=? cap)%Z))) as E5.
  { cbn [eval]. rewrite E3, E4. cbn.
    destruct (len >? 0)%Z, (cur + len <=? cap)%Z; done. }
  assert (exec_block env [SAssign "    " (vla_offset name) (EInt 0)] st2
          = Normal (set_out st2 (name +:+ ".offset") 0)) as Eelse by reflexivity.
  destruct (cur + len <=? cap)%Z eqn:Hfit; cbn [Z_of_bool Z.eqb].
  - rewrite exec_block_cons, exec_SIfElse, E5.
    destruct (len >? 0)%Z eqn:Hpos; cbn [andb Z_of_bool Z.eqb].
    + rewrite exec_block_cons. unfold vla_offset at 1. cbn [exec_stmt store].
      change (eval env st2 (EDeref "vlaOffset")) with (eval env st (EDeref "vlaOffset")).
      rewrite eval_deref by done. rewrite Hcur.
      set (st3 := set_out st2 (name +:+ ".offset") cur).
      assert (eval env st3 (vla_length name) = Some len) as E6.
      { unfold vla_length, st3, st2. cbn.
        rewrite lookup_insert_ne by apply vla_keys_ne. apply lookup_insert_eq. }
      rewrite exec_block_cons. cbn [exec_stmt].
      change (eval env st3 (EDeref "vlaOffset")) with (eval env st (EDeref "vlaOffset")).
      rewrite eval_deref by done. rewrite Hcur, E6. cbn [store].
      change (vars st3) with (vars st). rewrite bool_decide_eq_false_2 by done.
      rewrite exec_block_cons, exec_SFor. cbn [eval].
      rewrite exec_loop_leaf by done. reflexivity.
    + by rewrite Eelse.
  - destruct (asserts_fatal env); [done|].
    rewrite exec_block_cons, exec_SIfElse, E5. rewrite andb_false_r. cbn [Z_of_bool Z.eqb].
    by rewrite Eelse.
Qed.

Lemma vla_encoding_ast_inv self m a code :
  vla_encoding_ast self m a = Done code →
  ∃ chpp_type lf sze copy,
    length_field_of a = Done lf ∧
    member_sizeof_call_ast self m = Done sze ∧
    assignment_statement_ast self "      " m true None = Done copy ∧
    code = vla_code (m_name m) chpp_type lf sze copy.
Proof.
  unfold vla_encoding_ast.
  destruct (_get_member_type self m true) as [chpp_type| |]; obind.
  destruct (length_field_of a) as [lf| |]; obind.
  destruct (member_sizeof_call_ast self m) as [sze| |]; obind.
  destruct (assignment_statement_ast self "      " m true None) as [copy| |]; obind.
  intros [= <-]. by exists chpp_type, lf, sze, copy.
Qed.

Lemma member_sizeof_call_eval self m sze :
  member_sizeof_call_ast self m = Done sze →
  ∀ env st, eval env st sze = Some (element_size env sze).
Proof.
  unfold member_sizeof_call_ast. destruct (m_is_nested_type m).
  - destruct (nested_type_name m) as [n| |]; obind.
    destruct (struct_info_of self n) as [info| |]; obind.
    destruct (has_vla_member info).
    + destruct (_get_chpp_sizeof_function_name self n); obind. by intros [= <-].
    + destruct (_get_chpp_type_from_chre self n); obind. by intros [= <-].
  - by intros [= <-].
Qed.

Lemma assignment_statement_leaf self ind m in_vla_loop containing s :
  assignment_statement_ast self ind m in_vla_loop containing = Done s → is_leaf s.
Proof.
  unfold assignment_statement_ast. destruct (m_is_nested_type m).
  - destruct (nested_type_name m) as [n| |]; obind.
    destruct (struct_info_of self n) as [info| |]; obind.
    destruct (_get_encoding_function_name self n); obind. by intros [= <-].
  - destruct (_is_array_type (m_type m)); by intros [= <-].
Qed.

Lemma length_field_of_kind a lf : kind a = var_len_array lf → length_field_of a = Done lf.
Proof. unfold length_field_of. by intros ->. Qed.



(** C2, as the code has it. When the cursor plus the computed byte length
    exceeds the payload capacity, the generated code first meets
    [CHPP_ASSERT], which aborts where assertions are fatal. Where they are
    not, the code goes on through the [else] branch: the offset of the
    descriptor is set to zero, its length keeps the computed value (which is
    not zero when the cursor was within the payload), the cursor does not
    move and no element is copied. The code is the text that
    [_gen_vla_encoding] returns, read as the statements it prints; the
    cursor and the byte length are values of the 16-bit fields that hold
    them. *)
Theorem vla_overflow_asserts_or_keeps_length self m a lf text env st cur cap :
  _gen_vla_encoding self m a = Done text →
  kind a = var_len_array lf →
  vla_ready st cur cap →
  fits_uint16 cur →
  fits_uint16 (vla_byte_length self env m a) →
  (cap < cur + vla_byte_length self env m a)%Z →
  ∃ code,
    vla_encoding_ast self m a = Done code ∧
    Py.join text = render_block code ∧
    (asserts_fatal env = true → ∃ st', exec_block env code st = Aborted st') ∧
    (asserts_fatal env = false →
     ∃ st', exec_block env code st = Normal st' ∧
            desc_offset st' (m_name m) = Some 0%Z ∧
            desc_length st' (m_name m) = Some (vla_byte_length self env m a) ∧
            cursor st' = Some cur ∧
            trace st' = trace st) ∧
    ((cur ≤ cap)%Z → vla_byte_length self env m a ≠ 0%Z).
Proof.
  intros Htext Hkind Hready _ _.
  pose proof (vla_encoding_render self m a) as Hrender. rewrite Htext in Hrender.
  destruct (vla_encoding_ast self m a) as [code| |] eqn:Hgen; obind_in Hrender.
  intros Hover. exists code. split; [done|]. split; [done|]. revert Hover.
  apply vla_encoding_ast_inv in Hgen as (chpp_type & lf' & sze & copy & Hlf & Hsze & Hcopy & ->).
  rewrite (length_field_of_kind _ _ Hkind) in Hlf. simplify_eq.
  pose proof (member_sizeof_call_eval _ _ _ Hsze env) as Hsz.
  pose proof (assignment_statement_leaf _ _ _ _ _ _ Hcopy) as Hleaf.
  rewrite (exec_vla_code env _ _ _ _ _ _ _ _ _ Hsz Hleaf Hready).
  unfold vla_byte_length. rewrite (length_field_of_kind _ _ Hkind), Hsze.
  set (len := (in_field env lf' * element_size env sze)%Z). intros Hover.
  assert ((cur + len <=? cap)%Z = false) as -> by lia.
  split_and!.
  - intros ->. eauto.
  - intros ->. eexists. split; [done|].
    unfold desc_length, desc_offset, cursor. cbn. split_and!.
    + apply lookup_insert_eq.
    + rewrite lookup_insert_ne by apply vla_keys_ne. apply lookup_insert_eq.
    + by destruct Hready.
    + done.
  - lia.
Qed.

Lemma vla_overflow_asserts_or_keeps_length_witness :
  _gen_vla_encoding ExampleWwan.self ExampleWwan.m_cells ExampleWwan.a_cells
  = Done WwanText.cells_text ∧
  kind ExampleWwan.a_cells = var_len_array "cellInfoCount" ∧
  vla_ready (ExampleWwan.start 10) 8 10 ∧
  (10 < 8 + vla_byte_length ExampleWwan.self (ExampleWwan.env 3 false)
              ExampleWwan.m_cells ExampleWwan.a_cells)%Z ∧
  ∃ code,
    vla_encoding_ast ExampleWwan.self ExampleWwan.m_cells ExampleWwan.a_cells = Done code ∧
    Py.join WwanText.cells_text = render_block code ∧
    ∃ st', exec_block (ExampleWwan.env 3 false) code (ExampleWwan.start 10) = Normal st' ∧
           desc_offset st' "cells" = Some 0%Z ∧
           desc_length st' "cells"
           = Some (vla_byte_length ExampleWwan.self (ExampleWwan.env 3 false)
                     ExampleWwan.m_cells ExampleWwan.a_cells) ∧
           cursor st' = Some 8%Z ∧
           trace st' = [].
Proof.
  assert (_gen_vla_encoding ExampleWwan.self ExampleWwan.m_cells ExampleWwan.a_cells
          = Done WwanText.cells_text) as H0 by (vm_compute; reflexivity).
  assert (kind ExampleWwan.a_cells = var_len_array "cellInfoCount") as H1 by reflexivity.
  assert (vla_ready (ExampleWwan.start 10) 8 10) as H2.
  { unfold vla_ready, ExampleWwan.start. cbn. split_and!; [done| |done].
    by rewrite lookup_insert_ne. }
  assert (10 < 8 + vla_byte_length ExampleWwan.self (ExampleWwan.env 3 false)
                     ExampleWwan.m_cells ExampleWwan.a_cells)%Z as H3
    by (vm_compute; reflexivity).
  assert (fits_uint16 8) as H4 by (unfold fits_uint16; lia).
  assert (fits_uint16 (vla_byte_length ExampleWwan.self (ExampleWwan.env 3 false)
                         ExampleWwan.m_cells ExampleWwan.a_cells)) as H5
    by (vm_compute; split; discriminate).
  split_and!; [exact H0|exact H1|exact H2|exact H3|].
  destruct (vla_overflow_asserts_or_keeps_length _ _ _ _ _ (ExampleWwan.env 3 false) _ _ _
              H0 H1 H2 H4 H5 H3) as (code & Hast & Hrender & _ & Hoff & _).
  exists code. split; [exact Hast|]. split; [exact Hrender|].
  by apply Hoff.
Defined.

(** C2 as stated fails: with the cursor at 8, room for 10 bytes and three
    elements of 4 bytes, the descriptor keeps the length 12 where
    assertions are not fatal, and the run aborts where they are. The code
    run is the one that [_gen_vla_encoding] prints for the member. *)
Lemma vla_overflow_neither_zero_length_nor_silent :
  _gen_vla_encoding ExampleWwan.self ExampleWwan.m_cells ExampleWwan.a_cells
  = Done WwanText.cells_text ∧
  Py.join WwanText.cells_text = render_block ExampleWwan.cells_code ∧
  (∃ st', exec_block (ExampleWwan.env 3 false) ExampleWwan.cells_code
            (ExampleWwan.start 10) = Normal st' ∧
          desc_length st' "cells" = Some 12%Z ∧
          desc_offset st' "cells" = Some 0%Z) ∧
  (∃ st', exec_block (ExampleWwan.env 3 true) ExampleWwan.cells_code
            (ExampleWwan.start 10) = Aborted st').
Proof.
  split; [vm_compute; reflexivity|]. split; [vm_compute; reflexivity|]. split.
  - eexists. split_and!; [vm_compute; reflexivity|vm_compute; reflexivity..].
  - eexists. vm_compute. reflexivity.
Qed.

(** With room enough, three elements of 4 bytes are copied behind the
    cursor, and the descriptor holds their length and the old cursor. *)
Lemma vla_three_cells_encoded :
  ∃ st', exec_block (ExampleWwan.env 3 true) ExampleWwan.cells_code
           (ExampleWwan.start 20) = Normal st' ∧
         desc_length st' "cells" = Some 12%Z ∧
         desc_offset st' "cells" = Some 8%Z ∧
         cursor st' = Some 20%Z ∧
         trace st'
         = [EvCall "chppWwanConvertCellInfoFromChre" ["&in->cells[i]"; "&cells[i]"] (Some 0%Z);
            EvCall "chppWwanConvertCellInfoFromChre" ["&in->cells[i]"; "&cells[i]"] (Some 1%Z);
            EvCall "chppWwanConvertCellInfoFromChre" ["&in->cells[i]"; "&cells[i]"] (Some 2%Z)].
Proof. eexists. split_and!; vm_compute; reflexivity. Qed.

Lemma sizeof_call_eval self chre_type sze :
  sizeof_call_ast self chre_type = Done sze →
  ∀ env st, eval env st sze = Some (element_size env sze).
Proof.
  unfold sizeof_call_ast.
  destruct (struct_info_of self chre_type) as [info| |]; obind.
  destruct (has_vla_member info).
  - destruct (_get_chpp_sizeof_function_name self chre_type); obind. by intros [= <-].
  - destruct (_get_chpp_type_from_chre self chre_type); obind. by intros [= <-].
Qed.

Lemma encode_allocation_function_ast_inv self chre_type f :
  encode_allocation_function_ast self chre_type = Done f →
  ∃ sze decls fn has_vla,
    sizeof_call_ast self chre_type = Done sze ∧
    f_body f = allocation_body sze decls fn has_vla.
Proof.
  unfold encode_allocation_function_ast.
  destruct (_gen_encode_allocation_function_signature self chre_type false); obind.
  destruct (sizeof_call_ast self chre_type) as [sze| |]; obind.
  destruct (_get_chpp_type_from_chre self chre_type) as [t| |]; obind.
  destruct (struct_info_of self chre_type) as [info| |]; obind.
  destruct (has_vla_member info); obind;
    destruct (_get_encoding_function_name self chre_type) as [fn| |]; obind;
    intros [= <-]; eauto 10.
Qed.

Lemma chpp_assert_nonzero env st v : v ≠ 0%Z → chpp_assert env st v = Normal st.
Proof. intros Hv. unfold chpp_assert. by rewrite (proj2 (Z.eqb_neq v 0) Hv). Qed.

(** The run of the entry point when [chppMalloc] returns a null pointer *)
Lemma exec_allocation_body_failure env sze decls fn has_vla st sz :
  (∀ st, eval env st sze = Some sz) →
  alloc_ready st → call_val env "chppMalloc" = 0%Z →
  exec_block env (allocation_body sze decls fn has_vla) st
  = Returned 0 (set_cell (set_var st "payloadSize" sz) "out" 0).
Proof.
  intros Hsz [(p & Hp & Hp0) (q & Hq & Hq0)] Hmalloc. unfold allocation_body.
  rewrite exec_block_cons. cbn [exec_stmt].
  rewrite Hp, (chpp_assert_nonzero _ _ _ Hp0). cbv beta iota.
  rewrite exec_block_cons. cbn [exec_stmt].
  rewrite Hq, (chpp_assert_nonzero _ _ _ Hq0). cbv beta iota.
  rewrite exec_block_cons. cbn [exec_stmt].
  rewrite exec_block_cons. cbn [exec_stmt]. rewrite Hsz.
  set (st1 := set_var st "payloadSize" sz).
  assert (vars st1 !! "out" ≠ Some 0%Z) as Hout1.
  { unfold st1. cbn. rewrite lookup_insert_ne by done. rewrite Hp. congruence. }
  rewrite exec_block_cons. cbn [exec_stmt eval store]. rewrite Hmalloc.
  rewrite bool_decide_eq_false_2 by done.
  set (st2 := set_cell st1 "out" 0).
  rewrite exec_block_cons, exec_SIf.
  assert (eval env st2 (ENe (EDeref "out") ENull) = Some 0%Z) as ->.
  { cbn [eval]. change (vars st2) with (vars st1).
    rewrite bool_decide_eq_false_2 by done. unfold st2. cbn.
    by rewrite lookup_insert_eq. }
  cbn [Z.eqb]. reflexivity.
Qed.

(** C3, as the code has it. When the allocation fails, the entry point
    returns false, has written nothing through [outSize] and has called no
    encoder, but it has stored the null pointer returned by [chppMalloc]
    into [*out]. The entry point is the text that
    [_gen_encode_allocation_function] returns, read as the function it
    prints. *)
Theorem allocation_failure_returns_false self chre_type text env st :
  _gen_encode_allocation_function self chre_type = Done text →
  alloc_ready st →
  call_val env "chppMalloc" = 0%Z →
  ∃ f st',
    encode_allocation_function_ast self chre_type = Done f ∧
    Py.join text = render_fun f ∧
    exec_block env (f_body f) st = Returned 0 st' ∧
    cells st' !! "outSize" = cells st !! "outSize" ∧
    cells st' !! "out" = Some 0%Z ∧
    out_fields st' = out_fields st ∧
    trace st' = trace st.
Proof.
  intros Htext Hready Hfail.
  pose proof (encode_allocation_function_render self chre_type) as Hrender.
  rewrite Htext in Hrender.
  destruct (encode_allocation_function_ast self chre_type) as [f| |] eqn:Hgen;
    obind_in Hrender.
  apply encode_allocation_function_ast_inv in Hgen as (sze & decls & fn & hv & Hsze & Hbody).
  pose proof (sizeof_call_eval _ _ _ Hsze env) as Hsz.
  exists f. eexists. split; [done|]. split; [done|]. rewrite Hbody.
  rewrite (exec_allocation_body_failure env _ _ _ _ _ _ Hsz Hready Hfail).
  split; [done|]. cbn. split_and!; try done.
  - by rewrite lookup_insert_ne.
  - apply lookup_insert_eq.
Qed.

Lemma allocation_failure_returns_false_witness :
  _gen_encode_allocation_function ExampleWwan.self "chreWwanCellInfoResult"
  = Done WwanText.alloc_text ∧
  alloc_ready ExampleWwan.alloc_start ∧
  call_val (ExampleWwan.alloc_env 0) "chppMalloc" = 0%Z ∧
  ∃ f st',
    encode_allocation_function_ast ExampleWwan.self "chreWwanCellInfoResult" = Done f ∧
    Py.join WwanText.alloc_text = render_fun f ∧
    exec_block (ExampleWwan.alloc_env 0) (f_body f) ExampleWwan.alloc_start
    = Returned 0 st' ∧
    cells st' !! "outSize" = cells ExampleWwan.alloc_start !! "outSize" ∧
    cells st' !! "out" = Some 0%Z ∧
    out_fields st' = out_fields ExampleWwan.alloc_start ∧
    trace st' = trace ExampleWwan.alloc_start.
Proof.
  assert (_gen_encode_allocation_function ExampleWwan.self "chreWwanCellInfoResult"
          = Done WwanText.alloc_text) as H0 by (vm_compute; reflexivity).
  assert (alloc_ready ExampleWwan.alloc_start) as H1.
  { split; eexists; (split; [vm_compute; reflexivity|done]). }
  assert (call_val (ExampleWwan.alloc_env 0) "chppMalloc" = 0%Z) as H2 by reflexivity.
  split_and!; [exact H0|exact H1|exact H2|].
  exact (allocation_failure_returns_false _ _ _ _ _ H0 H1 H2).
Defined.

(** C3 as stated fails: [*out] held 4096 before the call and holds the null
    pointer after the failed allocation. The function run is the one that
    [_gen_encode_allocation_function] prints for the root structure. *)
Lemma allocation_failure_overwrites_out :
  _gen_encode_allocation_function ExampleWwan.self "chreWwanCellInfoResult"
  = Done WwanText.alloc_text ∧
  Py.join WwanText.alloc_text = render_fun ExampleWwan.alloc_fun ∧
  cells ExampleWwan.alloc_start !! "out" = Some 4096%Z ∧
  ∃ st', exec_block (ExampleWwan.alloc_env 0) (f_body ExampleWwan.alloc_fun)
           ExampleWwan.alloc_start = Returned 0 st' ∧
         cells st' !! "out" = Some 0%Z.
Proof.
  split; [vm_compute; reflexivity|]. split; [vm_compute; reflexivity|].
  split; [vm_compute; reflexivity|].
  eexists. split; vm_compute; reflexivity.
Qed.

(** When the allocation succeeds the encoder is called and the size is
    reported. *)
Lemma allocation_success_example :
  ∃ st', exec_block (ExampleWwan.alloc_env 5000) (f_body ExampleWwan.alloc_fun)
           ExampleWwan.alloc_start = Returned 1 st' ∧
         cells st' !! "out" = Some 5000%Z ∧
         cells st' !! "outSize" = Some 20%Z ∧
         trace st'
         = [EvCall "chppWwanConvertCellInfoResultFromChre"
              ["in"; "*out"; "payload"; "payloadSize"; "&vlaOffset"] None].
Proof. eexists. split_and!; vm_compute; reflexivity. Qed.

(** ** The encoded size *)

Lemma exec_block_app env l1 l2 st :
  exec_block env (l1 ++ l2) st
  = match exec_block env l1 st with
    | Normal st' => exec_block env l2 st'
    | r => r
    end.
Proof.
  revert st. induction l1 as [|s l1 IH]; intros st; [done|].
  rewrite <- app_comm_cons, !exec_block_cons.
  by destruct (exec_stmt env s st).
Qed.

(** The statements that an annotation list adds to the size function, and
    what they add to [encodedSize] *)
Lemma sizeof_annotations_exec self chre_type p m env annotations body0 body :
  for_each (sizeof_annotation_ast self chre_type p m) annotations body0 = Done body →
  ∃ adds, body = body0 ++ adds ∧
    ∀ st acc, vars st !! "encodedSize" = Some acc →
      ∃ st', exec_block env adds st = Normal st' ∧
             vars st' !! "encodedSize"
             = Some (acc + foldr (λ a acc, annotation_vla_size self env m a + acc) 0
                                 annotations)%Z.
Proof.
  revert body0. induction annotations as [|a rest IH]; intros body0 Hrun.
  - cbn in Hrun. simplify_eq. exists []. rewrite app_nil_r. split; [done|].
    intros st acc Hacc. exists st. cbn. by rewrite Z.add_0_r.
  - cbn [for_each] in Hrun.
    destruct (sizeof_annotation_ast self chre_type p m body0 a) as [body1| |] eqn:Ha;
      obind_in Hrun.
    destruct (IH _ Hrun) as (adds & -> & Hadds).
    unfold sizeof_annotation_ast in Ha. cbn [foldr]. unfold annotation_vla_size at 1.
    destruct (kind a) as [| | |lf| | |]; simplify_eq;
      try (exists adds; split; [done|]; intros st acc Hacc;
           destruct (Hadds st acc Hacc) as (st' & Hrun' & Hacc'); exists st';
           split; [done|]; rewrite Hacc'; f_equal; lia).
    destruct (nested_with_vla self m) as [[|]| |]; obind_in Ha.
    destruct (_get_member_type self m true) as [t| |]; obind_in Ha. simplify_eq.
    exists (SAddAssign "  " (EVar "encodedSize") (EMul (EIn p lf) (ESizeof t)) :: adds).
    split; [by rewrite <- app_assoc|].
    intros st acc Hacc. rewrite exec_block_cons. cbn [exec_stmt eval store]. rewrite Hacc.
    cbn [mbind option_bind].
    destruct (Hadds (set_var st "encodedSize" (acc + in_field env lf * sizeof_val env t))
                (acc + in_field env lf * sizeof_val env t)%Z) as (st' & Hrun' & Hacc').
    { cbn. apply lookup_insert_eq. }
    exists st'. split; [done|]. rewrite Hacc'. f_equal. lia.
Qed.

Lemma sizeof_members_exec self chre_type p env members body0 body :
  for_each (λ body m, for_each (sizeof_annotation_ast self chre_type p m)
                               (m_annotations m) body) members body0 = Done body →
  ∃ adds, body = body0 ++ adds ∧
    ∀ st acc, vars st !! "encodedSize" = Some acc →
      ∃ st', exec_block env adds st = Normal st' ∧
             vars st' !! "encodedSize" = Some (acc + vla_payload_size self env members)%Z.
Proof.
  revert body0. induction members as [|m rest IH]; intros body0 Hrun.
  - cbn in Hrun. simplify_eq. exists []. rewrite app_nil_r. split; [done|].
    intros st acc Hacc. exists st. cbn. by rewrite Z.add_0_r.
  - cbn [for_each] in Hrun.
    destruct (for_each (sizeof_annotation_ast self chre_type p m) (m_annotations m) body0)
      as [body1| |] eqn:Hm; obind_in Hrun.
    destruct (sizeof_annotations_exec _ _ _ _ env _ _ _ Hm) as (adds1 & -> & Hadds1).
    destruct (IH _ Hrun) as (adds2 & -> & Hadds2).
    exists (adds1 ++ adds2). split; [by rewrite app_assoc|].
    intros st acc Hacc. rewrite exec_block_app.
    destruct (Hadds1 st acc Hacc) as (st1 & -> & Hacc1).
    destruct (Hadds2 st1 _ Hacc1) as (st2 & Hrun2 & Hacc2).
    exists st2. split; [done|]. rewrite Hacc2. f_equal.
    unfold vla_payload_size, member_vla_size. cbn [foldr]. lia.
Qed.

Lemma sizeof_function_ast_inv self chre_type info f :
  struct_info_of self chre_type = Done info →
  sizeof_function_ast self chre_type = Done (Some f) →
  ∃ p chpp_type fn body,
    _get_chpp_type_from_chre self chre_type = Done chpp_type ∧
    _get_chpp_sizeof_function_name self chre_type = Done fn ∧
    for_each (λ body m, for_each (sizeof_annotation_ast self chre_type p m)
                                 (m_annotations m) body)
             (members info) [SDecl "  " "size_t" "encodedSize" (ESizeof chpp_type)]
    = Done body ∧
    f_body f = body ++ [SReturn "  " (EVar "encodedSize")].
Proof.
  intros Hinfo. unfold sizeof_function_ast. rewrite Hinfo. obind.
  destruct (negb (has_vla_member info)); [done|].
  destruct (_strip_prefix_and_service_from_chre_struct_name self chre_type); obind.
  destruct (lower_first _) as [p| |]; obind.
  destruct (_get_chpp_type_from_chre self chre_type) as [chpp_type| |]; obind.
  destruct (_get_chpp_sizeof_function_name self chre_type) as [fn| |]; obind.
  destruct (_get_struct_or_union_prefix self chre_type); obind.
  destruct (for_each _ (members info) _) as [body| |] eqn:Hbody; obind.
  intros [= <-]. by exists p, chpp_type, fn, body.
Qed.

Lemma sizeof_function_ast_some self chre_type info o :
  struct_info_of self chre_type = Done info →
  has_vla_member info = true →
  sizeof_function_ast self chre_type = Done o →
  ∃ f, o = Some f.
Proof.
  intros Hinfo Hv. unfold sizeof_function_ast. rewrite Hinfo. obind. rewrite Hv. cbn [negb].
  destruct (_strip_prefix_and_service_from_chre_struct_name self chre_type); obind.
  destruct (lower_first _); obind.
  destruct (_get_chpp_type_from_chre self chre_type); obind.
  destruct (_get_chpp_sizeof_function_name self chre_type); obind.
  destruct (_get_struct_or_union_prefix self chre_type); obind.
  destruct (for_each _ (members info) _); obind.
  intros [= <-]. eauto.
Qed.

(** C6. For a type without variable-length member no size function is
    generated and the size is [sizeof] of the CHPP structure; for a type
    with variable-length members the generated size function returns this
    static size plus, for each member annotated [var_len_array], the value
    of its length field times the size of its element type. The size
    function is the text that [_gen_chpp_sizeof_function] returns, read as
    the function it prints, and the size call the text of
    [_get_chpp_sizeof_call]; the sizes are in the range where the sum on the
    integers is the sum computed in [size_t]. *)
Theorem encoded_size_is_static_plus_arrays self chre_type info chpp_type env st :
  struct_info_of self chre_type = Done info →
  _get_chpp_type_from_chre self chre_type = Done chpp_type →
  (has_vla_member info = false →
     _gen_chpp_sizeof_function self chre_type = Done [] ∧
     _get_chpp_sizeof_call self chre_type = Done ("sizeof(" +:+ chpp_type +:+ ")") ∧
     ∃ e, sizeof_call_ast self chre_type = Done e ∧
          _get_chpp_sizeof_call self chre_type = Done (render_expr e) ∧
          eval env st e = Some (sizeof_val env chpp_type)) ∧
  (has_vla_member info = true →
     ∀ text, _gen_chpp_sizeof_function self chre_type = Done text →
       sizes_in_range self env chpp_type (members info) →
       ∃ f fn st',
         sizeof_function_ast self chre_type = Done (Some f) ∧
         Py.join text = render_fun f ∧
         _get_chpp_sizeof_function_name self chre_type = Done fn ∧
         _get_chpp_sizeof_call self chre_type = Done (fn +:+ "(in)") ∧
         exec_block env (f_body f) st
         = Returned (sizeof_val env chpp_type
                     + vla_payload_size self env (members info)) st').
Proof.
  intros Hinfo Htype. split.
  - intros Hv. unfold _gen_chpp_sizeof_function, _get_chpp_sizeof_call, sizeof_call_ast.
    rewrite Hinfo. obind. rewrite Hv. cbn [negb]. rewrite Htype. obind.
    split_and!; [done|done|]. by exists (ESizeof chpp_type).
  - intros Hv text Htext _.
    pose proof (sizeof_function_render self chre_type) as Hrender.
    rewrite Htext in Hrender.
    destruct (sizeof_function_ast self chre_type) as [o| |] eqn:Hf; obind_in Hrender.
    destruct (sizeof_function_ast_some _ _ _ _ Hinfo Hv Hf) as [f ->].
    destruct (sizeof_function_ast_inv _ _ _ _ Hinfo Hf)
      as (p & chpp_type' & fn & body & Htype' & Hfn & Hbody & Hfb).
    rewrite Htype in Htype'. simplify_eq.
    destruct (sizeof_members_exec _ _ _ env _ _ _ Hbody) as (adds & -> & Hadds).
    destruct (Hadds (set_var st "encodedSize" (sizeof_val env chpp_type'))
                (sizeof_val env chpp_type')) as (st' & Hrun & Hacc).
    { cbn. apply lookup_insert_eq. }
    exists f, fn, st'. split_and!; [done|done|done| |].
    + unfold _get_chpp_sizeof_call. rewrite Hinfo. obind. rewrite Hv, Hfn. obind.
    + rewrite Hfb, !exec_block_app. cbn [exec_block exec_stmt eval].
      rewrite Hrun. by rewrite Hacc.
Qed.

Lemma encoded_size_is_static_plus_arrays_witness :
  struct_info_of ExampleWwan.self "chreWwanCellInfoResult" = Done ExampleWwan.result_info ∧
  _get_chpp_type_from_chre ExampleWwan.self "chreWwanCellInfoResult"
  = Done "struct ChppWwanCellInfoResult" ∧
  has_vla_member ExampleWwan.result_info = true ∧
  _gen_chpp_sizeof_function ExampleWwan.self "chreWwanCellInfoResult"
  = Done WwanText.size_text ∧
  ∃ f fn st',
    sizeof_function_ast ExampleWwan.self "chreWwanCellInfoResult" = Done (Some f) ∧
    Py.join WwanText.size_text = render_fun f ∧
    _get_chpp_sizeof_function_name ExampleWwan.self "chreWwanCellInfoResult" = Done fn ∧
    _get_chpp_sizeof_call ExampleWwan.self "chreWwanCellInfoResult" = Done (fn +:+ "(in)") ∧
    exec_block (ExampleWwan.env 3 true) (f_body f) (ExampleWwan.start 0)
    = Returned (sizeof_val (ExampleWwan.env 3 true) "struct ChppWwanCellInfoResult"
                + vla_payload_size ExampleWwan.self (ExampleWwan.env 3 true)
                    (members ExampleWwan.result_info)) st'.
Proof.
  assert (struct_info_of ExampleWwan.self "chreWwanCellInfoResult"
          = Done ExampleWwan.result_info) as H0 by (vm_compute; reflexivity).
  assert (_get_chpp_type_from_chre ExampleWwan.self "chreWwanCellInfoResult"
          = Done "struct ChppWwanCellInfoResult") as H1 by (vm_compute; reflexivity).
  assert (has_vla_member ExampleWwan.result_info = true) as H2 by reflexivity.
  assert (_gen_chpp_sizeof_function ExampleWwan.self "chreWwanCellInfoResult"
          = Done WwanText.size_text) as H3 by (vm_compute; reflexivity).
  assert (sizes_in_range ExampleWwan.self (ExampleWwan.env 3 true)
            "struct ChppWwanCellInfoResult" (members ExampleWwan.result_info)) as H4.
  { split; [vm_compute; discriminate|]. split; [|vm_compute; split; discriminate].
    repeat (apply List.Forall_cons;
      [repeat (apply List.Forall_cons; [vm_compute; discriminate|]); apply List.Forall_nil|]).
    apply List.Forall_nil. }
  split_and!; [exact H0|exact H1|exact H2|exact H3|].
  destruct (encoded_size_is_static_plus_arrays _ _ _ _ (ExampleWwan.env 3 true)
              (ExampleWwan.start 0) H0 H1) as [_ Hvla].
  exact (Hvla H2 _ H3 H4).
Defined.

(** Three cells of 4 bytes behind a structure of 4 bytes: 16 bytes. *)
Lemma encoded_size_example :
  ∃ st', exec_block (ExampleWwan.env 3 true) (f_body ExampleWwan.size_fun)
           (ExampleWwan.start 0) = Returned 16 st'.
Proof. eexists. vm_compute. reflexivity. Qed.

(** ** Nested variable-length arrays *)

Lemma find_split {A} (f : A → bool) (l : list A) x :
  find f l = Some x →
  ∃ pre post, l = pre ++ x :: post ∧ f x = true ∧ Forall (λ y, f y = false) pre.
Proof.
  induction l as [|y l IH]; [done|]. cbn. destruct (f y) eqn:Hy.
  - intros [= ->]. exists [], l. split_and!; [done|done|constructor].
  - intros Hfind. destruct (IH Hfind) as (pre & post & -> & Hx & Hpre).
    exists (y :: pre), post. split_and!; [done|done|by constructor].
Qed.

Lemma find_none_Forall {A} (f : A → bool) (l : list A) :
  find f l = None → Forall (λ y, f y = false) l.
Proof.
  induction l as [|y l IH]; [constructor|]. cbn. destruct (f y) eqn:Hy; [done|].
  intros Hfind. constructor; auto.
Qed.

Lemma from_parser_parsed a : from_parser a → parsed (structs_and_unions a).
Proof.
  intros (fuel & defs & Hinit). unfold ApiParser_init in Hinit.
  destruct (_parse_structs_and_unions fuel defs _ (api_json a)) as [g| |] eqn:Hg;
    obind_in Hinit.
  cbn in Hinit. injection Hinit as Ha. rewrite <- Ha. cbn.
  eapply parse_structs_and_unions_parsed. exact Hg.
Qed.

Lemma existsb_false_Forall {A} (f : A → bool) (l : list A) :
  existsb f l = false → Forall (λ x, f x = false) l.
Proof.
  induction l as [|x l IH]; [constructor|]. cbn. intros [? ?]%orb_false_elim.
  constructor; auto.
Qed.

(** The annotations of a member that need no element size or whose element
    type has no variable-length member add their line, if any. *)
Lemma sizeof_annotations_done self chre_type p m annotations out :
  (existsb is_var_len_array annotations = true →
   (∃ t, _get_member_type self m true = Done t) ∧ nested_with_vla self m = Done false) →
  ∃ out', for_each (sizeof_annotation self chre_type p m) annotations out = Done out'.
Proof.
  revert out. induction annotations as [|a rest IH]; intros out Hok; [by exists out|].
  cbn [for_each]. cbn [existsb] in Hok.
  destruct (is_var_len_array a) eqn:Hv.
  - destruct Hok as [[t Ht] Hn]; [done|].
    assert (∃ line, sizeof_annotation self chre_type p m out a = Done (out ++ [line]))
      as [line ->].
    { unfold sizeof_annotation. unfold is_var_len_array in Hv.
      destruct (kind a); try done. rewrite Hn. obind. rewrite Ht. obind. eauto. }
    obind. apply IH. intros _. split; [by exists t|done].
  - assert (sizeof_annotation self chre_type p m out a = Done out) as ->.
    { unfold sizeof_annotation. unfold is_var_len_array in Hv. by destruct (kind a). }
    obind. apply IH. intros Hr. apply Hok. by rewrite Hr.
Qed.

(** The first [var_len_array] annotation of a member whose element type has
    a variable-length member raises the error. *)
Lemma sizeof_annotations_raise self chre_type p m annotations out :
  existsb is_var_len_array annotations = true →
  nested_with_vla self m = Done true →
  for_each (sizeof_annotation self chre_type p m) annotations out
  = Raise (NestedVlaUnsupported (m_name m) chre_type).
Proof.
  intros Hex Hn. revert out. induction annotations as [|a rest IH]; intros out; [done|].
  cbn [for_each]. cbn [existsb] in Hex.
  destruct (is_var_len_array a) eqn:Hv.
  - assert (sizeof_annotation self chre_type p m out a
            = Raise (NestedVlaUnsupported (m_name m) chre_type)) as ->; [|done].
    unfold sizeof_annotation. unfold is_var_len_array in Hv.
    destruct (kind a); try done. rewrite Hn. obind.
  - assert (sizeof_annotation self chre_type p m out a = Done out) as ->.
    { unfold sizeof_annotation. unfold is_var_len_array in Hv. by destruct (kind a). }
    obind. by apply IH.
Qed.

Lemma for_each_done {S A} (body : S → A → outcome S) l s :
  Forall (λ x, ∀ s, ∃ s', body s x = Done s') l → ∃ s', for_each body l s = Done s'.
Proof.
  intros Hl. revert s. induction Hl as [|x l Hx Hl IH]; intros s; [by exists s|].
  cbn. destruct (Hx s) as [s1 ->]. cbn. apply IH.
Qed.

Lemma dict_item_Done {V} (d : dict V) k v : dict_item d k = Done v ↔ dict_get d k = Some v.
Proof.
  unfold dict_item, dict_get. destruct (dtable d !! k); split; intros; simplify_eq; done.
Qed.

Lemma from_parser_flag self chre_type info :
  from_parser (api self) → struct_info_of self chre_type = Done info →
  has_direct_vla info = true → has_vla_member info = true.
Proof.
  intros Hp%from_parser_parsed Hinfo%dict_item_Done Hd.
  apply (parsed_flag _ Hp chre_type info Hinfo). by left.
Qed.

Lemma nested_vla_member_true self m :
  nested_vla_member self m = true →
  has_vla_annotation (m_annotations m) = true ∧ nested_with_vla self m = Done true.
Proof.
  unfold nested_vla_member. intros [Ha Hn]%andb_prop. split; [done|].
  destruct (nested_with_vla self m) as [[|]| |]; done.
Qed.

(** The loop over the members in [_gen_chpp_sizeof_function], on a member
    that is no nested variable-length array *)
Lemma sizeof_member_done self chre_type info p m out :
  sizeof_names_resolve self chre_type info → m ∈ members info →
  nested_vla_member self m = false →
  ∃ out', for_each (sizeof_annotation self chre_type p m) (m_annotations m) out = Done out'.
Proof.
  intros [_ Hres] Hm Hno. apply sizeof_annotations_done. intros Hex.
  rewrite Forall_forall in Hres. destruct (Hres m Hm Hex) as [Ht [b Hb]].
  split; [done|]. unfold nested_vla_member in Hno.
  unfold has_vla_annotation in Hno. rewrite Hex, Hb in Hno. cbn in Hno. by subst.
Qed.

(** C7. The generation of the size function of a type fails with the
    error for nested variable-length arrays, naming the member and the
    type, exactly when a member annotated [var_len_array] has an element
    type that is itself variable-length (the first such member is named);
    otherwise the generation goes through. The names involved are assumed
    to follow the naming convention, whose errors are another matter. *)
Theorem nested_vla_rejected_exactly self chre_type info :
  from_parser (api self) →
  struct_info_of self chre_type = Done info →
  sizeof_names_resolve self chre_type info →
  (∀ m, find (nested_vla_member self) (members info) = Some m →
        _gen_chpp_sizeof_function self chre_type
        = Raise (NestedVlaUnsupported (m_name m) chre_type)) ∧
  (find (nested_vla_member self) (members info) = None →
   ∃ out, _gen_chpp_sizeof_function self chre_type = Done out).
Proof.
  intros Hparser Hinfo Hres.
  assert (has_vla_member info = true →
          ∃ p out0,
            _gen_chpp_sizeof_function self chre_type
            = (out ← for_each (λ out m, for_each (sizeof_annotation self chre_type p m)
                                          (m_annotations m) out) (members info) out0;
               Done (out ++ ["  return encodedSize;" +:+ nl +:+ "}" +:+ nl +:+ nl])))
    as Hunfold.
  { intros Hv. destruct Hres as [Hnames _].
    destruct (Hnames Hv) as (core & p & t & Hcore & Hp & Ht).
    unfold _gen_chpp_sizeof_function, _get_chpp_sizeof_function_name,
      _get_struct_or_union_prefix.
    rewrite Hinfo. obind. rewrite Hv. cbn [negb]. rewrite Hcore. obind.
    rewrite Hp. obind. rewrite Ht. obind. eauto. }
  split.
  - intros m Hfind. apply find_split in Hfind as (pre & post & Hmem & Hm & Hpre).
    apply nested_vla_member_true in Hm as [Hann Hnested].
    assert (has_vla_member info = true) as Hv.
    { apply (from_parser_flag self chre_type); [done..|].
      unfold has_direct_vla. rewrite Hmem, existsb_app. cbn. rewrite Hann.
      by rewrite orb_true_r. }
    destruct (Hunfold Hv) as (p & out0 & ->). rewrite Hmem.
    erewrite for_each_raise_at; [done| |].
    + intros out. by apply sizeof_annotations_raise.
    + intros out y Hy. eapply sizeof_member_done; [done| |].
      * rewrite Hmem. set_solver.
      * rewrite Forall_forall in Hpre. auto.
  - intros Hfind. apply find_none_Forall in Hfind.
    destruct (has_vla_member info) eqn:Hv.
    + destruct (Hunfold eq_refl) as (p & out0 & ->).
      destruct (for_each_done
                  (λ out m, for_each (sizeof_annotation self chre_type p m)
                              (m_annotations m) out) (members info) out0) as [out ->].
      * rewrite Forall_forall in Hfind. apply Forall_forall. intros m Hm out.
        eapply sizeof_member_done; eauto.
      * obind. eauto.
    + unfold _gen_chpp_sizeof_function. rewrite Hinfo. obind. rewrite Hv. eauto.
Qed.

Lemma nested_vla_rejected_exactly_witness :
  from_parser (api ExampleNested.self) ∧
  struct_info_of ExampleNested.self "chreWwanOuter" = Done ExampleNested.outer_info ∧
  sizeof_names_resolve ExampleNested.self "chreWwanOuter" ExampleNested.outer_info ∧
  find (nested_vla_member ExampleNested.self) (members ExampleNested.outer_info)
  = Some ExampleNested.m_items ∧
  _gen_chpp_sizeof_function ExampleNested.self "chreWwanOuter"
  = Raise (NestedVlaUnsupported "items" "chreWwanOuter").
Proof.
  assert (from_parser (api ExampleNested.self)) as H0.
  { exists 6%nat, ExampleNested.defs. vm_compute. reflexivity. }
  assert (struct_info_of ExampleNested.self "chreWwanOuter"
          = Done ExampleNested.outer_info) as H1 by (vm_compute; reflexivity).
  assert (sizeof_names_resolve ExampleNested.self "chreWwanOuter"
            ExampleNested.outer_info) as H2.
  { split.
    - intros _. do 3 eexists. split_and!; vm_compute; reflexivity.
    - constructor; [|constructor; [|constructor]];
        intros _; split; eexists; vm_compute; reflexivity. }
  assert (find (nested_vla_member ExampleNested.self) (members ExampleNested.outer_info)
          = Some ExampleNested.m_items) as H3 by (vm_compute; reflexivity).
  split_and!; [exact H0|exact H1|exact H2|exact H3|].
  destruct (nested_vla_rejected_exactly _ _ _ H0 H1 H2) as [Hraise _].
  exact (Hraise _ H3).
Defined.

(** The size function of the cell info result, whose elements have no
    variable-length member, is generated. *)
Lemma sizeof_function_generated_example :
  ∃ out, _gen_chpp_sizeof_function ExampleWwan.self "chreWwanCellInfoResult" = Done out.
Proof. eexists. vm_compute. reflexivity. Qed.

(** ** Union variants *)

Lemma strip_prefix_no_timeout self struct :
  _strip_prefix_and_service_from_chre_struct_name self struct ≠ Timeout.
Proof.
  unfold _strip_prefix_and_service_from_chre_struct_name.
  destruct (service_name self); [done|]. by destruct (_ || _).
Qed.

Lemma assignment_statement_no_timeout self m in_vla_loop containing :
  _get_assignment_statement_for_field self m in_vla_loop containing ≠ Timeout.
Proof.
  unfold _get_assignment_statement_for_field. destruct (m_is_nested_type m).
  - unfold nested_type_name. destruct (m_nested_type_name m) as [n|]; obind.
    pose proof (dict_item_no_timeout (structs_and_unions (api self)) n) as Hd.
    unfold struct_info_of. destruct (dict_item _ n); obind.
    unfold _get_encoding_function_name.
    pose proof (strip_prefix_no_timeout self n).
    by destruct (_strip_prefix_and_service_from_chre_struct_name self n).
  - by destruct (_is_array_type _).
Qed.

Lemma union_case_no_timeout self m chre_type info out c :
  union_case self m chre_type info out c ≠ Timeout.
Proof.
  destruct c as [value field_name]. unfold union_case.
  destruct (find_member (members info) field_name) as [nm|]; [|done].
  pose proof (assignment_statement_no_timeout self nm false (Some (m_name m))).
  by destruct (_get_assignment_statement_for_field self nm false (Some (m_name m))).
Qed.

(** A mapping entry that names a member adds its case to the text. *)
Lemma union_case_done self m chre_type info out c :
  union_case_ok self m info c → ∃ out', union_case self m chre_type info out c = Done out'.
Proof.
  destruct c as [value field_name]. intros (nm & copy & Hfind & Hcopy). cbn in Hfind.
  unfold union_case. rewrite Hfind.
  pose proof (assignment_statement_render self "      " nm false (Some (m_name m))) as Hr.
  rewrite Hcopy in Hr.
  destruct (_get_assignment_statement_for_field self nm false (Some (m_name m)));
    obind_in Hr. obind. eauto.
Qed.

Lemma union_case_missing self m chre_type info out value field_name :
  find_member (members info) field_name = None →
  union_case self m chre_type info out (value, field_name)
  = Raise (InvalidMapping field_name chre_type).
Proof. intros Hfind. unfold union_case. by rewrite Hfind. Qed.

Lemma discriminator_of_kind a disc mapping :
  kind a = union_variant disc mapping → discriminator_of a = Done disc.
Proof. unfold discriminator_of. by intros ->. Qed.

Lemma mapping_of_kind a disc mapping :
  kind a = union_variant disc mapping → mapping_of a = Done mapping.
Proof. unfold mapping_of. by intros ->. Qed.

(** C9. When the mapping of a [union_variant] annotation names a field
    that is not a member of the union, the generator fails: it never returns
    code, and the error is the one for an invalid mapping, naming the
    missing field and the union type, when the entries before it name
    members whose assignment can be generated. *)
Theorem union_variant_missing_field_rejected self m a chre_type info disc mapping
    pre value field_name post :
  nested_type_name m = Done chre_type →
  struct_info_of self chre_type = Done info →
  kind a = union_variant disc mapping →
  mapping = pre ++ (value, field_name) :: post →
  find_member (members info) field_name = None →
  (∃ e, _gen_union_variant_conversion_code self m a = Raise e) ∧
  (Forall (union_case_ok self m info) pre →
   _gen_union_variant_conversion_code self m a
   = Raise (InvalidMapping field_name chre_type)).
Proof.
  intros Hnested Hinfo Hkind Hmap Hmiss. unfold _gen_union_variant_conversion_code.
  rewrite Hnested. obind. rewrite Hinfo. obind.
  rewrite (discriminator_of_kind _ _ _ Hkind). obind.
  rewrite (mapping_of_kind _ _ _ Hkind). obind. rewrite Hmap. split.
  - match goal with |- ∃ e, (for_each ?body _ ?s ≫= _) = _ =>
      destruct (for_each_raise_some body pre (value, field_name) post s) as [e He] end.
    + intros s. rewrite union_case_missing by done. eauto.
    + intros s y. apply union_case_no_timeout.
    + rewrite He. obind. eauto.
  - intros Hpre. erewrite for_each_raise_at; [done| |].
    + intros s. by apply union_case_missing.
    + intros s y Hy. rewrite Forall_forall in Hpre. apply union_case_done. auto.
Qed.

Lemma union_variant_missing_field_rejected_witness :
  nested_type_name ExampleWwan.m_CellInfo = Done "chreWwanCellInfoPerRat" ∧
  struct_info_of ExampleWwan.self "chreWwanCellInfoPerRat" = Done ExampleWwan.union_info ∧
  kind ExampleWwan.a_bad
  = union_variant "cellInfoType" ([("1", "gsm")] ++ ("2", "nope") :: []) ∧
  find_member (members ExampleWwan.union_info) "nope" = None ∧
  _gen_union_variant_conversion_code ExampleWwan.self ExampleWwan.m_CellInfo
    ExampleWwan.a_bad
  = Raise (InvalidMapping "nope" "chreWwanCellInfoPerRat").
Proof.
  assert (nested_type_name ExampleWwan.m_CellInfo = Done "chreWwanCellInfoPerRat")
    as H0 by reflexivity.
  assert (struct_info_of ExampleWwan.self "chreWwanCellInfoPerRat"
          = Done ExampleWwan.union_info) as H1 by (vm_compute; reflexivity).
  assert (kind ExampleWwan.a_bad
          = union_variant "cellInfoType" ([("1", "gsm")] ++ ("2", "nope") :: []))
    as H2 by reflexivity.
  assert (find_member (members ExampleWwan.union_info) "nope" = None)
    as H3 by (vm_compute; reflexivity).
  split_and!; [exact H0|exact H1|exact H2|exact H3|].
  destruct (union_variant_missing_field_rejected _ _ _ _ _ _ _ _ _ _ _
              H0 H1 H2 eq_refl H3) as [_ Hraise].
  apply Hraise. constructor; [|constructor].
  do 2 eexists. split; vm_compute; reflexivity.
Defined.

(** The cases that the generator builds for a mapping whose entries all
    name members *)
Lemma union_cases_spec self m chre_type info mapping cases0 :
  Forall (union_case_ok self m info) mapping →
  ∃ cases,
    for_each (union_case_ast self m chre_type info) mapping cases0 = Done (cases0 ++ cases) ∧
    Forall2 (case_of self m info) mapping cases.
Proof.
  intros Hok. revert cases0. induction Hok as [|[value fld] mapping Hc Hok IH]; intros cases0.
  - exists []. rewrite app_nil_r. split; [done|constructor].
  - destruct Hc as (nm & copy & Hfind & Hcopy). cbn in Hfind.
    cbn [for_each].
    assert (union_case_ast self m chre_type info cases0 (value, fld)
            = Done (cases0 ++ [(value, [copy])])) as ->.
    { unfold union_case_ast. rewrite Hfind, Hcopy. obind. }
    obind.
    destruct (IH (cases0 ++ [(value, [copy])])) as (cases & -> & Hcases).
    exists ((value, [copy]) :: cases). split; [by rewrite <- app_assoc|].
    constructor; [|done]. split; [done|]. by exists nm, copy.
Qed.

Lemma exec_select_unmapped self m info env v default_ st mapping cases :
  Forall2 (case_of self m info) mapping cases →
  (∀ c, c ∈ mapping → const_val env c.1 ≠ v) →
  exec_select env v default_ st cases = exec_block env default_ st.
Proof.
  induction 1 as [|c k mapping cases Hck Hrest IH]; intros Hne; [done|].
  destruct k as [label body]. destruct Hck as [Hlabel _]. cbn in Hlabel. subst label.
  change (exec_select env v default_ st ((c.1, body) :: cases))
    with (if (const_val env c.1 =? v)%Z then exec_block env body st
          else exec_select env v default_ st cases).
  rewrite (proj2 (Z.eqb_neq _ _)) by (apply Hne; set_solver).
  apply IH. intros c' Hc'. apply Hne. set_solver.
Qed.

Lemma exec_select_mapped self m info env v default_ st pre label fld post cases :
  Forall2 (case_of self m info) (pre ++ (label, fld) :: post) cases →
  (∀ c, c ∈ pre → const_val env c.1 ≠ v) →
  const_val env label = v →
  ∃ nm copy,
    find_member (members info) fld = Some nm ∧
    assignment_statement_ast self "      " nm false (Some (m_name m)) = Done copy ∧
    exec_select env v default_ st cases = exec_block env [copy] st.
Proof.
  revert cases. induction pre as [|c pre IH]; intros cases Hcases Hne Hv.
  - cbn in Hcases. inversion Hcases as [|? k ? cases' Hck Hrest]; subst.
    destruct k as [label' body]. destruct Hck as (Hlabel & nm & copy & Hfind & Hcopy & Hbody).
    cbn in *. subst. exists nm, copy. split_and!; [done..|].
    change (exec_select env (const_val env label) default_ st ((label, [copy]) :: cases'))
      with (if (const_val env label =? const_val env label)%Z
            then exec_block env [copy] st
            else exec_select env (const_val env label) default_ st cases').
    by rewrite Z.eqb_refl.
  - cbn in Hcases. inversion Hcases as [|? k ? cases' Hck Hrest]; subst.
    destruct k as [label' body]. destruct Hck as [Hlabel _]. cbn in Hlabel. subst label'.
    destruct (IH cases' Hrest) as (nm & copy & Hfind & Hcopy & Hrun); [|done|].
    { intros c' Hc'. apply Hne. set_solver. }
    exists nm, copy. split_and!; [done..|]. rewrite <- Hrun.
    change (exec_select env (const_val env label) default_ st ((c.1, body) :: cases'))
      with (if (const_val env c.1 =? const_val env label)%Z then exec_block env body st
            else exec_select env (const_val env label) default_ st cases').
    by rewrite (proj2 (Z.eqb_neq _ _)) by (apply Hne; set_solver).
Qed.

Lemma exec_union_code env name disc cases st :
  exec_block env (union_code name disc cases) st
  = exec_select env (in_field env disc) [SAssert "      " EFalse]
      (log st (EvMemset name "0")) cases.
Proof.
  unfold union_code. rewrite exec_block_cons. cbn [exec_stmt].
  rewrite exec_block_cons, exec_SSwitch. cbn [eval].
  by destruct (exec_select _ _ _ _ _).
Qed.

(** The code generated for a mapping whose entries all name members whose
    copy can be generated *)
Lemma union_variant_code_spec self m a chre_type info disc mapping :
  nested_type_name m = Done chre_type →
  struct_info_of self chre_type = Done info →
  kind a = union_variant disc mapping →
  Forall (union_case_ok self m info) mapping →
  ∃ out cases,
    _gen_union_variant_conversion_code self m a = Done out ∧
    union_variant_ast self m a = Done (union_code (m_name m) disc cases) ∧
    Py.join out = render_block (union_code (m_name m) disc cases) ∧
    Forall2 (case_of self m info) mapping cases ∧
    ∀ env st,
      let zeroed := log st (EvMemset (m_name m) "0") in
      ((∀ c, c ∈ mapping → const_val env c.1 ≠ in_field env disc) →
       exec_block env (union_code (m_name m) disc cases) st
       = if asserts_fatal env then Aborted zeroed else Normal zeroed) ∧
      (∀ pre label fld post,
         mapping = pre ++ (label, fld) :: post →
         (∀ c, c ∈ pre → const_val env c.1 ≠ in_field env disc) →
         const_val env label = in_field env disc →
         ∃ nm copy,
           find_member (members info) fld = Some nm ∧
           assignment_statement_ast self "      " nm false (Some (m_name m)) = Done copy ∧
           exec_block env (union_code (m_name m) disc cases) st
           = Normal (CState (vars st) (cells st) (out_fields st)
                            (trace st ++ [EvMemset (m_name m) "0"]
                             ++ leaf_event copy (vars st !! "i")))).
Proof.
  intros Hnested Hinfo Hkind Hok.
  destruct (union_cases_spec self m chre_type info mapping [] Hok) as (cases & Hcases & Hrel).
  assert (union_variant_ast self m a = Done (union_code (m_name m) disc cases)) as Hast.
  { unfold union_variant_ast. rewrite Hnested. obind. rewrite Hinfo. obind.
    rewrite (discriminator_of_kind _ _ _ Hkind). obind.
    rewrite (mapping_of_kind _ _ _ Hkind). obind. rewrite Hcases. obind. }
  pose proof (union_variant_render self m a) as Hrender. rewrite Hast in Hrender.
  destruct (_gen_union_variant_conversion_code self m a) as [out| |]; obind_in Hrender.
  exists out, cases. split_and!; [done..|].
  intros env st zeroed. split.
  - intros Hne. rewrite exec_union_code.
    rewrite (exec_select_unmapped _ _ _ _ _ _ _ _ _ Hrel Hne).
    rewrite exec_block_cons. cbn [exec_stmt eval]. unfold chpp_assert. cbn [Z.eqb].
    by destruct (asserts_fatal env).
  - intros pre label fld post Hmap Hne Hv. rewrite Hmap in Hrel.
    destruct (exec_select_mapped _ _ _ env _ [SAssert "      " EFalse] zeroed
                _ _ _ _ _ Hrel Hne Hv) as (nm & copy & Hfind & Hcopy & Hrun).
    exists nm, copy. split_and!; [done..|]. subst zeroed.
    rewrite exec_union_code, Hrun, exec_block_cons.
    rewrite (exec_leaf env copy) by (by eapply assignment_statement_leaf).
    cbn. by rewrite <- app_assoc.
Qed.

(** The statement that copies a member is generated exactly when the name
    of its encoding function resolves. *)
Lemma assignment_statement_resolves self nm in_vla_loop containing :
  (∃ s, _get_assignment_statement_for_field self nm in_vla_loop containing = Done s) ↔
  encoder_resolves self nm.
Proof.
  unfold _get_assignment_statement_for_field, encoder_resolves.
  destruct (m_is_nested_type nm).
  - destruct (nested_type_name nm) as [n|e|] eqn:Hn; obind;
      [destruct (struct_info_of self n) as [info|e|] eqn:Hi; obind;
       [destruct (_get_encoding_function_name self n) as [fn|e|] eqn:Hf; obind|..]|..];
      (split;
       [intros [s Hs]; try done; intros _; by exists n, info, fn
       |intros H; destruct (H eq_refl) as (n' & i' & f' & Hn' & Hi' & Hf');
        simplify_eq; try congruence; eauto]).
  - destruct (_is_array_type (m_type nm)); split; eauto; done.
Qed.

Lemma mapped_member_case_ok self m info c :
  mapped_member_resolves self info c → union_case_ok self m info c.
Proof.
  intros (nm & Hfind & Hres). exists nm.
  apply (assignment_statement_resolves self nm false (Some (m_name m))) in Hres as [s Hs].
  pose proof (assignment_statement_render self "      " nm false (Some (m_name m))) as Hr.
  rewrite Hs in Hr.
  destruct (assignment_statement_ast self "      " nm false (Some (m_name m))) as [copy| |];
    obind_in Hr. by exists copy.
Qed.

Lemma union_cases_resolve self m chre_type info mapping out0 out :
  for_each (union_case self m chre_type info) mapping out0 = Done out →
  Forall (mapped_member_resolves self info) mapping.
Proof.
  revert out0. induction mapping as [|[value fld] mapping IH]; intros out0 Hrun.
  - constructor.
  - cbn [for_each] in Hrun.
    destruct (union_case self m chre_type info out0 (value, fld)) as [out1| |] eqn:Hc;
      obind_in Hrun.
    constructor; [|by eapply IH]. unfold union_case in Hc.
    destruct (find_member (members info) fld) as [nm|] eqn:Hfind; [|done].
    exists nm. split; [done|].
    apply (assignment_statement_resolves self nm false (Some (m_name m))).
    destruct (_get_assignment_statement_for_field self nm false (Some (m_name m)));
      obind_in Hc. eauto.
Qed.

(** C8, as the code has it. For a [union_variant] annotation the generator
    succeeds exactly when every entry of the mapping names a member of the
    union and the statement that copies this member can be generated, which
    for a member of struct/union type asks that the name of the type follows
    the pattern of the service (whether or not every value of the
    discriminator is mapped). The code it then returns first zeroes the
    storage of the union member, then selects on the discriminator of the
    input: a mapped value copies the member associated with it, any other
    value reaches [CHPP_ASSERT(false)]. *)
Theorem union_variant_zeroes_then_switches self m a chre_type info disc mapping :
  nested_type_name m = Done chre_type →
  struct_info_of self chre_type = Done info →
  kind a = union_variant disc mapping →
  ((∃ out, _gen_union_variant_conversion_code self m a = Done out) ↔
   Forall (mapped_member_resolves self info) mapping) ∧
  ∀ out, _gen_union_variant_conversion_code self m a = Done out →
    ∃ cases,
      union_variant_ast self m a = Done (union_code (m_name m) disc cases) ∧
      Py.join out = render_block (union_code (m_name m) disc cases) ∧
      Forall2 (case_of self m info) mapping cases ∧
      ∀ env st,
        let zeroed := log st (EvMemset (m_name m) "0") in
        ((∀ c, c ∈ mapping → const_val env c.1 ≠ in_field env disc) →
         exec_block env (union_code (m_name m) disc cases) st
         = if asserts_fatal env then Aborted zeroed else Normal zeroed) ∧
        (∀ pre label fld post,
           mapping = pre ++ (label, fld) :: post →
           (∀ c, c ∈ pre → const_val env c.1 ≠ in_field env disc) →
           const_val env label = in_field env disc →
           ∃ nm copy,
             find_member (members info) fld = Some nm ∧
             assignment_statement_ast self "      " nm false (Some (m_name m)) = Done copy ∧
             exec_block env (union_code (m_name m) disc cases) st
             = Normal (CState (vars st) (cells st) (out_fields st)
                              (trace st ++ [EvMemset (m_name m) "0"]
                               ++ leaf_event copy (vars st !! "i")))).
Proof.
  intros Hnested Hinfo Hkind.
  assert ((∃ out, _gen_union_variant_conversion_code self m a = Done out) →
          Forall (mapped_member_resolves self info) mapping) as Hres.
  { intros [out Hout]. unfold _gen_union_variant_conversion_code in Hout.
    rewrite Hnested in Hout. obind_in Hout. rewrite Hinfo in Hout. obind_in Hout.
    rewrite (discriminator_of_kind _ _ _ Hkind) in Hout. obind_in Hout.
    rewrite (mapping_of_kind _ _ _ Hkind) in Hout. obind_in Hout.
    destruct (for_each (union_case self m chre_type info) mapping _) as [out1| |] eqn:Hloop;
      obind_in Hout.
    by eapply union_cases_resolve. }
  split.
  - split; [exact Hres|]. intros Hok.
    destruct (union_variant_code_spec self m a chre_type info disc mapping
                Hnested Hinfo Hkind) as (out & _ & Hout & _).
    { eapply Forall_impl; [exact Hok|]. intros c. apply mapped_member_case_ok. }
    by exists out.
  - intros out Hout.
    destruct (union_variant_code_spec self m a chre_type info disc mapping
                Hnested Hinfo Hkind) as (out' & cases & Hout' & Hast & Hrender & Hrel & Hrun).
    { eapply Forall_impl; [apply Hres; by exists out|]. intros c.
      apply mapped_member_case_ok. }
    rewrite Hout in Hout'. simplify_eq. by exists cases.
Qed.

Lemma union_variant_zeroes_then_switches_witness :
  nested_type_name ExampleWwan.m_CellInfo = Done "chreWwanCellInfoPerRat" ∧
  struct_info_of ExampleWwan.self "chreWwanCellInfoPerRat" = Done ExampleWwan.union_info ∧
  kind ExampleWwan.a_CellInfo
  = union_variant "cellInfoType"
      [("CHRE_WWAN_CELL_INFO_TYPE_GSM", "gsm"); ("2", "raw"); ("3", "bytes")] ∧
  _gen_union_variant_conversion_code ExampleWwan.self ExampleWwan.m_CellInfo
    ExampleWwan.a_CellInfo = Done WwanText.union_text ∧
  ∃ cases,
    union_variant_ast ExampleWwan.self ExampleWwan.m_CellInfo ExampleWwan.a_CellInfo
    = Done (union_code "CellInfo" "cellInfoType" cases) ∧
    Py.join WwanText.union_text = render_block (union_code "CellInfo" "cellInfoType" cases) ∧
    exec_block (ExampleWwan.union_env 7 true) (union_code "CellInfo" "cellInfoType" cases)
      ExampleWwan.empty_state
    = Aborted (log ExampleWwan.empty_state (EvMemset "CellInfo" "0")).
Proof.
  assert (nested_type_name ExampleWwan.m_CellInfo = Done "chreWwanCellInfoPerRat")
    as H0 by reflexivity.
  assert (struct_info_of ExampleWwan.self "chreWwanCellInfoPerRat"
          = Done ExampleWwan.union_info) as H1 by (vm_compute; reflexivity).
  assert (kind ExampleWwan.a_CellInfo
          = union_variant "cellInfoType"
              [("CHRE_WWAN_CELL_INFO_TYPE_GSM", "gsm"); ("2", "raw"); ("3", "bytes")])
    as H2 by reflexivity.
  assert (_gen_union_variant_conversion_code ExampleWwan.self ExampleWwan.m_CellInfo
            ExampleWwan.a_CellInfo = Done WwanText.union_text) as H3
    by (vm_compute; reflexivity).
  split_and!; [exact H0|exact H1|exact H2|exact H3|].
  destruct (union_variant_zeroes_then_switches _ _ _ _ _ _ _ H0 H1 H2) as [_ Hcode].
  destruct (Hcode _ H3) as (cases & Hast & Hrender & _ & Hrun).
  exists cases. split_and!; [exact Hast|exact Hrender|].
  destruct (Hrun (ExampleWwan.union_env 7 true) ExampleWwan.empty_state) as [Hunmapped _].
  apply Hunmapped. intros c Hc.
  repeat (apply elem_of_cons in Hc as [->|Hc]; [vm_compute; discriminate|]).
  by apply elem_of_nil in Hc.
Defined.

(** C8 as stated fails: every value of the mapping names a member of the
    union, and yet the generator raises an error, for the member [gsm] is of
    a structure type whose name does not start with the prefix of the
    service, so that the name of its encoding function cannot be derived. *)
Lemma union_variant_fails_on_unnamed_member :
  nested_type_name ExampleAnon.m_CellInfo = Done "chreWwanCellInfoPerRat" ∧
  struct_info_of ExampleAnon.self "chreWwanCellInfoPerRat" = Done ExampleAnon.union_info ∧
  kind ExampleAnon.a_CellInfo = union_variant "cellInfoType" [("1", "gsm"); ("2", "raw")] ∧
  Forall (names_a_member ExampleAnon.union_info) [("1", "gsm"); ("2", "raw")] ∧
  _gen_union_variant_conversion_code ExampleAnon.self ExampleAnon.m_CellInfo
    ExampleAnon.a_CellInfo
  = Raise (UnexpectedStructureName "anon_struct0").
Proof.
  split_and!; [reflexivity|vm_compute; reflexivity|reflexivity| |vm_compute; reflexivity].
  repeat (apply List.Forall_cons; [eexists; vm_compute; reflexivity|]).
  apply List.Forall_nil.
Qed.

(** The discriminator 2 copies the member [raw] after the union has been
    zeroed; the discriminator 7, which no entry maps, reaches the assertion. *)
Lemma union_variant_example :
  exec_block (ExampleWwan.union_env 2 true) ExampleWwan.union_stmts ExampleWwan.empty_state
  = Normal (CState ∅ ∅ ∅ [EvMemset "CellInfo" "0";
                           EvCopy "out->CellInfo.raw" "in->CellInfo.raw" None]) ∧
  exec_block (ExampleWwan.union_env 7 true) ExampleWwan.union_stmts ExampleWwan.empty_state
  = Aborted (CState ∅ ∅ ∅ [EvMemset "CellInfo" "0"]).
Proof. split; vm_compute; reflexivity. Qed.
(** * The rest of the generator and of the parser *)

Lemma tc_first_step {X} (R : relation X) x z : tc R x z → ∃ y, R x y ∧ rtc R y z.
Proof.
  intros H. destruct H as [x z H|x y z H Hyz]; [by exists z|].
  exists y. split; [done|]. by apply tc_rtc.
Qed.

(** ** Loops that finish *)

Lemma for_each_no_timeout {S A} (body : S → A → outcome S) (I : S → Prop) l s :
  I s →
  (∀ s x, x ∈ l → I s → body s x ≠ Timeout ∧ ∀ s', body s x = Done s' → I s') →
  for_each body l s ≠ Timeout.
Proof.
  revert s. induction l as [|x l IH]; intros s Hs Hstep; cbn; [done|].
  destruct (Hstep s x) as [Hnt Hnext]; [set_solver|done|].
  destruct (body s x) as [s'| |]; cbn; [|done|done].
  apply IH; [by apply Hnext|]. intros s0 y Hy. apply Hstep. set_solver.
Qed.

(** ** The topological sort of the types *)

Lemma elem_of_sorted (s : gset string) x : x ∈ sorted s ↔ x ∈ s.
Proof. unfold sorted. rewrite merge_sort_Permutation. apply elem_of_elements. Qed.

Section SortFacts.

Variable g : dict entry.

(** What one call of [sort_helper] does to [visited] and [result]: the
    types visited for the first time are appended, each once, followed by
    the key. *)
Lemma sort_helper_spec fuel key V R V' R' :
  sort_helper fuel g key (V, R) = Done (V', R') →
  ∃ new, R' = R ++ new ++ [key] ∧ V' = V ∪ list_to_set new ∧ NoDup new ∧
         (∀ x, x ∈ new → x ∉ V) ∧
         (∀ x, x ∈ new → tc (dep g) key x) ∧
         (∀ x, x ∈ new ++ [key] → ∀ d, dep g x d → d ∈ V').
Proof.
  revert key V R V' R'. induction fuel as [|fuel IH]; intros key V R V' R' Hrun; [done|].
  cbn in Hrun. destruct (dict_item g key) as [info| |] eqn:Hinfo; obind_in Hrun.
  apply dict_item_Done in Hinfo.
  match type of Hrun with
  | (for_each ?b ?l ?s ≫= _) = _ => destruct (for_each b l s) as [[V1 R1]| |] eqn:Hloop
  end; obind_in Hrun. simplify_eq.
  pose (I := λ (done : list string) (st : gset string * list string),
    ∃ new, st.2 = R ++ new ∧ st.1 = V ∪ list_to_set new ∧ NoDup new ∧
           (∀ x, x ∈ new → x ∉ V) ∧
           (∀ x, x ∈ new → tc (dep g) key x) ∧
           (∀ x, x ∈ new → ∀ d, dep g x d → d ∈ st.1) ∧
           (∀ d, d ∈ done → d ∈ st.1)).
  apply (for_each_inv _ I) in Hloop.
  - destruct Hloop as (new & HR & HV & Hnd & Hfresh & Hreach & Hclosed & Hdone).
    cbn in *. subst. exists new. split_and!; try done; [by rewrite app_assoc|].
    intros x [Hx| ->%list_elem_of_singleton]%elem_of_app d Hd; [by eapply Hclosed|].
    apply Hdone. apply elem_of_sorted. destruct Hd as (e & He & Hd). by simplify_eq.
  - exists []. cbn. split_and!; [by rewrite app_nil_r|set_solver|constructor|set_solver..].
  - intros done x [V2 R2] [V3 R3] Hx (new & HR & HV & Hnd & Hfresh & Hreach & Hclosed & Hdone) Hbody.
    cbn in HR, HV, Hclosed, Hdone. subst R2 V2.
    apply elem_of_sorted in Hx.
    assert (dep g key x) as Hkx by (by exists info).
    destruct (bool_decide (x ∈ V ∪ list_to_set new)) eqn:Hvis.
    + apply bool_decide_eq_true in Hvis. simplify_eq. exists new. cbn.
      split_and!; try done. set_solver.
    + apply bool_decide_eq_false in Hvis.
      apply IH in Hbody as (new2 & -> & -> & Hnd2 & Hfresh2 & Hreach2 & Hclosed2).
      exists (new ++ new2 ++ [x]). cbn. split_and!.
      * by rewrite <- !app_assoc.
      * set_solver.
      * apply NoDup_app. split_and!; [done| |].
        -- intros y Hy [Hy2| ->%list_elem_of_singleton]%elem_of_app.
           ++ apply (Hfresh2 y Hy2). set_solver.
           ++ set_solver.
        -- apply NoDup_app. split_and!; [done| |apply NoDup_singleton].
           intros y Hy ->%list_elem_of_singleton. apply (Hfresh2 _ Hy). set_solver.
      * intros y [Hy|[Hy| ->%list_elem_of_singleton]%elem_of_app]%elem_of_app.
        -- by apply Hfresh.
        -- intros HyV. apply (Hfresh2 y Hy). set_solver.
        -- set_solver.
      * intros y [Hy|[Hy| ->%list_elem_of_singleton]%elem_of_app]%elem_of_app.
        -- by apply Hreach.
        -- eapply tc_l; [done|]. by apply Hreach2.
        -- by apply tc_once.
      * intros y [Hy|Hy]%elem_of_app d Hd.
        -- pose proof (Hclosed y Hy d Hd). set_solver.
        -- by eapply Hclosed2.
      * intros d [Hd| ->%list_elem_of_singleton]%elem_of_app.
        -- pose proof (Hdone d Hd). set_solver.
        -- set_solver.
Qed.

Lemma deps_before_snoc R x :
  deps_before g R → (∀ d, dep g x d → d ∈ R) → deps_before g (R ++ [x]).
Proof.
  intros HR Hx l1 y l2 Heq d Hd.
  destruct l2 as [|z l2 _] using rev_ind.
  - apply app_inj_tail in Heq as [-> ->]. by apply Hx.
  - rewrite app_comm_cons, app_assoc in Heq. apply app_inj_tail in Heq as [-> _].
    by eapply HR.
Qed.

(** On a graph without cycle, each call appends a type only after the
    types it depends on. *)
Lemma sort_helper_order (rank : string → nat) fuel key V R V' R' :
  (∀ U e, dict_get g U = Some e → ∀ T, T ∈ dependencies e → rank T < rank U) →
  sort_helper fuel g key (V, R) = Done (V', R') →
  (∀ v, v ∈ V → v ∈ R ∨ rank key ≤ rank v) →
  deps_before g R → deps_before g R'.
Proof.
  intros Hrank. revert key V R V' R'.
  induction fuel as [|fuel IH]; intros key V R V' R' Hrun Hpending Hbefore; [done|].
  cbn in Hrun. destruct (dict_item g key) as [info| |] eqn:Hinfo; obind_in Hrun.
  apply dict_item_Done in Hinfo.
  match type of Hrun with
  | (for_each ?b ?l ?s ≫= _) = _ => destruct (for_each b l s) as [[V1 R1]| |] eqn:Hloop
  end; obind_in Hrun. simplify_eq.
  pose (I := λ (done : list string) (st : gset string * list string),
    (∀ v, v ∈ st.1 → v ∈ st.2 ∨ rank key ≤ rank v) ∧ deps_before g st.2 ∧
    (∀ d, d ∈ done → d ∈ st.2)).
  apply (for_each_inv _ I) in Hloop.
  - destruct Hloop as (_ & Hb & Hdone). cbn in *. apply deps_before_snoc; [done|].
    intros d (e & He & Hd). simplify_eq. apply Hdone. by apply elem_of_sorted.
  - split_and!; [done|done|set_solver].
  - intros done x [V2 R2] [V3 R3] Hx (Hp & Hb & Hdone) Hbody. cbn in Hp, Hb, Hdone.
    apply elem_of_sorted in Hx. pose proof (Hrank key info Hinfo x Hx) as Hlt.
    destruct (bool_decide (x ∈ V2)) eqn:Hvis.
    + apply bool_decide_eq_true in Hvis. simplify_eq. split_and!; [done|done|]. cbn.
      intros d [Hd| ->%list_elem_of_singleton]%elem_of_app; [auto|].
      destruct (Hp x Hvis); [done|lia].
    + apply bool_decide_eq_false in Hvis.
      pose proof (sort_helper_spec _ _ _ _ _ _ Hbody) as (new & -> & -> & _).
      apply IH in Hbody; [|intros v [Hv| ->%elem_of_singleton]%elem_of_union; [|lia];
                           destruct (Hp v Hv); [by left|right; lia]|done].
      split_and!; [|done|]; cbn.
      * intros v Hv. rewrite !elem_of_app, list_elem_of_singleton.
        apply elem_of_union in Hv as [[Hv| ->%elem_of_singleton]%elem_of_union|Hv].
        -- destruct (Hp v Hv); auto.
        -- auto.
        -- apply elem_of_list_to_set in Hv. auto.
      * intros d. rewrite !elem_of_app, !list_elem_of_singleton.
        intros [Hd| ->]; auto.
Qed.

(** The recursion is at most as deep as the number of types that are not
    visited yet, whatever the edges. *)
Lemma sort_helper_no_timeout fuel key V R :
  size (dom (dtable g) ∖ V) + 2 ≤ fuel → sort_helper fuel g key (V, R) ≠ Timeout.
Proof.
  revert key V R. induction fuel as [|fuel IH]; intros key V R Hfuel; [lia|].
  cbn. pose proof (dict_item_no_timeout g key).
  destruct (dict_item g key) as [info| |] eqn:Hinfo; obind.
  match goal with
  | |- (for_each ?b ?l ?s ≫= _) ≠ _ =>
      assert (for_each b l s ≠ Timeout) as Hloop;
      [apply (for_each_no_timeout b (λ st, V ⊆ st.1)); [done|]
      |by destruct (for_each b l s) as [[V1 R1]| |]]
  end.
  intros [V2 R2] x _ HV. cbn in HV.
  destruct (bool_decide (x ∈ V2)) eqn:Hvis; [split; [done|by intros ? [= <-]]|].
  apply bool_decide_eq_false in Hvis. split.
  - destruct (decide (x ∈ dom (dtable g))) as [Hx|Hx].
    + apply IH.
      assert (dom (dtable g) ∖ (V2 ∪ {[x]}) ⊂ dom (dtable g) ∖ V) as Hsub by set_solver.
      apply subset_size in Hsub. lia.
    + destruct fuel as [|fuel']; [lia|]. cbn. unfold dict_item.
      apply not_elem_of_dom in Hx. by rewrite Hx.
  - intros [V3 R3] Hcall. apply sort_helper_spec in Hcall as (new & _ & -> & _).
    cbn. set_solver.
Qed.

Lemma for_each_more_fuel {S A} (body1 body2 : S → A → outcome S) l s :
  (∀ s x, body1 s x ≠ Timeout → body2 s x = body1 s x) →
  for_each body1 l s ≠ Timeout → for_each body2 l s = for_each body1 l s.
Proof.
  intros Hb. revert s. induction l as [|x l IH]; intros s Hrun; cbn in *; [done|].
  destruct (body1 s x) as [s'| |] eqn:H1; cbn in *; [| |done].
  - rewrite Hb, H1 by (by rewrite H1). cbn. by apply IH.
  - rewrite Hb, H1 by (by rewrite H1). done.
Qed.

(** More fuel does not change a run that has ended. *)
Lemma sort_helper_more_fuel fuel fuel' key st :
  sort_helper fuel g key st ≠ Timeout → fuel ≤ fuel' →
  sort_helper fuel' g key st = sort_helper fuel g key st.
Proof.
  revert fuel' key st. induction fuel as [|fuel IH]; intros fuel' key st Hrun Hle; [done|].
  destruct fuel' as [|fuel']; [lia|]. cbn in *.
  destruct (dict_item g key) as [info| |]; cbn [mbind outcome_bind] in *; try done.
  match goal with
  | |- (for_each ?b2 ?l ?s ≫= _) = (for_each ?b1 _ _ ≫= _) =>
      rewrite (for_each_more_fuel b1 b2 l s)
  end; [done| |].
  - intros [V1 R1] x Hx. destruct (bool_decide (x ∈ V1)); [done|]. apply IH; [done|lia].
  - intros Hloop. by rewrite Hloop in Hrun.
Qed.

End SortFacts.

Lemma for_each_raise_elem {S A} (body : S → A → outcome S) l s e :
  for_each body l s = Raise e → ∃ s' x, x ∈ l ∧ body s' x = Raise e.
Proof.
  revert s. induction l as [|x l IH]; intros s; cbn; [done|].
  destruct (body s x) as [s1|e1|] eqn:H1; cbn; [|intros [= <-]|done].
  - intros Hrun. destruct (IH _ Hrun) as (s' & y & Hy & Hb). exists s', y. set_solver.
  - exists s, x. set_solver.
Qed.

Lemma sort_helper_no_raise g fuel key st e :
  (∀ U T, dep g U T → is_Some (dict_get g T)) → is_Some (dict_get g key) →
  sort_helper fuel g key st ≠ Raise e.
Proof.
  intros Hclosed. revert key st. induction fuel as [|fuel IH]; intros key st [info Hinfo]; [done|].
  cbn. unfold dict_item. unfold dict_get in Hinfo. rewrite Hinfo. obind.
  match goal with
  | |- (for_each ?b ?l ?s ≫= _) ≠ _ => destruct (for_each b l s) as [[V1 R1]|e1|] eqn:Hloop
  end; obind.
  intros [= ->]. apply for_each_raise_elem in Hloop as ([V2 R2] & x & Hx & Hb).
  apply elem_of_sorted in Hx. destruct (bool_decide (x ∈ V2)); [done|].
  apply IH in Hb; [done|]. apply (Hclosed key). by exists info.
Qed.

Section SortedStructs.

Variable self : CodeGenerator.

Local Abbreviation g := (structs_and_unions (api self)).

(** The list returned by [_sorted_structs]: the types visited as
    dependencies, each once, and the roots as given. *)
Lemma sorted_structs_spec fuel root_nodes result :
  _sorted_structs self fuel root_nodes = Done result →
  ∃ vl, NoDup vl ∧ result ≡ₚ vl ++ root_nodes ∧
        (∀ x, x ∈ vl ↔ ∃ r, r ∈ root_nodes ∧ tc (dep g) r x).
Proof.
  unfold _sorted_structs.
  match goal with
  | |- (for_each ?b ?l ?s ≫= _) = _ → _ => destruct (for_each b l s) as [[V R]| |] eqn:Hloop
  end; obind. intros [= <-].
  pose (I := λ (done : list string) (st : gset string * list string),
    ∃ vl, NoDup vl ∧ st.1 = list_to_set vl ∧ st.2 ≡ₚ vl ++ done ∧
          (∀ x, x ∈ vl → ∃ r, r ∈ done ∧ tc (dep g) r x) ∧
          (∀ x, x ∈ st.2 → ∀ d, dep g x d → d ∈ st.1)).
  apply (for_each_inv _ I) in Hloop.
  - destruct Hloop as (vl & Hnd & HV & HR & Hreach & Hclosed). cbn in *.
    exists vl. split_and!; [done|by rewrite HR, merge_sort_Permutation|].
    intros x. split.
    + intros Hx. destruct (Hreach x Hx) as (r & Hr & Hrx). exists r. split; [|done].
      by rewrite merge_sort_Permutation in Hr.
    + intros (r & Hr & Hrx).
      assert (r ∈ R) as HrR.
      { rewrite HR, elem_of_app. right. by rewrite merge_sort_Permutation. }
      assert (x ∈ V) as HxV; [|by rewrite HV, elem_of_list_to_set in HxV].
      clear Hr. induction Hrx as [r x Hd|r y x Hd _ IH]; [by eapply Hclosed|].
      apply IH. rewrite HR, elem_of_app. left.
      apply (elem_of_list_to_set (C := gset string)). rewrite <- HV. by eapply Hclosed.
  - exists []. cbn. split_and!; [constructor|done|done|set_solver|set_solver].
  - intros done r [V1 R1] [V2 R2] _ (vl & Hnd & HV & HR & Hreach & Hclosed) Hbody.
    cbn in HV, HR, Hclosed. subst V1.
    apply sort_helper_spec in Hbody as (new & -> & -> & Hnd2 & Hfresh & Hreach2 & Hclosed2).
    exists (vl ++ new). cbn. split_and!.
    + apply NoDup_app. split_and!; [done| |done].
      intros x Hx Hx2. apply (Hfresh x Hx2). by apply elem_of_list_to_set.
    + by rewrite list_to_set_app_L.
    + rewrite HR. rewrite <- !app_assoc. f_equiv. rewrite !app_assoc. f_equiv.
      apply Permutation_app_comm.
    + intros x [Hx|Hx]%elem_of_app.
      * destruct (Hreach x Hx) as (r' & Hr' & ?). exists r'. set_solver.
      * exists r. split; [set_solver|auto].
    + intros x [Hx|Hx]%elem_of_app d Hd.
      * pose proof (Hclosed x Hx d Hd). set_solver.
      * by eapply Hclosed2.
Qed.

End SortedStructs.

(** X1. The list returned by [_sorted_structs] holds the root nodes and the
    types that a root node depends on, directly or through other types, and
    nothing else. *)
Theorem sorted_structs_lists_reachable_types self fuel root_nodes result :
  _sorted_structs self fuel root_nodes = Done result →
  ∀ x, x ∈ result ↔
       x ∈ root_nodes ∨ ∃ r, r ∈ root_nodes ∧ tc (dep (structs_and_unions (api self))) r x.
Proof.
  intros Hrun x. destruct (sorted_structs_spec _ _ _ _ Hrun) as (vl & _ & Hperm & Hvl).
  rewrite Hperm, elem_of_app, Hvl. tauto.
Qed.

Lemma sorted_structs_lists_reachable_types_witness :
  _sorted_structs ExampleWwan.self 8 ["chreWwanCellInfoResult"]
  = Done ExampleOrder.sorted_types ∧
  ∀ x, x ∈ ExampleOrder.sorted_types ↔
       x ∈ ["chreWwanCellInfoResult"] ∨
       ∃ r, r ∈ ["chreWwanCellInfoResult"] ∧
            tc (dep (structs_and_unions (api ExampleWwan.self))) r x.
Proof.
  assert (_sorted_structs ExampleWwan.self 8 ["chreWwanCellInfoResult"]
          = Done ExampleOrder.sorted_types) as H0 by (vm_compute; reflexivity).
  split; [exact H0|].
  exact (sorted_structs_lists_reachable_types _ _ _ _ H0).
Defined.

(** X2. The list returned by [_sorted_structs] is free of repetitions
    exactly when the root nodes are, and no root node is a dependency,
    direct or not, of a root node: a type met as a dependency is listed
    once, and a root node once more for each time it is given. *)
Theorem sorted_structs_repeats_exactly_nested_roots self fuel root_nodes result :
  _sorted_structs self fuel root_nodes = Done result →
  (NoDup result ↔
   NoDup root_nodes ∧
   ∀ r r', r ∈ root_nodes → r' ∈ root_nodes →
           ¬ tc (dep (structs_and_unions (api self))) r r').
Proof.
  intros Hrun. destruct (sorted_structs_spec _ _ _ _ Hrun) as (vl & Hnd & Hperm & Hvl).
  rewrite Hperm, NoDup_app. split.
  - intros (_ & Hdisj & Hroots). split; [done|]. intros r r' Hr Hr' Htc.
    apply (Hdisj r'); [|done]. apply Hvl. by exists r.
  - intros (Hroots & Hno). split_and!; [done| |done].
    intros x (r & Hr & Htc)%Hvl Hx. by apply (Hno r x).
Qed.

Lemma sorted_structs_repeats_exactly_nested_roots_witness :
  _sorted_structs ExampleRoots.self 4 ["chreWwanA"; "chreWwanB"]
  = Done ["chreWwanB"; "chreWwanA"; "chreWwanB"] ∧
  (NoDup ["chreWwanB"; "chreWwanA"; "chreWwanB"] ↔
   NoDup ["chreWwanA"; "chreWwanB"] ∧
   ∀ r r', r ∈ ["chreWwanA"; "chreWwanB"] → r' ∈ ["chreWwanA"; "chreWwanB"] →
           ¬ tc (dep (structs_and_unions (api ExampleRoots.self))) r r').
Proof.
  assert (_sorted_structs ExampleRoots.self 4 ["chreWwanA"; "chreWwanB"]
          = Done ["chreWwanB"; "chreWwanA"; "chreWwanB"]) as H0 by (vm_compute; reflexivity).
  split; [exact H0|].
  exact (sorted_structs_repeats_exactly_nested_roots _ _ _ _ H0).
Defined.

Lemma acyclic_rank g :
  acyclic g →
  ∃ rank : string → nat,
    ∀ U e, dict_get g U = Some e → ∀ T, T ∈ dependencies e → rank T < rank U.
Proof.
  intros [rank Hrank]. exists rank. intros U e He T HT. by apply (Hrank U e He T).
Qed.

(** X3. On a graph without dependency cycle, every entry of the list
    returned by [_sorted_structs] comes after an entry for each of the types
    it depends on, so every structure is defined after the structures of its
    members. *)
Theorem sorted_structs_dependencies_first self fuel root_nodes result :
  acyclic (structs_and_unions (api self)) →
  _sorted_structs self fuel root_nodes = Done result →
  deps_before (structs_and_unions (api self)) result.
Proof.
  intros [rank Hrank]%acyclic_rank. unfold _sorted_structs.
  match goal with
  | |- (for_each ?b ?l ?s ≫= _) = _ → _ => destruct (for_each b l s) as [[V R]| |] eqn:Hloop
  end; obind. intros [= <-].
  pose (I := λ (done : list string) (st : gset string * list string),
    (∀ v, v ∈ st.1 → v ∈ st.2) ∧ deps_before (structs_and_unions (api self)) st.2).
  apply (for_each_inv _ I) in Hloop; [by destruct Hloop| |].
  - split; [set_solver|]. intros l1 x l2 Heq. by destruct l1.
  - intros done r [V1 R1] [V2 R2] _ [Hp Hb] Hbody. cbn in Hp, Hb.
    pose proof (sort_helper_spec _ _ _ _ _ _ _ Hbody) as (new & -> & -> & _).
    split; cbn.
    + intros v [Hv|Hv%elem_of_list_to_set]%elem_of_union; set_solver.
    + eapply sort_helper_order; [done|done| |done]. intros v Hv. left. auto.
Qed.

Lemma sorted_structs_dependencies_first_witness :
  acyclic (structs_and_unions (api ExampleWwan.self)) ∧
  _sorted_structs ExampleWwan.self 8 ["chreWwanCellInfoResult"]
  = Done ExampleOrder.sorted_types ∧
  deps_before (structs_and_unions (api ExampleWwan.self)) ExampleOrder.sorted_types.
Proof.
  assert (acyclic (structs_and_unions (api ExampleWwan.self))) as H0.
  { exists ExampleOrder.rank. refine (bool_decide_unpack _ _). vm_compute. exact I. }
  assert (_sorted_structs ExampleWwan.self 8 ["chreWwanCellInfoResult"]
          = Done ExampleOrder.sorted_types) as H1 by (vm_compute; reflexivity).
  split; [exact H0|]. split; [exact H1|].
  exact (sorted_structs_dependencies_first _ _ _ _ H0 H1).
Defined.

(** X4. When every dependency and every root node is a key of the graph,
    [_sorted_structs] returns a list, on a graph with dependency cycles as
    well: a recursion depth of the number of types plus two is always
    enough. *)
Theorem sorted_structs_terminates self root_nodes :
  (∀ U T, dep (structs_and_unions (api self)) U T →
          is_Some (dict_get (structs_and_unions (api self)) T)) →
  (∀ r, r ∈ root_nodes → is_Some (dict_get (structs_and_unions (api self)) r)) →
  ∃ result, ∀ fuel,
    size (dom (dtable (structs_and_unions (api self)))) + 2 ≤ fuel →
    _sorted_structs self fuel root_nodes = Done result.
Proof.
  intros Hclosed Hroots. set (g := structs_and_unions (api self)) in *.
  set (n := size (dom (dtable g)) + 2).
  assert (∀ st r, sort_helper n g r st ≠ Timeout) as Hnt.
  { intros [V R] r. apply sort_helper_no_timeout.
    assert (size (dom (dtable g) ∖ V) ≤ size (dom (dtable g))); [|unfold n; lia].
    apply subseteq_size. set_solver. }
  destruct (for_each (λ st node, sort_helper n g node st)
              (merge_sort String.le root_nodes) (∅, [])) as [st|e|] eqn:Hloop.
  - exists st.2. intros fuel Hfuel. unfold _sorted_structs. fold g.
    rewrite (for_each_more_fuel (λ st node, sort_helper n g node st)).
    + by rewrite Hloop.
    + intros st' r _. by apply sort_helper_more_fuel.
    + by rewrite Hloop.
  - apply for_each_raise_elem in Hloop as (st' & r & Hr & Hb).
    rewrite merge_sort_Permutation in Hr. by apply sort_helper_no_raise in Hb; auto.
  - exfalso. revert Hloop. apply (for_each_no_timeout _ (λ _, True)); [done|].
    intros st' r _ _. split; [apply Hnt|done].
Qed.

Lemma sorted_structs_terminates_witness :
  ∃ result, ∀ fuel,
    size (dom (dtable (structs_and_unions (api ExampleWwan.self)))) + 2 ≤ fuel →
    _sorted_structs ExampleWwan.self fuel ["chreWwanCellInfoResult"] = Done result.
Proof.
  apply sorted_structs_terminates.
  - intros U T (e & He & HT).
    assert (map_Forall (λ _ e, set_Forall (λ T, is_Some (dict_get
              (structs_and_unions (api ExampleWwan.self)) T)) (dependencies e))
              (dtable (structs_and_unions (api ExampleWwan.self)))) as Hall.
    { refine (bool_decide_unpack _ _). vm_compute. exact I. }
    exact (Hall U e He T HT).
  - intros r ->%list_elem_of_singleton. vm_compute. eauto.
Defined.

(** ** The encoding functions *)

Lemma for_each_prefix {A} (body : list string → A → outcome (list string)) l out :
  (∀ out x, body out x = (c ← body [] x; Done (out ++ c))) →
  for_each body l out = (c ← for_each body l []; Done (out ++ c)).
Proof.
  intros Hb. revert out. induction l as [|x l IH]; intros out; cbn.
  - by rewrite app_nil_r.
  - rewrite (Hb out x). destruct (body [] x) as [c| |]; obind.
    rewrite (IH (out ++ c)), (IH c).
    destruct (for_each body l []) as [c2| |]; obind. by rewrite app_assoc.
Qed.

Section EncoderText.

Variable self : CodeGenerator.

Lemma encoding_by_annotation_prefix m annotations out :
  encoding_by_annotation self m annotations out
  = (st ← encoding_by_annotation self m annotations []; Done (out ++ st.1, st.2)).
Proof.
  induction annotations as [|a rest IH]; cbn; [by rewrite app_nil_r|].
  destruct (kind a); try done.
  - by destruct (_is_array_type (m_type m)).
  - by destruct (_gen_vla_encoding self m a).
  - by destruct (_gen_union_variant_conversion_code self m a).
Qed.

Lemma encoding_member_prefix out m :
  encoding_member self out m = (c ← encoding_member self [] m; Done (out ++ c)).
Proof.
  unfold encoding_member. rewrite encoding_by_annotation_prefix.
  destruct (encoding_by_annotation self m (m_annotations m) []) as [[code b]| |]; obind.
  cbn. destruct b; [done|].
  by destruct (_get_assignment_statement_for_field self m false None); obind;
    rewrite <- app_assoc.
Qed.

Lemma encoding_function_definition_prefix T out :
  encoding_function_definition self T out
  = (c ← encoding_function_definition self T []; Done (out ++ c)).
Proof.
  unfold encoding_function_definition.
  destruct (_gen_encoding_function_signature self T) as [signature| |]; obind.
  destruct (struct_info_of self T) as [info| |]; obind.
  rewrite (for_each_prefix _ _ (((out ++ _) ++ _) ++ _)) by apply encoding_member_prefix.
  rewrite (for_each_prefix _ _ ((([] ++ _) ++ _) ++ _)) by apply encoding_member_prefix.
  destruct (for_each (encoding_member self) (members info) []) as [c| |]; obind.
  by rewrite <- !app_assoc.
Qed.

Lemma encoders_text_prefix order out :
  encoders_text self order out = (c ← encoders_text self order []; Done (out ++ c)).
Proof.
  unfold encoders_text. apply for_each_prefix. intros out0 x.
  apply encoding_function_definition_prefix.
Qed.

Lemma encoders_text_app order1 order2 out1 out2 :
  encoders_text self order1 [] = Done out1 →
  encoders_text self order2 [] = Done out2 →
  encoders_text self (order1 ++ order2) [] = Done (out1 ++ out2).
Proof.
  intros H1 H2. unfold encoders_text at 1. rewrite for_each_app.
  fold (encoders_text self order1 []). rewrite H1. obind.
  fold (encoders_text self order2 out1). by rewrite encoders_text_prefix, H2.
Qed.

End EncoderText.

Section EncodingOrder.

Variable self : CodeGenerator.

Local Abbreviation g := (structs_and_unions (api self)).

Lemma defined_before_use_app ag o1 o2 :
  defined_before_use g ag o1 → defined_before_use g (ag ∪ list_to_set o1) o2 →
  defined_before_use g ag (o1 ++ o2).
Proof.
  revert ag. induction o1 as [|a o1 IH]; intros ag; cbn.
  - intros _. by rewrite (right_id_L ∅ (∪)).
  - intros [Ha H1] H2. split; [done|]. apply IH; [done|].
    by rewrite <- (assoc_L (∪)).
Qed.

Lemma defined_before_use_split ag l1 x l2 D :
  defined_before_use g ag (l1 ++ x :: l2) →
  tc (dep g) x D → is_struct_type g D → D ∈ ag ∨ D ∈ l1.
Proof.
  revert ag. induction l1 as [|a l1 IH]; intros ag; cbn.
  - intros [Hx _] HD Hs. left. auto.
  - intros [_ Hrest] HD Hs. destruct (IH _ Hrest HD Hs) as [Hin|Hin]; set_solver.
Qed.

Lemma settled_mono ag ag' t : ag ⊆ ag' → settled g ag t → settled g ag' t.
Proof. intros Hsub [H1 H2]. split; [set_solver|]. intros D HD Hs. set_solver. Qed.

Lemma settled_step ag y z :
  settled g ag y → dep g y z → settled g ag z.
Proof.
  intros [Hy1 Hy2] Hyz. split.
  - intros Hz. apply Hy2; [by apply tc_once|done].
  - intros D HD Hs. apply Hy2; [|done]. by eapply tc_l.
Qed.

Lemma settled_rtc ag y z : settled g ag y → rtc (dep g) y z → settled g ag z.
Proof.
  intros Hy Hyz. induction Hyz as [|y y' z Hyy' _ IH]; [done|].
  apply IH. by eapply settled_step.
Qed.

(** What one call of [_gen_encoding_function] emits and adds to
    [already_generated]: the functions of the structures met for the first
    time, each once, a function after the functions it calls. *)
Lemma gen_encoding_function_spec fuel t ag out ag' :
  _gen_encoding_function self fuel t ag = Done (out, ag') →
  generated_closed g ag →
  ∃ order,
    encoders_text self order [] = Done out ∧ NoDup order ∧
    (∀ x, x ∈ order → x ∉ ag ∧ is_struct_type g x ∧ rtc (dep g) t x) ∧
    ag' = ag ∪ list_to_set order ∧
    generated_closed g ag' ∧ settled g ag' t ∧
    defined_before_use g ag order.
Proof.
  revert t ag out ag'. induction fuel as [|fuel IH]; intros t ag out ag' Hrun Hclosed; [done|].
  cbn in Hrun. destruct (struct_info_of self t) as [info| |] eqn:Hinfo; obind_in Hrun.
  apply dict_item_Done in Hinfo.
  match type of Hrun with
  | (for_each ?b ?l ?s ≫= _) = _ => destruct (for_each b l s) as [[out1 ag1]| |] eqn:Hloop
  end; obind_in Hrun.
  pose (I := λ (done : list string) (st : list string * gset string),
    ∃ order, encoders_text self order [] = Done st.1 ∧ NoDup order ∧
      (∀ x, x ∈ order → x ∉ ag ∧ is_struct_type g x ∧ tc (dep g) t x) ∧
      st.2 = ag ∪ list_to_set order ∧ generated_closed g st.2 ∧
      (∀ d, d ∈ done → settled g st.2 d) ∧ defined_before_use g ag order).
  apply (for_each_inv _ I) in Hloop.
  - destruct Hloop as (order & Htext & Hnd & Helem & Hag & Hcl & Hdone & Hord).
    cbn in Htext, Hag, Hcl, Hdone.
    assert (∀ D, tc (dep g) t D → is_struct_type g D → D ∈ ag1) as Hneeds.
    { intros D HD Hs. apply tc_first_step in HD as (d & (e & He & Hd) & HdD). simplify_eq.
      destruct (Hdone d) as [H1 H2]; [by apply elem_of_sorted|].
      apply rtc_tc in HdD as [<-|HdD]; auto. }
    destruct (bool_decide (t ∈ ag1) || is_union info) eqn:Hskip.
    + simplify_eq. exists order. split_and!; try done.
      * intros x Hx. destruct (Helem x Hx) as (? & ? & ?). split_and!; [done..|].
        by apply tc_rtc.
      * split; [|done]. intros (e & He & Hu). simplify_eq.
        rewrite Hu, orb_false_r in Hskip. by apply bool_decide_eq_true in Hskip.
    + apply orb_false_iff in Hskip as [Hnew%bool_decide_eq_false Hu].
      destruct (encoding_function_definition self t out1) as [out2| |] eqn:Hdef;
        obind_in Hrun. simplify_eq.
      exists (order ++ [t]). split_and!.
      * unfold encoders_text in *. rewrite for_each_app, Htext. cbn. by rewrite Hdef.
      * apply NoDup_app. split_and!; [done| |apply NoDup_singleton].
        intros x Hx ->%list_elem_of_singleton. apply Hnew. set_solver.
      * intros x [Hx| ->%list_elem_of_singleton]%elem_of_app.
        -- destruct (Helem x Hx) as (? & ? & ?). split_and!; [done..|]. by apply tc_rtc.
        -- split_and!; [set_solver|by exists info|done].
      * rewrite list_to_set_app_L. cbn. rewrite (right_id_L ∅ (∪)).
        by rewrite (assoc_L (∪)).
      * intros T [HT| ->%elem_of_singleton]%elem_of_union D HD Hs.
        -- apply elem_of_union_l. by eapply Hcl.
        -- apply elem_of_union_l. by apply Hneeds.
      * split; [set_solver|]. intros D HD Hs. apply elem_of_union_l. by apply Hneeds.
      * apply defined_before_use_app; [done|]. cbn. split; [|done]. apply Hneeds.
  - exists []. cbn. split_and!; try done.
    + constructor.
    + set_solver.
    + by rewrite (right_id_L ∅ (∪)).
    + set_solver.
  - intros done d [out2 ag2] [out3 ag3] Hd
      (order & Htext & Hnd & Helem & Hag & Hcl & Hdone & Hord) Hbody.
    cbn in Htext, Hag, Hcl, Hdone. apply elem_of_sorted in Hd.
    assert (dep g t d) as Htd by (by exists info).
    destruct (bool_decide (d ∈ ag2)) eqn:Hvis.
    + apply bool_decide_eq_true in Hvis. simplify_eq. exists order. cbn.
      split_and!; try done.
      intros d' [Hd'| ->%list_elem_of_singleton]%elem_of_app; [auto|].
      split; [done|]. intros D HD Hs. by eapply Hcl.
    + apply bool_decide_eq_false in Hvis.
      destruct (_gen_encoding_function self fuel d ag2) as [[out4 ag4]| |] eqn:Hcall;
        obind_in Hbody. cbn in Hbody. simplify_eq.
      apply IH in Hcall as (order2 & Htext2 & Hnd2 & Helem2 & -> & Hcl2 & Hset2 & Hord2);
        [|done].
      exists (order ++ order2). cbn. split_and!.
      * by apply encoders_text_app.
      * apply NoDup_app. split_and!; [done| |done].
        intros x Hx Hx2. destruct (Helem2 x Hx2) as (Hfresh & _). set_solver.
      * intros x [Hx|Hx]%elem_of_app; [auto|].
        destruct (Helem2 x Hx) as (Hfresh & Hs & Hreach). split_and!; [set_solver|done|].
        by eapply tc_rtc_r; [apply tc_once|].
      * rewrite list_to_set_app_L. by rewrite (assoc_L (∪)).
      * done.
      * intros d' [Hd'| ->%list_elem_of_singleton]%elem_of_app; [|done].
        eapply settled_mono; [|by apply Hdone]. set_solver.
      * by apply defined_before_use_app.
Qed.

End EncodingOrder.

(** *** The generators of text always end *)

Lemma bind_no_timeout {A B} (m : outcome A) (k : A → outcome B) :
  m ≠ Timeout → (∀ a, k a ≠ Timeout) → (m ≫= k) ≠ Timeout.
Proof. intros Hm Hk. destruct m; cbn; [apply Hk|done|done]. Qed.

Section TextEnds.

Variable self : CodeGenerator.

Lemma struct_info_of_no_timeout chre_type : struct_info_of self chre_type ≠ Timeout.
Proof. apply dict_item_no_timeout. Qed.

Lemma nested_type_name_no_timeout m : nested_type_name m ≠ Timeout.
Proof. unfold nested_type_name. by destruct (m_nested_type_name m). Qed.

Lemma get_encoding_function_name_no_timeout chre_type :
  _get_encoding_function_name self chre_type ≠ Timeout.
Proof.
  unfold _get_encoding_function_name.
  apply bind_no_timeout; [apply strip_prefix_no_timeout|done].
Qed.

Lemma get_chpp_sizeof_function_name_no_timeout chre_type :
  _get_chpp_sizeof_function_name self chre_type ≠ Timeout.
Proof.
  unfold _get_chpp_sizeof_function_name.
  apply bind_no_timeout; [apply strip_prefix_no_timeout|done].
Qed.

Lemma get_struct_or_union_prefix_no_timeout chre_type :
  _get_struct_or_union_prefix self chre_type ≠ Timeout.
Proof.
  unfold _get_struct_or_union_prefix.
  apply bind_no_timeout; [apply struct_info_of_no_timeout|done].
Qed.

Lemma gen_encoding_function_signature_no_timeout chre_type :
  _gen_encoding_function_signature self chre_type ≠ Timeout.
Proof.
  unfold _gen_encoding_function_signature.
  apply bind_no_timeout; [apply get_encoding_function_name_no_timeout|intros fn].
  apply bind_no_timeout; [apply get_struct_or_union_prefix_no_timeout|intros prefix].
  apply bind_no_timeout; [apply get_chpp_type_from_chre_no_timeout|intros chpp_type].
  apply bind_no_timeout; [apply struct_info_of_no_timeout|done].
Qed.

Lemma get_chpp_member_sizeof_call_no_timeout m :
  _get_chpp_member_sizeof_call self m ≠ Timeout.
Proof.
  unfold _get_chpp_member_sizeof_call. destruct (m_is_nested_type m); [|done].
  apply bind_no_timeout; [apply nested_type_name_no_timeout|intros chre_type].
  apply bind_no_timeout; [apply struct_info_of_no_timeout|intros info].
  destruct (has_vla_member info).
  - apply bind_no_timeout; [apply get_chpp_sizeof_function_name_no_timeout|done].
  - apply bind_no_timeout; [apply get_chpp_type_from_chre_no_timeout|done].
Qed.

Lemma gen_vla_encoding_no_timeout m a : _gen_vla_encoding self m a ≠ Timeout.
Proof.
  unfold _gen_vla_encoding.
  apply bind_no_timeout; [apply get_member_type_no_timeout|intros chpp_type].
  apply bind_no_timeout; [unfold length_field_of; by destruct (kind a)|intros lf].
  apply bind_no_timeout; [apply get_chpp_member_sizeof_call_no_timeout|intros sz].
  apply bind_no_timeout; [apply assignment_statement_no_timeout|done].
Qed.

Lemma gen_union_variant_conversion_code_no_timeout m a :
  _gen_union_variant_conversion_code self m a ≠ Timeout.
Proof.
  unfold _gen_union_variant_conversion_code.
  apply bind_no_timeout; [apply nested_type_name_no_timeout|intros chre_type].
  apply bind_no_timeout; [apply struct_info_of_no_timeout|intros info].
  apply bind_no_timeout; [unfold discriminator_of; by destruct (kind a)|intros disc].
  apply bind_no_timeout; [unfold mapping_of; by destruct (kind a)|intros mapping].
  apply bind_no_timeout; [|done].
  apply (for_each_no_timeout _ (λ _, True)); [done|]. intros out c _ _.
  split; [apply union_case_no_timeout|done].
Qed.

Lemma encoding_by_annotation_no_timeout m annotations out :
  encoding_by_annotation self m annotations out ≠ Timeout.
Proof.
  induction annotations as [|a rest IH]; cbn; [done|].
  destruct (kind a); try done.
  - by destruct (_is_array_type (m_type m)).
  - apply bind_no_timeout; [apply gen_vla_encoding_no_timeout|done].
  - apply bind_no_timeout; [apply gen_union_variant_conversion_code_no_timeout|done].
Qed.

Lemma encoding_member_no_timeout out m : encoding_member self out m ≠ Timeout.
Proof.
  unfold encoding_member.
  apply bind_no_timeout; [apply encoding_by_annotation_no_timeout|intros [code b]].
  cbn. destruct b; [done|].
  apply bind_no_timeout; [apply assignment_statement_no_timeout|done].
Qed.

Lemma encoding_function_definition_no_timeout chre_type out :
  encoding_function_definition self chre_type out ≠ Timeout.
Proof.
  unfold encoding_function_definition.
  apply bind_no_timeout; [apply gen_encoding_function_signature_no_timeout|intros sig].
  apply bind_no_timeout; [apply struct_info_of_no_timeout|intros info].
  apply bind_no_timeout; [|done].
  apply (for_each_no_timeout _ (λ _, True)); [done|]. intros out0 m _ _.
  split; [apply encoding_member_no_timeout|done].
Qed.

Local Abbreviation g := (structs_and_unions (api self)).

(** Without dependency cycle, the recursion is no deeper than the rank of
    the type. *)
Lemma gen_encoding_function_no_timeout (rank : string → nat) fuel t ag :
  (∀ U e, dict_get g U = Some e → ∀ T, T ∈ dependencies e → rank T < rank U) →
  rank t < fuel → _gen_encoding_function self fuel t ag ≠ Timeout.
Proof.
  intros Hrank. revert t ag. induction fuel as [|fuel IH]; intros t ag Hfuel; [lia|].
  cbn. pose proof (struct_info_of_no_timeout t) as Hnt.
  destruct (struct_info_of self t) as [info| |] eqn:Hinfo; obind.
  apply dict_item_Done in Hinfo.
  apply bind_no_timeout.
  - apply (for_each_no_timeout _ (λ _, True)); [done|]. intros [out1 ag1] d Hd _.
    apply elem_of_sorted in Hd. split; [|done].
    destruct (bool_decide (d ∈ ag1)); [done|].
    apply bind_no_timeout; [|done]. apply IH.
    pose proof (Hrank t info Hinfo d Hd). lia.
  - intros [out1 ag1]. destruct (_ || _); [done|].
    apply bind_no_timeout; [apply encoding_function_definition_no_timeout|done].
Qed.

Lemma gen_encoding_function_more_fuel fuel fuel' t ag :
  _gen_encoding_function self fuel t ag ≠ Timeout → fuel ≤ fuel' →
  _gen_encoding_function self fuel' t ag = _gen_encoding_function self fuel t ag.
Proof.
  revert fuel' t ag. induction fuel as [|fuel IH]; intros fuel' t ag Hrun Hle; [done|].
  destruct fuel' as [|fuel']; [lia|]. cbn in *.
  destruct (struct_info_of self t) as [info| |]; cbn [mbind outcome_bind] in *; try done.
  match goal with
  | |- (for_each ?b2 ?l ?s ≫= _) = (for_each ?b1 _ _ ≫= _) =>
      rewrite (for_each_more_fuel b1 b2 l s)
  end; [done| |].
  - intros [out1 ag1] d Hd. destruct (bool_decide (d ∈ ag1)); [done|].
    rewrite IH; [done| |lia]. intros Hsub. by rewrite Hsub in Hd.
  - intros Hloop. by rewrite Hloop in Hrun.
Qed.

(** No call returns on a type from which a dependency cycle can be reached,
    and none adds such a type to [already_generated]. *)
Lemma reaches_cycle_step y : reaches_cycle g y → ∃ d, dep g y d ∧ reaches_cycle g d.
Proof.
  intros (s & Hys & Hss).
  apply rtc_tc in Hys as [->|Hys].
  - apply tc_first_step in Hss as (d & Hd & Hds). exists d. split; [done|].
    exists s. split; [done|]. by eapply tc_rtc_r; [apply tc_once|].
  - apply tc_first_step in Hys as (d & Hd & Hds). exists d. split; [done|]. by exists s.
Qed.

Lemma gen_encoding_function_cycle fuel t ag out ag' :
  (∀ y, y ∈ ag → ¬ reaches_cycle g y) →
  _gen_encoding_function self fuel t ag = Done (out, ag') →
  ¬ reaches_cycle g t ∧ ∀ y, y ∈ ag' → ¬ reaches_cycle g y.
Proof.
  revert t ag out ag'. induction fuel as [|fuel IH]; intros t ag out ag' Hag Hrun; [done|].
  cbn in Hrun. destruct (struct_info_of self t) as [info| |] eqn:Hinfo; obind_in Hrun.
  apply dict_item_Done in Hinfo.
  match type of Hrun with
  | (for_each ?b ?l ?s ≫= _) = _ => destruct (for_each b l s) as [[out1 ag1]| |] eqn:Hloop
  end; obind_in Hrun.
  pose (I := λ (done : list string) (st : list string * gset string),
    (∀ y, y ∈ st.2 → ¬ reaches_cycle g y) ∧ (∀ d, d ∈ done → ¬ reaches_cycle g d)).
  apply (for_each_inv _ I) in Hloop.
  - destruct Hloop as [Hag1 Hdone]. cbn in Hag1, Hdone.
    assert (¬ reaches_cycle g t) as Ht.
    { intros (d & (e & He & Hd) & Hrc)%reaches_cycle_step. simplify_eq.
      apply (Hdone d); [by apply elem_of_sorted|done]. }
    split; [done|]. destruct (_ || _).
    + by simplify_eq.
    + destruct (encoding_function_definition self t out1); obind_in Hrun. simplify_eq.
      intros y [Hy| ->%elem_of_singleton]%elem_of_union; auto.
  - split; [done|set_solver].
  - intros done d [out2 ag2] [out3 ag3] _ [Hag2 Hdone] Hbody. cbn in Hag2, Hdone.
    destruct (bool_decide (d ∈ ag2)) eqn:Hvis.
    + apply bool_decide_eq_true in Hvis. simplify_eq. split; [done|]. cbn.
      intros d' [Hd'| ->%list_elem_of_singleton]%elem_of_app; auto.
    + destruct (_gen_encoding_function self fuel d ag2) as [[out4 ag4]| |] eqn:Hcall;
        obind_in Hbody. cbn in Hbody. simplify_eq.
      apply IH in Hcall as [Hd Hag4]; [|done]. split; [done|]. cbn.
      intros d' [Hd'| ->%list_elem_of_singleton]%elem_of_app; auto.
Qed.

End TextEnds.

Section EncodingFunctions.

Variable self : CodeGenerator.

Local Abbreviation g := (structs_and_unions (api self)).

Lemma gen_encoding_functions_spec fuel out :
  _gen_encoding_functions self fuel = Done out →
  ∃ order,
    encoders_text self order [] = Done out ∧ NoDup order ∧
    (∀ x, x ∈ order ↔
          is_struct_type g x ∧
          ∃ r, r ∈ root_structs (api_json (api self)) ∧ rtc (dep g) r x) ∧
    defined_before_use g ∅ order.
Proof.
  unfold _gen_encoding_functions.
  match goal with
  | |- (for_each ?b ?l ?s ≫= _) = _ → _ => destruct (for_each b l s) as [[out1 ag]| |] eqn:Hloop
  end; obind. intros [= <-].
  pose (I := λ (done : list string) (st : list string * gset string),
    ∃ order, encoders_text self order [] = Done st.1 ∧ NoDup order ∧
      st.2 = list_to_set order ∧ generated_closed g st.2 ∧
      (∀ r, r ∈ done → settled g st.2 r) ∧
      (∀ x, x ∈ order → is_struct_type g x ∧ ∃ r, r ∈ done ∧ rtc (dep g) r x) ∧
      defined_before_use g ∅ order).
  apply (for_each_inv _ I) in Hloop.
  - destruct Hloop as (order & Htext & Hnd & Hag & Hcl & Hdone & Helem & Hord).
    cbn in Htext, Hag, Hcl, Hdone. exists order. split_and!; try done.
    intros x. split; [apply Helem|]. intros (Hs & r & Hr & Hrx).
    assert (settled g ag x) as [Hx _] by (eapply settled_rtc; [by apply Hdone|done]).
    apply (elem_of_list_to_set (C := gset string)). rewrite <- Hag. auto.
  - exists []. cbn. split_and!; try done; [constructor|set_solver..].
  - intros done r [out2 ag2] [out3 ag3] _
      (order & Htext & Hnd & Hag & Hcl & Hdone & Helem & Hord) Hbody.
    cbn in Htext, Hag, Hcl, Hdone.
    destruct (_gen_encoding_function self fuel r ag2) as [[out4 ag4]| |] eqn:Hcall;
      obind_in Hbody. cbn in Hbody. simplify_eq.
    apply gen_encoding_function_spec in Hcall
      as (order2 & Htext2 & Hnd2 & Helem2 & -> & Hcl2 & Hset2 & Hord2); [|done].
    exists (order ++ order2). cbn. split_and!.
    + by apply encoders_text_app.
    + apply NoDup_app. split_and!; [done| |done].
      intros x Hx Hx2. destruct (Helem2 x Hx2) as (Hfresh & _).
      apply Hfresh. by apply elem_of_list_to_set.
    + by rewrite list_to_set_app_L.
    + done.
    + intros r' [Hr'| ->%list_elem_of_singleton]%elem_of_app; [|done].
      eapply settled_mono; [|by apply Hdone]. set_solver.
    + intros x [Hx|Hx]%elem_of_app.
      * destruct (Helem x Hx) as (? & r' & ? & ?). split; [done|]. exists r'. set_solver.
      * destruct (Helem2 x Hx) as (_ & ? & ?). split; [done|]. exists r. set_solver.
    + apply defined_before_use_app; [done|]. by rewrite (left_id_L ∅ (∪)).
Qed.

End EncodingFunctions.

(** X5. [_gen_encoding_functions] emits one encoding function for each
    structure that is a root structure or that a root structure depends on,
    directly or through other types, and none for a union or for any other
    type: its text is that of the definitions of these structures, each
    taken once. *)
Theorem encoding_functions_one_per_structure self fuel out :
  _gen_encoding_functions self fuel = Done out →
  ∃ order,
    encoders_text self order [] = Done out ∧ NoDup order ∧
    ∀ x, x ∈ order ↔
         is_struct_type (structs_and_unions (api self)) x ∧
         ∃ r, r ∈ root_structs (api_json (api self)) ∧
              rtc (dep (structs_and_unions (api self))) r x.
Proof.
  intros Hrun.
  destruct (gen_encoding_functions_spec _ _ _ Hrun) as (order & Htext & Hnd & Helem & _).
  by exists order.
Qed.

Lemma encoding_functions_one_per_structure_witness :
  _gen_encoding_functions ExampleWwan.self 8 = Done wwan_encoders ∧
  ∃ order,
    encoders_text ExampleWwan.self order [] = Done wwan_encoders ∧ NoDup order ∧
    ∀ x, x ∈ order ↔
         is_struct_type (structs_and_unions (api ExampleWwan.self)) x ∧
         ∃ r, r ∈ root_structs (api_json (api ExampleWwan.self)) ∧
              rtc (dep (structs_and_unions (api ExampleWwan.self))) r x.
Proof.
  assert (_gen_encoding_functions ExampleWwan.self 8 = Done wwan_encoders) as H0
    by (vm_compute; reflexivity).
  split; [exact H0|].
  exact (encoding_functions_one_per_structure _ _ _ H0).
Defined.

(** X6. In the text returned by [_gen_encoding_functions], the function
    of a type comes after the functions of all the structures the type
    depends on, directly or through other types: every encoding function is
    defined before the functions that call it. *)
Theorem encoding_functions_defined_before_use self fuel out :
  _gen_encoding_functions self fuel = Done out →
  ∃ order,
    encoders_text self order [] = Done out ∧
    ∀ l1 x l2, order = l1 ++ x :: l2 →
      ∀ D, tc (dep (structs_and_unions (api self))) x D →
           is_struct_type (structs_and_unions (api self)) D → D ∈ l1.
Proof.
  intros Hrun.
  destruct (gen_encoding_functions_spec _ _ _ Hrun) as (order & Htext & _ & _ & Hord).
  exists order. split; [done|]. intros l1 x l2 -> D HD Hs.
  destruct (defined_before_use_split _ _ _ _ _ _ Hord HD Hs) as [Hin|Hin]; set_solver.
Qed.

Lemma encoding_functions_defined_before_use_witness :
  _gen_encoding_functions ExampleWwan.self 8 = Done wwan_encoders ∧
  ∃ order,
    encoders_text ExampleWwan.self order [] = Done wwan_encoders ∧
    ∀ l1 x l2, order = l1 ++ x :: l2 →
      ∀ D, tc (dep (structs_and_unions (api ExampleWwan.self))) x D →
           is_struct_type (structs_and_unions (api ExampleWwan.self)) D → D ∈ l1.
Proof.
  assert (_gen_encoding_functions ExampleWwan.self 8 = Done wwan_encoders) as H0
    by (vm_compute; reflexivity).
  split; [exact H0|].
  exact (encoding_functions_defined_before_use _ _ _ H0).
Defined.

(** X7. On a graph without dependency cycle [_gen_encoding_functions]
    ends: beyond a bound, the depth allowed to the recursion does not
    change what it returns or raises. *)
Theorem encoding_functions_terminate self :
  acyclic (structs_and_unions (api self)) →
  ∃ n r, r ≠ Timeout ∧ ∀ fuel, n ≤ fuel → _gen_encoding_functions self fuel = r.
Proof.
  intros [rank Hrank]%acyclic_rank.
  set (n := S (max_list_with rank (root_structs (api_json (api self))))).
  assert (∀ st r, r ∈ root_structs (api_json (api self)) →
            _gen_encoding_function self n r st ≠ Timeout) as Hnt.
  { intros st r Hr. apply (gen_encoding_function_no_timeout _ rank); [done|].
    pose proof (max_list_with_elem_of rank _ _ Hr). unfold n. lia. }
  clearbody n. exists n, (_gen_encoding_functions self n). split.
  - unfold _gen_encoding_functions. apply bind_no_timeout; [|done].
    apply (for_each_no_timeout _ (λ _, True)); [done|]. intros [out ag] r Hr _.
    split; [|done]. apply bind_no_timeout; [by apply Hnt|done].
  - intros fuel Hfuel. unfold _gen_encoding_functions. f_equal.
    assert (∀ l, l ⊆ root_structs (api_json (api self)) → ∀ st,
      for_each (λ st struct, let '(out, ag) := st in
                  sub ← _gen_encoding_function self fuel struct ag;
                  Done (out ++ sub.1, sub.2)) l st
      = for_each (λ st struct, let '(out, ag) := st in
                  sub ← _gen_encoding_function self n struct ag;
                  Done (out ++ sub.1, sub.2)) l st) as Heq; [|by apply Heq].
    induction l as [|r l IH]; intros Hl [out ag]; cbn; [done|].
    rewrite (gen_encoding_function_more_fuel _ n fuel) by (try apply Hnt; set_solver).
    destruct (_gen_encoding_function self n r ag) as [sub| |]; obind.
    refine (IH _ (out ++ sub.1, sub.2)). set_solver.
Qed.

Lemma encoding_functions_terminate_witness :
  acyclic (structs_and_unions (api ExampleWwan.self)) ∧
  ∃ n r, r ≠ Timeout ∧ ∀ fuel, n ≤ fuel → _gen_encoding_functions ExampleWwan.self fuel = r.
Proof.
  assert (acyclic (structs_and_unions (api ExampleWwan.self))) as H0.
  { exists ExampleOrder.rank. refine (bool_decide_unpack _ _). vm_compute. exact I. }
  split; [exact H0|]. exact (encoding_functions_terminate _ H0).
Defined.

(** X8. When a root structure depends, directly or not, on a type that
    depends on itself, as a structure with a pointer to its own type does,
    [_gen_encoding_functions] never returns code, however deep the
    recursion may go: a type is added to [already_generated] only after its
    dependencies have been handled. *)
Theorem encoding_functions_never_return_on_cycle self fuel r :
  r ∈ root_structs (api_json (api self)) →
  reaches_cycle (structs_and_unions (api self)) r →
  ∀ out, _gen_encoding_functions self fuel ≠ Done out.
Proof.
  intros Hr Hrc out. unfold _gen_encoding_functions.
  match goal with
  | |- (for_each ?b ?l ?s ≫= _) ≠ _ => destruct (for_each b l s) as [[out1 ag]| |] eqn:Hloop
  end; obind. exfalso.
  pose (I := λ (done : list string) (st : list string * gset string),
    (∀ y, y ∈ st.2 → ¬ reaches_cycle (structs_and_unions (api self)) y) ∧
    (∀ d, d ∈ done → ¬ reaches_cycle (structs_and_unions (api self)) d)).
  apply (for_each_inv _ I) in Hloop.
  - destruct Hloop as [_ Hdone]. by apply (Hdone r).
  - split; [set_solver|set_solver].
  - intros done r' [out2 ag2] [out3 ag3] _ [Hag2 Hdone] Hbody. cbn in Hag2, Hdone.
    destruct (_gen_encoding_function self fuel r' ag2) as [[out4 ag4]| |] eqn:Hcall;
      obind_in Hbody. cbn in Hbody. simplify_eq.
    apply gen_encoding_function_cycle in Hcall as [Hd Hag4]; [|done]. split; [done|]. cbn.
    intros d' [Hd'| ->%list_elem_of_singleton]%elem_of_app; auto.
Qed.

Lemma encoding_functions_never_return_on_cycle_witness :
  "chreWwanNode" ∈ root_structs (api_json (api ExampleCycle.self)) ∧
  reaches_cycle (structs_and_unions (api ExampleCycle.self)) "chreWwanNode" ∧
  ∀ out, _gen_encoding_functions ExampleCycle.self 1000 ≠ Done out.
Proof.
  assert ("chreWwanNode" ∈ root_structs (api_json (api ExampleCycle.self))) as H0.
  { apply list_elem_of_here. }
  assert (reaches_cycle (structs_and_unions (api ExampleCycle.self)) "chreWwanNode") as H1.
  { exists "chreWwanNode". split; [apply rtc_refl|]. apply tc_once.
    eexists. split; [vm_compute; reflexivity|].
    refine (bool_decide_unpack _ _). vm_compute. exact I. }
  split; [exact H0|]. split; [exact H1|].
  exact (encoding_functions_never_return_on_cycle _ 1000 _ H0 H1).
Defined.

(** ** The names of the generated functions *)

Lemma str_length_app (a b : string) :
  String.length (a +:+ b) = String.length a + String.length b.
Proof. induction a as [|x a IH]; simpl; [done|]. by rewrite IH. Qed.

Lemma str_app_inv_tail (a b c : string) : a +:+ c = b +:+ c → a = b.
Proof.
  revert b. induction a as [|x a IH]; intros [|y b] Heq; simpl in Heq.
  - done.
  - apply (f_equal String.length) in Heq. simpl in Heq. rewrite str_length_app in Heq. lia.
  - apply (f_equal String.length) in Heq. simpl in Heq. rewrite str_length_app in Heq. lia.
  - injection Heq as -> Heq. f_equal. by apply IH.
Qed.

Lemma startswith_app p s : Py.startswith (p +:+ s) p = true.
Proof.
  unfold Py.startswith. induction p as [|x p IH]; simpl; [by destruct s|].
  by destruct (ascii_dec x x).
Qed.

Lemma startswith_inv p s :
  Py.startswith s p = true → s = p +:+ Py.drop (String.length p) s.
Proof.
  unfold Py.startswith. revert s. induction p as [|x p IH]; intros s.
  - intros _. by destruct s.
  - destruct s as [|y s]; simpl; [done|]. destruct (ascii_dec x y) as [->|]; [|done].
    intros Hp. f_equal. by apply IH.
Qed.

Lemma drop_app p s : Py.drop (String.length p) (p +:+ s) = s.
Proof. induction p as [|x p IH]; simpl; [done|]. exact IH. Qed.

Lemma CodeGenerator_init_names a self :
  CodeGenerator_init a = Done self →
  ∃ c rest, service_name self = String c rest ∧
            capitalized_service_name self = String (Py.upper c) rest.
Proof.
  unfold CodeGenerator_init. destruct (default "" (head _)) as [|c rest]; [done|].
  intros [= <-]. by exists c, rest.
Qed.

Lemma strip_prefix_spec a self struct core :
  CodeGenerator_init a = Done self →
  (_strip_prefix_and_service_from_chre_struct_name self struct = Done core ↔
   struct = "chre" +:+ capitalized_service_name self +:+ core).
Proof.
  intros (c & rest & Hsn & Hcap)%CodeGenerator_init_names.
  unfold _strip_prefix_and_service_from_chre_struct_name. rewrite Hsn, Hcap.
  assert (String.length (String c rest) = String.length (String (Py.upper c) rest)) as Hlen
    by done.
  split.
  - destruct (Py.startswith struct "chre") eqn:H1; [|done].
    destruct (Py.startswith (Py.drop 4 struct) (String (Py.upper c) rest)) eqn:H2; [|done].
    cbn [negb orb]. intros [= <-].
    apply startswith_inv in H1. apply startswith_inv in H2.
    rewrite H1 at 1. f_equal. exact H2.
  - intros ->. rewrite startswith_app. change 4 with (String.length "chre").
    rewrite drop_app, startswith_app. cbn [negb orb]. f_equal.
    exact (drop_app (String (Py.upper c) rest) core).
Qed.



(** The names made of the service, a middle part and the core of the
    structure name tell the structures apart. *)
Lemma converter_name_inj a self (mid : string) s1 s2 n :
  CodeGenerator_init a = Done self →
  (core ← _strip_prefix_and_service_from_chre_struct_name self s1;
   Done ("chpp" +:+ capitalized_service_name self +:+ mid +:+ core +:+ "FromChre"))
  = Done n →
  (core ← _strip_prefix_and_service_from_chre_struct_name self s2;
   Done ("chpp" +:+ capitalized_service_name self +:+ mid +:+ core +:+ "FromChre"))
  = Done n → s1 = s2.
Proof.
  intros Hinit.
  destruct (_strip_prefix_and_service_from_chre_struct_name self s1) as [c1| |] eqn:H1;
    obind.
  destruct (_strip_prefix_and_service_from_chre_struct_name self s2) as [c2| |] eqn:H2;
    obind.
  intros [= <-] [= Heq].
  apply (strip_prefix_spec _ _ _ _ Hinit) in H1, H2. subst s1 s2.
  do 2 apply (inj (String.app _)) in Heq. apply str_app_inv_tail in Heq. by subst.
Qed.

(** X10. For a generator made by [CodeGenerator(api)], two structures
    never get the same name for their encoding functions, nor for their size
    functions, nor for their entry points: each of the three naming functions
    is injective where it returns a name. *)
Theorem function_names_are_injective a self s1 s2 n :
  CodeGenerator_init a = Done self →
  (_get_encoding_function_name self s1 = Done n →
   _get_encoding_function_name self s2 = Done n → s1 = s2) ∧
  (_get_chpp_sizeof_function_name self s1 = Done n →
   _get_chpp_sizeof_function_name self s2 = Done n → s1 = s2) ∧
  (_get_encode_allocation_function_name self s1 = Done n →
   _get_encode_allocation_function_name self s2 = Done n → s1 = s2).
Proof.
  intros Hinit. split_and!.
  - apply (converter_name_inj a self "Convert" s1 s2 n Hinit).
  - apply (converter_name_inj a self "SizeOf" s1 s2 n Hinit).
  - apply (converter_name_inj a self "" s1 s2 n Hinit).
Qed.

Lemma function_names_are_injective_witness :
  CodeGenerator_init ExampleWwan.parsed_api = Done ExampleWwan.self ∧
  _get_encoding_function_name ExampleWwan.self "chreWwanCellInfo"
  = Done "chppWwanConvertCellInfoFromChre" ∧
  "chreWwanCellInfo" = "chreWwanCellInfo".
Proof.
  assert (CodeGenerator_init ExampleWwan.parsed_api = Done ExampleWwan.self) as H0
    by (vm_compute; reflexivity).
  assert (_get_encoding_function_name ExampleWwan.self "chreWwanCellInfo"
          = Done "chppWwanConvertCellInfoFromChre") as H1 by (vm_compute; reflexivity).
  split; [exact H0|]. split; [exact H1|].
  exact (proj1 (function_names_are_injective _ _ "chreWwanCellInfo" "chreWwanCellInfo"
                  "chppWwanConvertCellInfoFromChre" H0) H1 H1).
Defined.



(** ** The graph of the parser and the parsed definitions *)

Section ParserFacts.

Variable defs : parser_defs.
Variable annotations : gmap string (gmap string (list annotation)).

Lemma parse_member_mirror type_name member e0 wl0 e wl :
  parse_member annotations type_name (e0, wl0) member = (e, wl) →
  members e = members e0 ++ [member_of annotations type_name member] ∧
  dependencies e = dependencies e0 ∪ list_to_set (nested_names [member]) ∧
  is_union e = is_union e0 ∧
  wl = reverse (nested_names [member]) ++ wl0.
Proof.
  destruct member as [member_name member_type]. unfold parse_member.
  fold (is_nested member_type). unfold nested_names, member_of. cbn.
  destruct (is_nested member_type); cbn; destruct (has_vla_member e0); cbn;
    intros [= <- <-]; cbn; split_and!; try done; set_solver.
Qed.

Lemma parse_members_mirror type_name mems e0 wl0 e wl :
  foldl (parse_member annotations type_name) (e0, wl0) mems = (e, wl) →
  members e = members e0 ++ (member_of annotations type_name <$> mems) ∧
  dependencies e = dependencies e0 ∪ list_to_set (nested_names mems) ∧
  is_union e = is_union e0 ∧
  wl = reverse (nested_names mems) ++ wl0.
Proof.
  revert e0 wl0. induction mems as [|member mems IH]; intros e0 wl0 Heq.
  - cbn in Heq. simplify_eq. cbn. split_and!; [by rewrite app_nil_r|set_solver|done|done].
  - change (foldl (parse_member annotations type_name)
                  (parse_member annotations type_name (e0, wl0) member)
                  mems = (e, wl)) in Heq.
    destruct (parse_member annotations type_name (e0, wl0) member) as [e1 wl1] eqn:Hm.
    destruct (IH _ _ Heq) as (Hmem & Hdep & Hu & Hwl).
    apply parse_member_mirror in Hm as (Hmem1 & Hdep1 & Hu1 & Hwl1).
    assert (nested_names (member :: mems) = nested_names [member] ++ nested_names mems)
      as Hnn.
    { unfold nested_names. cbn. by destruct (is_nested member.2). }
    rewrite Hnn. split_and!.
    + rewrite Hmem, Hmem1, <- app_assoc. done.
    + rewrite Hdep, Hdep1, list_to_set_app_L. set_solver.
    + congruence.
    + rewrite Hwl, Hwl1, reverse_app, <- app_assoc. done.
Qed.

Lemma parse_inv_skip roots type_name rest g :
  parse_inv defs annotations roots (type_name :: rest) g →
  is_Some (dict_get g type_name) →
  parse_inv defs annotations roots rest g.
Proof.
  intros (Hmir & Hwl & Hkeys & Hroots) Hm. split_and!; try done.
  - intros w Hw. apply Hwl. set_solver.
  - intros r Hr. destruct (Hroots r Hr) as [[->|?]%elem_of_cons|?]; auto.
Qed.

Lemma parse_inv_insert roots type_name rest g u mems e wl' :
  parse_inv defs annotations roots (type_name :: rest) g →
  definition_of defs type_name = Some (u, mems) →
  foldl (parse_member annotations type_name)
        (set_is_union u (Entry ∅ ∅ false [] false), rest) mems = (e, wl') →
  parse_inv defs annotations roots wl' (dict_set g type_name e).
Proof.
  intros (Hmir & Hwl & Hkeys & Hroots) Hdef Hfold.
  apply parse_members_mirror in Hfold as (Hmem & Hdep & Hu & ->). cbn in Hmem, Hdep, Hu.
  rewrite (left_id_L ∅ (∪)) in Hdep.
  assert (needed defs roots type_name) as Hn by (apply Hwl; set_solver).
  unfold parse_inv, dict_get, dict_set. cbn. split_and!.
  - intros T e'. destruct (decide (type_name = T)) as [->|Hne].
    + rewrite lookup_insert_eq. intros [= <-]. exists mems. rewrite Hu.
      split_and!; [done|done|done].
    + rewrite lookup_insert_ne by done. apply Hmir.
  - intros w [Hw|Hw]%elem_of_app.
    + rewrite elem_of_reverse in Hw. destruct Hn as (r & Hr & Hrt). exists r.
      split; [done|]. eapply rtc_r; [done|]. by exists u, mems.
    + apply Hwl. set_solver.
  - intros T. destruct (decide (type_name = T)) as [->|Hne]; [done|].
    rewrite lookup_insert_ne by done. apply Hkeys.
  - intros r Hr. destruct (Hroots r Hr) as [[->|?]%elem_of_cons|[e' He']].
    + right. rewrite lookup_insert_eq. by eexists.
    + left. set_solver.
    + right. destruct (decide (type_name = r)) as [->|Hne].
      * rewrite lookup_insert_eq. by eexists.
      * rewrite lookup_insert_ne by done. by eexists.
Qed.

(** One turn of the work-list loop, by cases on the name taken off the
    list *)
Lemma parse_loop_step fuel type_name rest g :
  parse_loop defs annotations (S fuel) (type_name :: rest) g
  = if dict_mem g type_name then parse_loop defs annotations fuel rest g
    else match definition_of defs type_name with
         | Some (u, mems) =>
             let st := foldl (parse_member annotations type_name)
                         (set_is_union u (Entry ∅ ∅ false [] false), rest) mems in
             parse_loop defs annotations fuel st.2 (dict_set g type_name st.1)
         | None => Raise (TypeNotFound type_name)
         end.
Proof.
  cbn. destruct (dict_mem g type_name); [done|]. unfold definition_of.
  destruct (structs defs !! type_name) as [mems|].
  - by destruct (foldl _ _ mems).
  - destruct (unions defs !! type_name) as [mems|]; [|done]. by destruct (foldl _ _ mems).
Qed.

Lemma parse_loop_inv roots fuel wl g g' :
  parse_inv defs annotations roots wl g →
  parse_loop defs annotations fuel wl g = Done g' →
  parse_inv defs annotations roots [] g'.
Proof.
  revert wl g. induction fuel as [|fuel IH]; intros wl g Hinv Hrun.
  - destruct wl; cbn in Hrun; [by simplify_eq|done].
  - destruct wl as [|type_name rest]; [cbn in Hrun; by simplify_eq|].
    rewrite parse_loop_step in Hrun. destruct (dict_mem g type_name) eqn:Hm.
    + apply dict_mem_true in Hm. apply (IH rest g); [|done]. by eapply parse_inv_skip.
    + destruct (definition_of defs type_name) as [[u mems]|] eqn:Hdef; [|done].
      destruct (foldl _ _ mems) as [e wl'] eqn:Hfold. cbn in Hrun.
      apply (IH wl' (dict_set g type_name e)); [|done]. by eapply parse_inv_insert.
Qed.

(** The only error of the work-list loop is that of a name without
    definition. *)
Lemma parse_loop_raise_undefined roots fuel wl g e :
  parse_inv defs annotations roots wl g →
  parse_loop defs annotations fuel wl g = Raise e →
  ∃ T, e = TypeNotFound T ∧ definition_of defs T = None ∧ needed defs roots T.
Proof.
  revert wl g. induction fuel as [|fuel IH]; intros wl g Hinv Hrun.
  - by destruct wl.
  - destruct wl as [|type_name rest]; [done|].
    rewrite parse_loop_step in Hrun. destruct (dict_mem g type_name) eqn:Hm.
    + apply dict_mem_true in Hm. apply (IH rest g); [|done]. by eapply parse_inv_skip.
    + destruct (definition_of defs type_name) as [[u mems]|] eqn:Hdef.
      * destruct (foldl _ _ mems) as [e' wl'] eqn:Hfold. cbn in Hrun.
        apply (IH wl' (dict_set g type_name e')); [|done]. by eapply parse_inv_insert.
      * simplify_eq. exists type_name. split_and!; [done|done|].
        destruct Hinv as (_ & Hwl & _). apply Hwl. set_solver.
Qed.

Lemma parse_inv_start roots : parse_inv defs annotations roots (reverse roots) dict_empty.
Proof.
  unfold parse_inv, dict_get. cbn. split_and!.
  - intros T e. by rewrite lookup_empty.
  - intros w Hw. rewrite elem_of_reverse in Hw. exists w. split; [done|apply rtc_refl].
  - intros T [e He]. by rewrite lookup_empty in He.
  - intros r Hr. left. by rewrite elem_of_reverse.
Qed.

End ParserFacts.

(** *** The work-list loop ends *)

Section ParserEnds.

Variable defs : parser_defs.
Variable annotations : gmap string (gmap string (list annotation)).

Lemma definition_of_bounds T u mems :
  definition_of defs T = Some (u, mems) →
  T ∈ defined_names defs ∧ length mems ≤ max_members defs.
Proof.
  unfold definition_of, defined_names, max_members. intros Hdef.
  destruct (structs defs !! T) as [ms|] eqn:Hs.
  - simplify_eq. split; [apply elem_of_union_l; by apply elem_of_dom|].
    apply (max_list_with_elem_of (λ p : string * list (string * ctype), length p.2) _ (T, mems)).
    apply elem_of_app. left. by apply elem_of_map_to_list.
  - destruct (unions defs !! T) as [ms|] eqn:Hu; [|done]. simplify_eq.
    split; [apply elem_of_union_r; by apply elem_of_dom|].
    apply (max_list_with_elem_of (λ p : string * list (string * ctype), length p.2) _ (T, mems)).
    apply elem_of_app. right. by apply elem_of_map_to_list.
Qed.

Lemma nested_names_length mems : length (nested_names mems) ≤ length mems.
Proof.
  unfold nested_names. induction mems as [|m mems IH]; cbn; [done|].
  destruct (is_nested m.2); cbn; lia.
Qed.

Lemma parse_loop_no_timeout fuel wl g :
  length wl + size (defined_names defs ∖ dom (dtable g)) * S (max_members defs) ≤ fuel →
  parse_loop defs annotations fuel wl g ≠ Timeout.
Proof.
  revert wl g. induction fuel as [|fuel IH]; intros wl g Hfuel.
  - destruct wl; [done|]. cbn in Hfuel. lia.
  - destruct wl as [|type_name rest]; [done|]. rewrite parse_loop_step.
    cbn [length] in Hfuel. destruct (dict_mem g type_name) eqn:Hm.
    + apply IH. lia.
    + apply dict_mem_false in Hm.
      destruct (definition_of defs type_name) as [[u mems]|] eqn:Hdef; [|done].
      destruct (foldl _ _ mems) as [e wl'] eqn:Hfold. cbn.
      apply parse_members_mirror in Hfold as (_ & _ & _ & ->).
      apply definition_of_bounds in Hdef as [Hin Hlen]. apply IH.
      pose proof (nested_names_length mems).
      rewrite length_app, length_reverse.
      assert (defined_names defs ∖ dom (dtable (dict_set g type_name e))
              ⊂ defined_names defs ∖ dom (dtable g)) as Hsub.
      { unfold dict_set. cbn. rewrite dom_insert_L.
        apply not_elem_of_dom in Hm. set_solver. }
      apply subset_size in Hsub.
      set (k' := size (defined_names defs ∖ dom (dtable (dict_set g type_name e)))) in *.
      set (k := size (defined_names defs ∖ dom (dtable g))) in *.
      assert (k' * S (max_members defs) + S (max_members defs) ≤ k * S (max_members defs));
        [|lia].
      transitivity (S k' * S (max_members defs)); [lia|].
      apply Nat.mul_le_mono_r. lia.
Qed.

Lemma parse_loop_more_fuel fuel fuel' wl g :
  parse_loop defs annotations fuel wl g ≠ Timeout → fuel ≤ fuel' →
  parse_loop defs annotations fuel' wl g = parse_loop defs annotations fuel wl g.
Proof.
  revert fuel' wl g. induction fuel as [|fuel IH]; intros fuel' wl g Hrun Hle.
  - destruct wl; [by destruct fuel'|done].
  - destruct fuel' as [|fuel']; [lia|]. destruct wl as [|type_name rest]; [done|].
    rewrite !parse_loop_step in *. destruct (dict_mem g type_name); [apply IH; [done|lia]|].
    destruct (definition_of defs type_name) as [[u mems]|]; [|done].
    apply IH; [done|lia].
Qed.

End ParserEnds.

(** X12. The work-list loop of [_parse_structs_and_unions] never runs for
    ever, also when the definitions refer to each other in a cycle: once the
    number of turns allowed reaches the number of root structures plus, for
    each defined name, one more than the largest number of members of a
    definition, the loop has ended and more turns change nothing. *)
Theorem work_list_loop_terminates defs annotations roots :
  ∃ r, r ≠ Timeout ∧
    ∀ fuel,
      length roots + size (defined_names defs) * S (max_members defs) ≤ fuel →
      parse_loop defs annotations fuel (reverse roots) dict_empty = r.
Proof.
  set (n := length roots + size (defined_names defs) * S (max_members defs)).
  assert (parse_loop defs annotations n (reverse roots) dict_empty ≠ Timeout) as Hnt.
  { apply parse_loop_no_timeout. unfold n, dict_empty. cbn.
    rewrite length_reverse, dom_empty_L, difference_empty_L. done. }
  exists (parse_loop defs annotations n (reverse roots) dict_empty). split; [done|].
  intros fuel Hfuel. by apply parse_loop_more_fuel.
Qed.

(** *** The graph returned by the parser *)

Lemma parse_phases_run fuel defs annotations json g :
  _parse_structs_and_unions fuel defs annotations json = Done g →
  ∃ g0, parse_loop defs annotations fuel (reverse (root_structs json)) dict_empty = Done g0 ∧
        built [] g0 ∧ graph_rel (finished g0) g0 g.
Proof.
  unfold _parse_structs_and_unions. intros Hrun.
  destruct (parse_loop _ _ _ _ _) as [g0| |] eqn:H0; cbn in Hrun; try done.
  destruct (link_reverse g0) as [g1| |] eqn:H1; cbn in Hrun; try done.
  pose proof (parse_loop_built _ _ _ _ _ _ (built_empty _) H0) as Hb.
  exists g0. split_and!; [done|done|]. by eapply parse_phases.
Qed.

Lemma ApiParser_init_run fuel defs json a :
  ApiParser_init fuel defs json = Done a →
  api_json a = json ∧ api_annotations a = _parse_annotations json ∧
  _parse_structs_and_unions fuel defs (_parse_annotations json) json
  = Done (structs_and_unions a).
Proof.
  unfold ApiParser_init.
  destruct (_parse_structs_and_unions _ _ _ _) as [g| |]; cbn; try done.
  by intros [= <-].
Qed.

Lemma parsed_graph_facts fuel defs json a :
  ApiParser_init fuel defs json = Done a →
  (∀ T e, dict_get (structs_and_unions a) T = Some e →
          mirrors defs (api_annotations a) T e) ∧
  (∀ T, is_Some (dict_get (structs_and_unions a) T) ↔ needed defs (root_structs json) T).
Proof.
  intros (_ & -> & Hrun)%ApiParser_init_run.
  apply parse_phases_run in Hrun as (g0 & H0 & [_ Hb] & Hrel).
  pose proof (parse_loop_inv _ _ _ _ _ _ _ (parse_inv_start _ _ _) H0)
    as (Hmir & _ & Hkeys & Hroots).
  split.
  - intros T e He.
    destruct (graph_rel_lookup _ _ _ _ _ Hrel He) as (e0 & He0 & ((Hd & Hm & Hu) & _)).
    destruct (Hmir T e0 He0) as (mems & Hdef & Hmem & Hdep).
    exists mems. rewrite Hu, Hm, Hd. done.
  - intros T. unfold dict_get. rewrite (graph_rel_is_Some _ _ _ T Hrel).
    split; [apply Hkeys|]. intros (r & Hr & Hrt).
    assert (is_Some (dict_get g0 r)) as Hrkey.
    { destruct (Hroots r Hr) as [?%elem_of_nil|?]; done. }
    clear Hr. induction Hrt as [|r y T (u & mems & Hdef & Hy) _ IH]; [done|].
    apply IH. destruct Hrkey as [e He].
    destruct (Hmir r e He) as (mems' & Hdef' & _ & Hdep).
    destruct (Hb r e He) as [_ Hcl].
    destruct (Hcl y) as [?|?%elem_of_nil]; [|done..].
    rewrite Hdep. apply elem_of_list_to_set. by simplify_eq.
Qed.

(** X13. Each entry of the graph of an [ApiParser] describes the parsed
    definition of its type: the definition is that of the structure of this
    name if there is one and else that of the union, which [is_union] tells;
    the members are those of the definition, in order, each with its type,
    the annotations of its field and the name of the structure or union it is
    made of; and [dependencies] is the set of these names. *)
Theorem parser_entries_mirror_definitions fuel defs json a T e :
  ApiParser_init fuel defs json = Done a →
  dict_get (structs_and_unions a) T = Some e →
  mirrors defs (api_annotations a) T e.
Proof.
  intros Hrun He. destruct (parsed_graph_facts _ _ _ _ Hrun) as [Hmir _].
  by apply Hmir.
Qed.

Lemma parser_entries_mirror_definitions_witness :
  ApiParser_init 8 ExampleWwan.defs ExampleWwan.json = Done ExampleWwan.parsed_api ∧
  dict_get (structs_and_unions ExampleWwan.parsed_api) "chreWwanCellInfoResult"
  = Some ExampleWwan.result_info ∧
  mirrors ExampleWwan.defs (api_annotations ExampleWwan.parsed_api)
    "chreWwanCellInfoResult" ExampleWwan.result_info.
Proof.
  assert (ApiParser_init 8 ExampleWwan.defs ExampleWwan.json = Done ExampleWwan.parsed_api)
    as H0 by (vm_compute; reflexivity).
  assert (dict_get (structs_and_unions ExampleWwan.parsed_api) "chreWwanCellInfoResult"
          = Some ExampleWwan.result_info) as H1 by (vm_compute; reflexivity).
  split; [exact H0|]. split; [exact H1|].
  exact (parser_entries_mirror_definitions _ _ _ _ _ _ H0 H1).
Defined.

(** X14. The graph of an [ApiParser] holds the root structures and the
    types that a root structure is made of, directly or through other types,
    and no other type. *)
Theorem parser_graph_holds_needed_types fuel defs json a T :
  ApiParser_init fuel defs json = Done a →
  (is_Some (dict_get (structs_and_unions a) T) ↔ needed defs (root_structs json) T).
Proof.
  intros Hrun. destruct (parsed_graph_facts _ _ _ _ Hrun) as [_ Hkeys].
  apply Hkeys.
Qed.

Lemma parser_graph_holds_needed_types_witness :
  ApiParser_init 8 ExampleWwan.defs ExampleWwan.json = Done ExampleWwan.parsed_api ∧
  (is_Some (dict_get (structs_and_unions ExampleWwan.parsed_api) "chreWwanGsm") ↔
   needed ExampleWwan.defs (root_structs ExampleWwan.json) "chreWwanGsm").
Proof.
  assert (ApiParser_init 8 ExampleWwan.defs ExampleWwan.json = Done ExampleWwan.parsed_api)
    as H0 by (vm_compute; reflexivity).
  split; [exact H0|].
  exact (parser_graph_holds_needed_types _ _ _ _ "chreWwanGsm" H0).
Defined.

(** X15. In the graph of an [ApiParser], [appears_in] is the reverse of
    [dependencies]: a type [U] is in the [appears_in] set of [T] exactly when
    [T] is in the [dependencies] set of [U]; and every dependency is a type
    of the graph. *)
Theorem appears_in_reverses_dependencies fuel defs json a :
  ApiParser_init fuel defs json = Done a →
  (∀ T e, dict_get (structs_and_unions a) T = Some e →
     ∀ U, U ∈ appears_in e ↔ dep (structs_and_unions a) U T) ∧
  (∀ U T, dep (structs_and_unions a) U T → is_Some (dict_get (structs_and_unions a) T)).
Proof.
  intros (_ & _ & Hrun)%ApiParser_init_run.
  apply parse_structs_and_unions_parsed in Hrun as [_ Hclosed Happ _]. by split.
Qed.

Lemma appears_in_reverses_dependencies_witness :
  ApiParser_init 8 ExampleWwan.defs ExampleWwan.json = Done ExampleWwan.parsed_api ∧
  (∀ T e, dict_get (structs_and_unions ExampleWwan.parsed_api) T = Some e →
     ∀ U, U ∈ appears_in e ↔ dep (structs_and_unions ExampleWwan.parsed_api) U T).
Proof.
  assert (ApiParser_init 8 ExampleWwan.defs ExampleWwan.json = Done ExampleWwan.parsed_api)
    as H0 by (vm_compute; reflexivity).
  split; [exact H0|].
  exact (proj1 (appears_in_reverses_dependencies _ _ _ _ H0)).
Defined.

(** *** The errors of the parser *)

Lemma for_each_no_raise {S A} (body : S → A → outcome S) (I : S → Prop) l s e :
  I s →
  (∀ s x, x ∈ l → I s → body s x ≠ Raise e ∧ ∀ s', body s x = Done s' → I s') →
  for_each body l s ≠ Raise e.
Proof.
  revert s. induction l as [|x l IH]; intros s Hs Hstep; cbn; [done|].
  destruct (Hstep s x) as [Hnr Hnext]; [set_solver|done|].
  destruct (body s x) as [s'| |]; cbn; [|done|done].
  apply IH; [by apply Hnext|]. intros s0 y Hy. apply Hstep. set_solver.
Qed.

Lemma links_closed_marked F g g' :
  graph_rel (marked F) g g' → links_closed g → links_closed g'.
Proof.
  intros Hrel Hcl X e' HX P HP.
  destruct (graph_rel_lookup _ _ _ _ _ Hrel HX) as (e & He & (_ & Ha & _)).
  rewrite (graph_rel_is_Some _ _ _ P Hrel). apply (Hcl X e He). by rewrite <- Ha.
Qed.

Lemma mark_loop_no_raise fuel wl g e :
  links_closed g → (∀ w, w ∈ wl → is_Some (dtable g !! w)) →
  mark_loop fuel wl g ≠ Raise e.
Proof.
  revert wl g. induction fuel as [|fuel IH]; intros wl g Hcl Hwl; [by destruct wl|].
  destruct wl as [|t rest]; [done|]. cbn. unfold dict_get.
  destruct (Hwl t) as [et Ht]; [set_solver|]. rewrite Ht.
  pose proof (mark_step_rel t g) as Hrel. apply IH.
  - by eapply links_closed_marked.
  - intros w Hw. rewrite (graph_rel_is_Some _ _ _ w Hrel).
    apply elem_of_app in Hw as [Hw|Hw]; [|apply Hwl; set_solver].
    rewrite elem_of_reverse, elem_of_elements in Hw. by apply (Hcl t et).
Qed.

Lemma bubble_up_no_raise fuel g e :
  dict_wf g → links_closed g → bubble_up fuel g ≠ Raise e.
Proof.
  intros Hwf Hcl. unfold bubble_up.
  apply (for_each_no_raise _
    (λ g1, links_closed g1 ∧ ∀ X, is_Some (dtable g1 !! X) ↔ is_Some (dtable g !! X)));
    [done|].
  intros g1 x Hx [Hcl1 Hkeys1]. apply Hwf in Hx. apply Hkeys1 in Hx as [e1 He1].
  unfold dict_item. rewrite He1. cbn. destruct (has_vla_member e1); [|by split; [|intros ? [= <-]]].
  split.
  - apply mark_loop_no_raise; [done|]. intros w Hw.
    rewrite elem_of_reverse, elem_of_elements in Hw. by apply (Hcl1 x e1).
  - intros g2 Hrun.
    destruct (mark_loop_spec (appears_in_of g1) _ _ _ _ (agrees_appears_in_of g1) Hrun)
      as [Hrel _].
    split; [by eapply links_closed_marked|].
    intros X. rewrite (graph_rel_is_Some _ _ _ X Hrel). apply Hkeys1.
Qed.

Lemma linked_links_closed g0 g1 :
  built [] g0 → graph_rel (linked (dep g0)) g0 g1 → links_closed g1.
Proof.
  intros [Hwf Hb] Hrel X e1 HX P HP.
  destruct (graph_rel_lookup _ _ _ _ _ Hrel HX) as (e0 & He0 & (_ & _ & Ha)).
  apply Ha in HP. destruct (Hb X e0 He0) as [[Hemp _] _]. rewrite Hemp in HP.
  destruct HP as [?%elem_of_empty|(eP & HeP & _)]; [done|].
  rewrite (graph_rel_is_Some _ _ _ P Hrel). by exists eP.
Qed.

(** X16. The error of [ApiParser] for a type that is not found tells the
    truth: when it is raised for a name, this name has no definition, neither
    as a structure nor as a union, and it is a root structure or the type of
    a member of a type that a root structure is made of; and whenever such a
    name exists, [ApiParser] returns no object. *)
Theorem parser_type_error_is_accurate fuel defs json :
  (∀ T, ApiParser_init fuel defs json = Raise (TypeNotFound T) →
        definition_of defs T = None ∧ needed defs (root_structs json) T) ∧
  (∀ T a, needed defs (root_structs json) T → definition_of defs T = None →
          ApiParser_init fuel defs json ≠ Done a).
Proof.
  split.
  - intros T. unfold ApiParser_init, _parse_structs_and_unions.
    destruct (parse_loop _ _ _ _ _) as [g0|e0|] eqn:H0; cbn; [| |done].
    + pose proof (parse_loop_built _ _ _ _ _ _ (built_empty _) H0) as Hb.
      destruct (link_reverse_spec g0 Hb) as (g1 & -> & Hrel). cbn.
      pose proof (bubble_up_no_raise fuel g1 (TypeNotFound T)
                    (graph_rel_wf _ _ _ Hrel (proj1 Hb))
                    (linked_links_closed _ _ Hb Hrel)) as Hnr.
      destruct (bubble_up fuel g1) as [g2|e2|]; cbn; [done| |done].
      intros [= ->]. done.
    + intros [= ->].
      apply (parse_loop_raise_undefined _ _ (root_structs json)) in H0
        as (T' & [= <-] & ? & ?); [done|apply parse_inv_start].
  - intros T a Hneeded Hdef Hrun.
    destruct (parsed_graph_facts _ _ _ _ Hrun) as [Hmir Hkeys].
    apply Hkeys in Hneeded as [e He].
    destruct (Hmir T e He) as (mems & Hdef' & _). congruence.
Qed.

Lemma parser_type_error_is_accurate_witness :
  ApiParser_init 4 ExampleMissing.defs ExampleMissing.json
  = Raise (TypeNotFound "chreWwanAbsent") ∧
  definition_of ExampleMissing.defs "chreWwanAbsent" = None ∧
  needed ExampleMissing.defs (root_structs ExampleMissing.json) "chreWwanAbsent".
Proof.
  assert (ApiParser_init 4 ExampleMissing.defs ExampleMissing.json
          = Raise (TypeNotFound "chreWwanAbsent")) as H0 by (vm_compute; reflexivity).
  split; [exact H0|].
  exact (proj1 (parser_type_error_is_accurate 4 ExampleMissing.defs
                  ExampleMissing.json) _ H0).
Defined.

(** *** A cycle above a variable-length array *)

Lemma cycle_path_step {X} (R : relation X) y :
  (∃ s, rtc R y s ∧ tc R s s) → ∃ d, R y d ∧ ∃ s, rtc R d s ∧ tc R s s.
Proof.
  intros (s & Hys & Hss). apply rtc_tc in Hys as [->|Hys].
  - apply tc_first_step in Hss as (d & Hd & Hds). exists d. split; [done|].
    exists s. split; [done|]. by eapply tc_rtc_r; [apply tc_once|].
  - apply tc_first_step in Hys as (d & Hd & Hds). exists d. split; [done|]. by exists s.
Qed.

Lemma tc_reverse {X} (R R' : relation X) x y :
  (∀ a b, R a b → R' b a) → tc R x y → tc R' y x.
Proof.
  intros Hsub. induction 1 as [x y H|x y z H _ IH]; [apply tc_once; auto|].
  eapply tc_r; [exact IH|auto].
Qed.

(** The inner loop of the propagation never ends with a work list that
    holds a type from which a cycle of [appears_in] links can be reached. *)
Lemma mark_loop_never_done A fuel wl g g' :
  agrees A g →
  (∃ w, w ∈ wl ∧ ∃ s, rtc (up A) w s ∧ tc (up A) s s) →
  mark_loop fuel wl g ≠ Done g'.
Proof.
  revert wl g. induction fuel as [|fuel IH]; intros wl g HA (w & Hw & Hbad).
  - destruct wl; [by apply elem_of_nil in Hw|done].
  - destruct wl as [|t rest]; [by apply elem_of_nil in Hw|]. cbn. unfold dict_get.
    destruct (dtable g !! t) as [e|] eqn:Ht; [|done].
    apply IH; [by eapply marked_agrees; [apply mark_step_rel|]|].
    rewrite (HA t e Ht). apply elem_of_cons in Hw as [->|Hw].
    + apply cycle_path_step in Hbad as (P & HP & Hbad). exists P. split; [|done].
      rewrite elem_of_app, elem_of_reverse, elem_of_elements. by left.
    + exists w. split; [set_solver|done].
Qed.

(** X17. When a type with a member annotated [var_len_array] is a
    dependency, direct or not, of a type that depends on itself, as a
    structure with a pointer to its own type does,
    [_parse_structs_and_unions] never returns: the loop that marks the types
    a type appears in goes round the cycle without end. *)
Theorem parser_never_returns_on_vla_cycle fuel0 defs annotations json g0 T D eD :
  parse_loop defs annotations fuel0 (reverse (root_structs json)) dict_empty = Done g0 →
  tc (dep g0) T T → rtc (dep g0) T D →
  dict_get g0 D = Some eD → has_direct_vla eD = true →
  ∀ fuel g, _parse_structs_and_unions fuel defs annotations json ≠ Done g.
Proof.
  intros H0 Hcycle HTD HD Hvla fuel g Hrun. unfold _parse_structs_and_unions in Hrun.
  destruct (parse_loop defs annotations fuel _ _) as [g0'| |] eqn:H0'; obind_in Hrun.
  assert (g0' = g0) as ->.
  { destruct (Nat.le_ge_cases fuel fuel0) as [Hle|Hle].
    - apply (parse_loop_fuel_mono _ _ _ fuel0) in H0'; [congruence|done].
    - apply (parse_loop_fuel_mono _ _ _ fuel) in H0; [congruence|done]. }
  pose proof (parse_loop_built _ _ _ _ _ _ (built_empty _) H0) as Hb.
  destruct (link_reverse_spec g0 Hb) as (g1 & Hlink & Hrel). rewrite Hlink in Hrun.
  obind_in Hrun.
  pose proof (graph_rel_wf _ _ _ Hrel (proj1 Hb)) as Hwf1.
  pose proof (up_is_dep g0 g1 Hb Hrel) as Hup.
  set (A := appears_in_of g1) in *.
  assert (∃ s, rtc (up A) D s ∧ tc (up A) s s) as Hbad.
  { exists T. split.
    - apply rtc_flip in HTD. eapply rtc_subrel; [|exact HTD]. intros x y Hxy. by apply Hup.
    - eapply tc_reverse; [|exact Hcycle]. intros x y Hxy. by apply Hup. }
  destruct (graph_rel_lookup_l _ _ _ _ _ Hrel HD) as (e1 & H1 & (_ & Hv1 & _)).
  assert (flagged g1 D) as Hfl.
  { exists e1. split; [done|]. rewrite Hv1.
    destruct Hb as [_ Hb]. destruct (Hb D eD HD) as [[_ ->] _]. done. }
  assert (D ∈ dkeys g1) as HDkey by (apply Hwf1; by exists e1).
  unfold bubble_up in Hrun.
  pose (I := λ (done : list string) (g2 : dict entry),
    agrees A g2 ∧ flagged g2 D ∧ D ∉ done).
  apply (for_each_inv _ I) in Hrun.
  - by destruct Hrun as (_ & _ & ?).
  - split_and!; [apply agrees_appears_in_of|done|set_solver].
  - intros done x g2 g3 _ (HA & Hfl2 & Hnot) Hbody.
    unfold dict_item in Hbody.
    destruct (dtable g2 !! x) as [e2|] eqn:Hx; obind_in Hbody.
    destruct (decide (x = D)) as [->|Hne].
    + exfalso. destruct Hfl2 as (e2' & He2' & Hv2). simplify_eq. rewrite Hv2 in Hbody.
      revert Hbody. apply mark_loop_never_done with (A := A); [done|].
      apply cycle_path_step in Hbad as (P & HP & Hbad). exists P. split; [|done].
      rewrite (HA D e2' He2'), elem_of_reverse, elem_of_elements. done.
    + assert (D ∉ done ++ [x]) as Hnot' by set_solver.
      destruct (has_vla_member e2); [|by simplify_eq].
      destruct (mark_loop_spec A _ _ _ _ HA Hbody) as [Hrel2 _].
      split_and!; [by eapply marked_agrees| |done].
      apply (marked_flagged _ _ _ D Hrel2). by left.
Qed.

Lemma parser_never_returns_on_vla_cycle_witness :
  parse_loop ExampleVlaCycle.defs (_parse_annotations ExampleVlaCycle.json) 4
    (reverse (root_structs ExampleVlaCycle.json)) dict_empty
  = Done ExampleVlaCycle.built_graph ∧
  tc (dep ExampleVlaCycle.built_graph) "chreWwanChain" "chreWwanChain" ∧
  dict_get ExampleVlaCycle.built_graph "chreWwanChain" = Some ExampleVlaCycle.info ∧
  has_direct_vla ExampleVlaCycle.info = true ∧
  ∀ fuel g,
    _parse_structs_and_unions fuel ExampleVlaCycle.defs
      (_parse_annotations ExampleVlaCycle.json) ExampleVlaCycle.json ≠ Done g.
Proof.
  assert (parse_loop ExampleVlaCycle.defs (_parse_annotations ExampleVlaCycle.json) 4
            (reverse (root_structs ExampleVlaCycle.json)) dict_empty
          = Done ExampleVlaCycle.built_graph) as H0 by (vm_compute; reflexivity).
  assert (dict_get ExampleVlaCycle.built_graph "chreWwanChain" = Some ExampleVlaCycle.info)
    as H1 by (vm_compute; reflexivity).
  assert (tc (dep ExampleVlaCycle.built_graph) "chreWwanChain" "chreWwanChain") as H2.
  { apply tc_once. exists ExampleVlaCycle.info. split; [exact H1|].
    refine (bool_decide_unpack _ _). vm_compute. exact I. }
  assert (has_direct_vla ExampleVlaCycle.info = true) as H3 by (vm_compute; reflexivity).
  split; [exact H0|]. split; [exact H2|]. split; [exact H1|]. split; [exact H3|].
  exact (parser_never_returns_on_vla_cycle _ _ _ _ _ _ _ _ H0 H2 (rtc_refl _ _) H1 H3).
Defined.

(** ** The annotations *)

Lemma annotations_append_lookup name a acc s f :
  annotations_lookup (annotations_append name a acc) s f
  = annotations_lookup acc s f ++ (if decide (s = name ∧ f = field a) then [a] else []).
Proof.
  unfold annotations_append, annotations_lookup.
  destruct (decide (s = name)) as [->|Hs].
  - rewrite lookup_insert_eq. destruct (decide (f = field a)) as [->|Hf].
    + rewrite lookup_insert_eq. cbn. by rewrite decide_True.
    + rewrite lookup_insert_ne by done. rewrite decide_False by naive_solver.
      rewrite app_nil_r. destruct (acc !! name); [done|]. cbn. by rewrite lookup_empty.
  - rewrite lookup_insert_ne by done. rewrite decide_False by naive_solver.
    by rewrite app_nil_r.
Qed.

Lemma annotations_fold_lookup name annotations acc s f :
  annotations_lookup
    (foldl (λ acc a, annotations_append name a acc) acc annotations) s f
  = annotations_lookup acc s f
    ++ (if decide (s = name) then filter (λ a, field a = f) annotations else []).
Proof.
  revert acc. induction annotations as [|a rest IH]; intros acc; cbn [foldl].
  - destruct (decide (s = name)); by rewrite app_nil_r.
  - rewrite IH, annotations_append_lookup, <- app_assoc. f_equal.
    destruct (decide (s = name)) as [->|Hs].
    + rewrite filter_cons. destruct (decide (field a = f)) as [<-|Hf].
      * by rewrite decide_True.
      * by rewrite decide_False by naive_solver.
    + by rewrite decide_False by naive_solver.
Qed.

(** X18. [_parse_annotations] files the annotations by structure and by
    field: what is read under a structure name and a field name is the list
    of the annotations that name this field in the elements of [struct_info]
    with this structure name, in the order of the file, and the empty list
    when there is none. *)
Theorem parse_annotations_groups_by_struct_and_field json struct field_name :
  annotations_lookup (_parse_annotations json) struct field_name
  = annotations_of json struct field_name.
Proof.
  unfold _parse_annotations, annotations_of.
  assert (∀ infos acc,
    annotations_lookup
      (foldl (λ acc info,
                foldl (λ acc a, annotations_append (si_name info) a acc)
                      acc (si_annotations info)) acc infos) struct field_name
    = annotations_lookup acc struct field_name
      ++ filter (λ a, field a = field_name)
           (concat (si_annotations <$> filter (λ i, si_name i = struct) infos))) as Hgen.
  { induction infos as [|info infos IH]; intros acc; cbn [foldl].
    - cbn. by rewrite app_nil_r.
    - rewrite IH, annotations_fold_lookup, <- app_assoc. f_equal.
      rewrite filter_cons. destruct (decide (si_name info = struct)) as [<-|Hne].
      + rewrite decide_True by done. cbn [fmap list_fmap concat]. by rewrite filter_app.
      + by rewrite decide_False by naive_solver. }
  rewrite Hgen. unfold annotations_lookup at 1. by rewrite lookup_empty.
Qed.

(** ** The text of an encoding function and its syntax tree *)

Section EncoderRender.

Variable self : CodeGenerator.

Lemma encoding_by_annotation_render m annotations out :
  outcome_rel (λ (st : list string * bool) (generated : option (list stmt)),
                 match generated with
                 | Some code => st.2 = true ∧ Py.join st.1 = Py.join out +:+ render_block code
                 | None => st.2 = false ∧ st.1 = out
                 end)
    (encoding_by_annotation self m annotations out)
    (encoding_by_annotation_ast self m annotations).
Proof.
  induction annotations as [|a rest IH]; cbn [encoding_by_annotation encoding_by_annotation_ast].
  - done.
  - destruct (kind a); try exact IH.
    + destruct (_is_array_type (m_type m)); cbn; (split; [done|]);
        rewrite join_app; unfold render_block; cbn [render_stmt Py.join]; by str_norm.
    + pose proof (vla_encoding_render self m a) as Hr.
      destruct (_gen_vla_encoding self m a) as [code| |],
               (vla_encoding_ast self m a) as [codee| |]; obind_in Hr; obind.
      cbn. split; [done|]. by rewrite join_app, Hr.
    + pose proof (union_variant_render self m a) as Hr.
      destruct (_gen_union_variant_conversion_code self m a) as [code| |],
               (union_variant_ast self m a) as [codee| |]; obind_in Hr; obind.
      cbn. split; [done|]. by rewrite join_app, Hr.
Qed.

Lemma encoding_member_render header out body m :
  Py.join out = header +:+ render_block body →
  outcome_rel (λ out body, Py.join out = header +:+ render_block body)
    (encoding_member self out m) (encoding_member_ast self body m).
Proof.
  intros HR. unfold encoding_member, encoding_member_ast.
  pose proof (encoding_by_annotation_render m (m_annotations m) out) as Ha.
  destruct (encoding_by_annotation self m (m_annotations m) out) as [[out1 b]| |],
           (encoding_by_annotation_ast self m (m_annotations m)) as [[code|]| |];
    obind_in Ha; obind; cbn in Ha; destruct Ha as [-> Ha]; cbn.
  - by rewrite Ha, HR, render_block_app, str_app_assoc.
  - subst out1.
    pose proof (assignment_statement_render self "  " m false None) as Hc.
    destruct (_get_assignment_statement_for_field self m false None) as [stmt| |],
             (assignment_statement_ast self "  " m false None) as [copy| |];
      obind_in Hc; obind.
    rewrite join_app, render_block_app, HR, str_app_assoc. f_equal.
    unfold render_block. cbn [Py.join]. rewrite <- Hc. by str_norm.
Qed.

Lemma encoding_function_render chre_type :
  outcome_rel (λ out f, Py.join out = render_fun f)
    (encoding_function_definition self chre_type [])
    (encoding_function_ast self chre_type).
Proof.
  unfold encoding_function_definition, encoding_function_ast.
  destruct (_gen_encoding_function_signature self chre_type) as [signature| |]; obind.
  destruct (struct_info_of self chre_type) as [info| |]; obind.
  set (header := "static " +:+ Py.join signature +:+ " {" +:+ nl).
  assert (outcome_rel (λ out body, Py.join out = header +:+ render_block body)
            (for_each (encoding_member self) (members info)
               ((([] ++ ["static "]) ++ signature) ++ [" {" +:+ nl]))
            (for_each (encoding_member_ast self) (members info) [])) as Hloop.
  { apply for_each_rel.
    - intros out body m HR. by apply encoding_member_render.
    - unfold header. rewrite !join_app. cbn [app Py.join render_block]. by str_norm. }
  match type of Hloop with
  | outcome_rel _ ?o1 ?o2 => destruct o1 as [out| |], o2 as [body| |]; obind_in Hloop; obind
  end.
  unfold render_fun. cbn [f_header f_body f_footer]. fold header.
  rewrite join_app, Hloop. cbn [Py.join]. by str_norm.
Qed.

End EncoderRender.

(** ** The run of an encoding function *)

Lemma vla_ready_same st st' cur cap :
  vars st' = vars st → cells st' = cells st → vla_ready st cur cap → vla_ready st' cur cap.
Proof. unfold vla_ready. by intros -> ->. Qed.

Section EncoderRun.

Variable self : CodeGenerator.
Variable env : cenv.

Lemma encoding_by_annotation_ast_inv m annotations generated :
  encoding_by_annotation_ast self m annotations = Done generated →
  match deciding_annotation annotations with
  | None => generated = None
  | Some a => ∃ code, generated = Some code ∧ code_of_annotation self m a code
  end.
Proof.
  induction annotations as [|a rest IH]; cbn [encoding_by_annotation_ast deciding_annotation].
  - by intros [= <-].
  - unfold code_of_annotation. destruct (kind a) eqn:Hk; try exact IH.
    + destruct (_is_array_type (m_type m)); intros [= <-]; eexists; split; eauto;
        rewrite Hk; auto.
    + destruct (vla_encoding_ast self m a) as [code| |] eqn:Hc; obind. intros [= <-].
      exists code. by rewrite Hk.
    + destruct (union_variant_ast self m a) as [code| |] eqn:Hc; obind. intros [= <-].
      exists code. by rewrite Hk.
Qed.

Lemma union_cases_shape m chre_type info mapping cases0 cases :
  for_each (union_case_ast self m chre_type info) mapping cases0 = Done cases →
  ∃ new, cases = cases0 ++ new ∧ Forall2 copies_one mapping new.
Proof.
  revert cases0. induction mapping as [|[value fld] mapping IH]; intros cases0 Hrun.
  - cbn in Hrun. simplify_eq. exists []. rewrite app_nil_r. split; [done|constructor].
  - cbn [for_each] in Hrun.
    destruct (union_case_ast self m chre_type info cases0 (value, fld)) as [cases1| |] eqn:Hc;
      obind_in Hrun.
    destruct (IH _ Hrun) as (new & -> & Hnew).
    unfold union_case_ast in Hc.
    destruct (find_member (members info) fld) as [nm|]; [|done].
    destruct (assignment_statement_ast self "      " nm false (Some (m_name m)))
      as [copy| |] eqn:Hcopy; obind_in Hc. simplify_eq.
    exists ((value, [copy]) :: new). split; [by rewrite <- app_assoc|].
    constructor; [|done]. split; [done|]. exists copy. split; [done|].
    by eapply assignment_statement_leaf.
Qed.

Lemma exec_select_quiet v default_ st mapping cases :
  Forall2 copies_one mapping cases →
  (∃ st', exec_select env v default_ st cases = Normal st' ∧
          vars st' = vars st ∧ cells st' = cells st) ∨
  (exec_select env v default_ st cases = exec_block env default_ st ∧
   ∀ c, c ∈ mapping → const_val env c.1 ≠ v).
Proof.
  induction 1 as [|c k mapping cases (Hlabel & copy & Hbody & Hleaf) Hrest IH].
  - right. split; [done|]. by intros c ?%elem_of_nil.
  - destruct k as [label body]. cbn in Hlabel, Hbody. subst.
    change (exec_select env v default_ st ((c.1, [copy]) :: cases))
      with (if (const_val env c.1 =? v)%Z then exec_block env [copy] st
            else exec_select env v default_ st cases).
    destruct (const_val env c.1 =? v)%Z eqn:Hv.
    + left. rewrite exec_block_cons, (exec_leaf env copy st Hleaf). cbn. eauto.
    + destruct IH as [?|[-> Hne]]; [by left|right]. split; [done|].
      intros c' [->|?]%elem_of_cons; [by apply Z.eqb_neq|auto].
Qed.

Lemma union_code_run m a code disc mapping st :
  union_variant_ast self m a = Done code →
  kind a = union_variant disc mapping →
  (asserts_fatal env = true →
   ∃ c, c ∈ mapping ∧ const_val env c.1 = in_field env disc) →
  ∃ st', exec_block env code st = Normal st' ∧ vars st' = vars st ∧ cells st' = cells st.
Proof.
  intros Hgen Hkind Hsel. unfold union_variant_ast in Hgen.
  destruct (nested_type_name m) as [chre_type| |]; obind_in Hgen.
  destruct (struct_info_of self chre_type) as [info| |]; obind_in Hgen.
  rewrite (discriminator_of_kind _ _ _ Hkind) in Hgen. obind_in Hgen.
  rewrite (mapping_of_kind _ _ _ Hkind) in Hgen. obind_in Hgen.
  destruct (for_each _ mapping []) as [cases| |] eqn:Hcases; obind_in Hgen. simplify_eq.
  apply union_cases_shape in Hcases as (new & -> & Hshape). cbn [app].
  rewrite exec_union_code.
  destruct (exec_select_quiet (in_field env disc) [SAssert "      " EFalse]
              (log st (EvMemset (m_name m) "0")) mapping new Hshape)
    as [(st' & -> & Hv & Hc)|[-> Hne]].
  - exists st'. by split_and!.
  - rewrite exec_block_cons. cbn [exec_stmt eval]. unfold chpp_assert. cbn [Z.eqb].
    destruct (asserts_fatal env) eqn:Hfatal.
    + destruct Hsel as (c & Hc & Hv); [done|]. by destruct (Hne c Hc).
    + cbn. eauto.
Qed.

Lemma vla_code_run m a code lf st cur cap :
  vla_encoding_ast self m a = Done code →
  kind a = var_len_array lf →
  vla_ready st cur cap →
  (0 ≤ vla_byte_length self env m a)%Z →
  (cur + vla_byte_length self env m a ≤ cap)%Z →
  ∃ st', exec_block env code st = Normal st' ∧
         vla_ready st' (cur + vla_byte_length self env m a) cap.
Proof.
  intros Hgen Hkind Hready Hpos Hfit.
  apply vla_encoding_ast_inv in Hgen as (chpp_type & lf' & sze & copy & Hlf & Hsze & Hcopy & ->).
  rewrite (length_field_of_kind _ _ Hkind) in Hlf. simplify_eq.
  pose proof (member_sizeof_call_eval _ _ _ Hsze env) as Hsz.
  pose proof (assignment_statement_leaf _ _ _ _ _ _ Hcopy) as Hleaf.
  rewrite (exec_vla_code env _ _ _ _ _ _ _ _ _ Hsz Hleaf Hready).
  unfold vla_byte_length in *. rewrite (length_field_of_kind _ _ Hkind), Hsze in *.
  set (len := (in_field env lf' * element_size env sze)%Z) in *.
  rewrite (proj2 (Z.leb_le _ _) Hfit).
  destruct Hready as (Hcur & Hptr & Hcap).
  destruct (len >? 0)%Z eqn:Hlen.
  - eexists. split; [done|]. unfold vla_ready. cbn. split_and!.
    + apply lookup_insert_eq.
    + by rewrite lookup_delete_ne.
    + by rewrite lookup_delete_ne.
  - eexists. split; [done|]. assert (len = 0%Z) as -> by lia. rewrite Z.add_0_r.
    by unfold vla_ready.
Qed.

Lemma encoding_member_run body0 m body :
  encoding_member_ast self body0 m = Done body →
  ∃ code, body = body0 ++ code ∧
    ∀ st cur cap, vla_ready st cur cap → encodable self env m →
      (cur + encoded_payload self env m ≤ cap)%Z →
      ∃ st', exec_block env code st = Normal st' ∧
             vla_ready st' (cur + encoded_payload self env m) cap.
Proof.
  unfold encoding_member_ast.
  destruct (encoding_by_annotation_ast self m (m_annotations m)) as [generated| |] eqn:Hgen;
    obind.
  apply encoding_by_annotation_ast_inv in Hgen. unfold encodable, encoded_payload, selects_a_member.
  destruct (deciding_annotation (m_annotations m)) as [a|] eqn:Hdec.
  - destruct Hgen as (code & -> & Hcode). intros [= <-]. exists code. split; [done|].
    intros st cur cap Hready [Hpos Hsel] Hfit.
    unfold code_of_annotation, is_var_len_array in *.
    destruct (kind a) as [| |value|lf|disc mapping| |] eqn:Hk; try done.
    + rewrite Z.add_0_r. destruct Hcode as [-> | ->]; eexists; (split; [done|]);
        by eapply vla_ready_same.
    + by eapply vla_code_run.
    + rewrite Z.add_0_r.
      destruct (union_code_run m a code disc mapping st Hcode Hk) as (st' & Hrun & Hv & Hc).
      { intros Hfatal. by eapply Hsel. }
      exists st'. split; [done|]. by eapply vla_ready_same.
  - subst generated.
    destruct (assignment_statement_ast self "  " m false None) as [copy| |] eqn:Hcopy; obind.
    intros [= <-]. exists [copy]. split; [done|].
    intros st cur cap Hready _ _. rewrite Z.add_0_r.
    rewrite exec_block_cons, (exec_leaf env copy st)
      by (by eapply assignment_statement_leaf).
    eexists. split; [done|]. by eapply vla_ready_same.
Qed.

Lemma encoded_payload_total_nonneg members :
  Forall (encodable self env) members → (0 ≤ encoded_payload_total self env members)%Z.
Proof.
  induction 1 as [|m members [Hm _] _ IH]; [done|].
  unfold encoded_payload_total in *. cbn [foldr]. lia.
Qed.

Lemma encoding_members_run members body0 body :
  for_each (encoding_member_ast self) members body0 = Done body →
  ∃ code, body = body0 ++ code ∧
    ∀ st cur cap, vla_ready st cur cap → Forall (encodable self env) members →
      (cur + encoded_payload_total self env members ≤ cap)%Z →
      ∃ st', exec_block env code st = Normal st' ∧
             vla_ready st' (cur + encoded_payload_total self env members) cap.
Proof.
  revert body0. induction members as [|m rest IH]; intros body0 Hrun.
  - cbn in Hrun. simplify_eq. exists []. rewrite app_nil_r. split; [done|].
    intros st cur cap Hready _ _. exists st. cbn. by rewrite Z.add_0_r.
  - cbn [for_each] in Hrun.
    destruct (encoding_member_ast self body0 m) as [body1| |] eqn:Hm; obind_in Hrun.
    destruct (encoding_member_run _ _ _ Hm) as (code1 & -> & Hcode1).
    destruct (IH _ Hrun) as (code2 & -> & Hcode2).
    exists (code1 ++ code2). split; [by rewrite app_assoc|].
    intros st cur cap Hready Hok Hfit. apply Forall_cons in Hok as [Hm1 Hrest].
    pose proof (encoded_payload_total_nonneg rest Hrest) as Hnn.
    cbn [encoded_payload_total foldr] in *. fold (encoded_payload_total self env rest) in *.
    destruct (Hcode1 st cur cap Hready Hm1) as (st1 & Hrun1 & Hready1); [lia|].
    destruct (Hcode2 st1 _ cap Hready1 Hrest) as (st2 & Hrun2 & Hready2); [lia|].
    exists st2. rewrite exec_block_app, Hrun1. split; [done|].
    by rewrite Z.add_assoc.
Qed.

End EncoderRun.

(** X19. The code of an encoding function moves the payload cursor by the
    sum of the byte lengths of the members it encodes as variable-length
    arrays, and ends without failed assertion, when the payload has room for
    them. The statement is about the text that [_gen_encoding_function]
    emits for the type, for a type whose members hand the cursor to no other
    encoding function, an input whose array lengths are not negative and
    whose union discriminators have mapped values where assertions are
    fatal, and a payload that the 16-bit cursor can address. *)
Theorem encoder_advances_cursor_by_payload self chre_type info text env st cur cap :
  struct_info_of self chre_type = Done info →
  encoding_function_definition self chre_type [] = Done text →
  Forall (keeps_cursor self) (members info) →
  Forall (encodable self env) (members info) →
  vla_ready st cur cap →
  (0 ≤ cur)%Z → (cap ≤ 65535)%Z →
  (cur + encoded_payload_total self env (members info) ≤ cap)%Z →
  ∃ f st',
    encoding_function_ast self chre_type = Done f ∧
    Py.join text = render_fun f ∧
    exec_block env (f_body f) st = Normal st' ∧
    cursor st' = Some (cur + encoded_payload_total self env (members info))%Z.
Proof.
  intros Hinfo Htext _ Hok Hready _ _ Hfit.
  pose proof (encoding_function_render self chre_type) as Hrender.
  rewrite Htext in Hrender.
  destruct (encoding_function_ast self chre_type) as [f| |] eqn:Hf; obind_in Hrender.
  unfold encoding_function_ast in Hf.
  destruct (_gen_encoding_function_signature self chre_type) as [signature| |]; obind_in Hf.
  rewrite Hinfo in Hf. obind_in Hf.
  destruct (for_each (encoding_member_ast self) (members info) []) as [body| |] eqn:Hbody;
    obind_in Hf. simplify_eq.
  destruct (encoding_members_run self env _ _ _ Hbody) as (code & -> & Hcode).
  destruct (Hcode st cur cap Hready Hok Hfit) as (st' & Hrun & Hcur & _).
  eexists _, st'. split_and!; [done|done|done|done].
Qed.

Lemma encoder_advances_cursor_by_payload_witness :
  struct_info_of ExampleWwan.self "chreWwanCellInfoResult" = Done ExampleWwan.result_info ∧
  encoding_function_definition ExampleWwan.self "chreWwanCellInfoResult" []
  = Done wwan_result_encoder ∧
  vla_ready wwan_encoder_start 4 16 ∧
  ∃ f st',
    encoding_function_ast ExampleWwan.self "chreWwanCellInfoResult" = Done f ∧
    Py.join wwan_result_encoder = render_fun f ∧
    exec_block (ExampleWwan.env 3 true) (f_body f) wwan_encoder_start = Normal st' ∧
    cursor st'
    = Some (4 + encoded_payload_total ExampleWwan.self (ExampleWwan.env 3 true)
                  (members ExampleWwan.result_info))%Z.
Proof.
  assert (struct_info_of ExampleWwan.self "chreWwanCellInfoResult"
          = Done ExampleWwan.result_info) as H0 by (vm_compute; reflexivity).
  assert (encoding_function_definition ExampleWwan.self "chreWwanCellInfoResult" []
          = Done wwan_result_encoder) as H1 by (vm_compute; reflexivity).
  assert (Forall (keeps_cursor ExampleWwan.self) (members ExampleWwan.result_info)) as H2.
  { repeat (apply List.Forall_cons; [vm_compute; reflexivity|]). apply List.Forall_nil. }
  assert (Forall (encodable ExampleWwan.self (ExampleWwan.env 3 true))
            (members ExampleWwan.result_info)) as H3.
  { repeat (apply List.Forall_cons;
      [split; [vm_compute; discriminate|];
       intros a disc mapping Hdec Hk; vm_compute in Hdec;
       first [discriminate Hdec
             |injection Hdec as <-; discriminate Hk]|]).
    apply List.Forall_nil. }
  assert (vla_ready wwan_encoder_start 4 16) as H4.
  { unfold vla_ready, wwan_encoder_start. cbn. split_and!; [done| |done].
    rewrite lookup_insert_ne by done. by rewrite lookup_insert_eq. }
  assert (4 + encoded_payload_total ExampleWwan.self (ExampleWwan.env 3 true)
                (members ExampleWwan.result_info) ≤ 16)%Z as H5
    by (vm_compute; discriminate).
  split; [exact H0|]. split; [exact H1|]. split; [exact H4|].
  exact (encoder_advances_cursor_by_payload _ _ _ _ _ _ _ _ H0 H1 H2 H3 H4
           ltac:(done) ltac:(done) H5).
Defined.

(** ** The encoding function and the size function *)

Lemma deciding_annotation_elem annotations a :
  deciding_annotation annotations = Some a → a ∈ annotations.
Proof.
  induction annotations as [|b rest IH]; [done|]. cbn.
  destruct (kind b); intros H; simplify_eq;
    first [by apply list_elem_of_here | apply list_elem_of_further; auto].
Qed.

Lemma vla_size_no_array self env m annotations :
  Forall (λ a, is_var_len_array a = false) annotations →
  foldr (λ a acc, (annotation_vla_size self env m a + acc)%Z) 0%Z annotations = 0%Z.
Proof.
  induction 1 as [|a rest Ha _ IH]; [done|]. cbn [foldr]. rewrite IH.
  unfold annotation_vla_size. unfold is_var_len_array in Ha.
  by destruct (kind a).
Qed.

(** For a member whose [var_len_array] annotation stands alone and whose
    elements have no variable-length member, the encoding function and the
    size function count the same bytes. *)
Lemma encoded_payload_vla_size self env m :
  vla_alone m → keeps_cursor self m →
  encoded_payload self env m = member_vla_size self env m.
Proof.
  intros Halone Hkeep. unfold encoded_payload, member_vla_size.
  destruct (existsb is_var_len_array (m_annotations m)) eqn:Hex.
  - apply existsb_exists in Hex as (a & Hin%list_elem_of_In & Ha).
    pose proof (Halone a Hin Ha) as Hl.
    unfold annotation_vla_size, _get_member_type, vla_byte_length, length_field_of,
      member_sizeof_call_ast.
    rewrite Hl. cbn [deciding_annotation foldr member_type_by_annotation].
    unfold is_var_len_array in *.
    destruct (kind a) as [| | |lf| | |] eqn:Hk; try done.
    cbn [negb andb]. rewrite !Hk, Z.add_0_r.
    unfold keeps_cursor, nested_with_vla in Hkeep.
    destruct (m_is_nested_type m); [|done].
    destruct (nested_type_name m) as [n| |]; obind_in Hkeep; obind.
    destruct (struct_info_of self n) as [e| |]; obind_in Hkeep.
    obind. simplify_eq. rewrite Hkeep.
    by destruct (_get_chpp_type_from_chre self n).
  - apply existsb_false_Forall in Hex.
    rewrite (vla_size_no_array _ _ _ _ Hex).
    destruct (deciding_annotation (m_annotations m)) as [a|] eqn:Hdec; [|done].
    apply deciding_annotation_elem in Hdec.
    rewrite Forall_forall in Hex. by rewrite (Hex a Hdec).
Qed.

Lemma encoded_payload_total_vla_size self env members :
  Forall (λ m, vla_alone m ∧ keeps_cursor self m) members →
  encoded_payload_total self env members = vla_payload_size self env members.
Proof.
  induction 1 as [|m rest [Halone Hkeep] _ IH]; [done|].
  unfold encoded_payload_total, vla_payload_size in *. cbn [foldr].
  by rewrite IH, encoded_payload_vla_size.
Qed.

(** X20. The encoding function fills exactly the payload that the size
    function has computed: when the size function of a type returns [n] and
    the encoding function is entered as the entry point does it, with the
    cursor behind the structure and a payload of [n] bytes, then its code
    ends without failed assertion and with the cursor at [n]. This holds
    for a type in which a [var_len_array] annotation is the only annotation
    of its member, on an input whose array lengths are not negative and
    whose union discriminators have mapped values where assertions are
    fatal, and for sizes that the 16-bit cursor can address. *)
Theorem encoder_fills_the_computed_size self chre_type info chpp_type size_f text
    env st0 st0' n st :
  struct_info_of self chre_type = Done info →
  _get_chpp_type_from_chre self chre_type = Done chpp_type →
  sizeof_function_ast self chre_type = Done (Some size_f) →
  encoding_function_definition self chre_type [] = Done text →
  Forall (λ m, vla_alone m ∧ keeps_cursor self m ∧ encodable self env m) (members info) →
  exec_block env (f_body size_f) st0 = Returned n st0' →
  vla_ready st (sizeof_val env chpp_type) n →
  (0 ≤ sizeof_val env chpp_type)%Z → (n ≤ 65535)%Z →
  ∃ f st',
    encoding_function_ast self chre_type = Done f ∧
    Py.join text = render_fun f ∧
    exec_block env (f_body f) st = Normal st' ∧
    cursor st' = Some n.
Proof.
  intros Hinfo Htype Hsize Htext Hmembers Hn Hready _ _.
  assert (n = sizeof_val env chpp_type + encoded_payload_total self env (members info))%Z
    as ->.
  { rewrite encoded_payload_total_vla_size
      by (eapply Forall_impl; [exact Hmembers|]; naive_solver).
    destruct (sizeof_function_ast_inv _ _ _ _ Hinfo Hsize)
      as (p & chpp_type' & fn & body & Htype' & Hfn & Hbody & Hf).
    rewrite Htype in Htype'. simplify_eq. rewrite Hf in Hn.
    destruct (sizeof_members_exec _ _ _ env _ _ _ Hbody) as (adds & -> & Hadds).
    rewrite !exec_block_app in Hn. cbn [exec_block exec_stmt eval] in Hn.
    destruct (Hadds (set_var st0 "encodedSize" (sizeof_val env chpp_type'))
                (sizeof_val env chpp_type')) as (st1 & Hrun & Hacc).
    { cbn. apply lookup_insert_eq. }
    rewrite Hrun in Hn. rewrite Hacc in Hn. by simplify_eq. }
  pose proof (encoding_function_render self chre_type) as Hrender.
  rewrite Htext in Hrender.
  destruct (encoding_function_ast self chre_type) as [f| |] eqn:Hf; obind_in Hrender.
  unfold encoding_function_ast in Hf.
  destruct (_gen_encoding_function_signature self chre_type) as [signature| |]; obind_in Hf.
  rewrite Hinfo in Hf. obind_in Hf.
  destruct (for_each (encoding_member_ast self) (members info) []) as [body| |] eqn:Hbody;
    obind_in Hf. simplify_eq.
  destruct (encoding_members_run self env _ _ _ Hbody) as (code & -> & Hcode).
  destruct (Hcode st _ _ Hready) as (st' & Hrun & Hcur & _).
  { eapply Forall_impl; [exact Hmembers|]. naive_solver. }
  { lia. }
  eexists _, st'. split_and!; [done|done|done|done].
Qed.

Lemma encoder_fills_the_computed_size_witness :
  sizeof_function_ast ExampleWwan.self "chreWwanCellInfoResult"
  = Done (Some ExampleWwan.size_fun) ∧
  exec_block (ExampleWwan.env 3 true) (f_body ExampleWwan.size_fun) (ExampleWwan.start 0)
  = Returned 16 wwan_size_end ∧
  vla_ready wwan_encoder_start 4 16 ∧
  ∃ f st',
    encoding_function_ast ExampleWwan.self "chreWwanCellInfoResult" = Done f ∧
    Py.join wwan_result_encoder = render_fun f ∧
    exec_block (ExampleWwan.env 3 true) (f_body f) wwan_encoder_start = Normal st' ∧
    cursor st' = Some 16%Z.
Proof.
  assert (struct_info_of ExampleWwan.self "chreWwanCellInfoResult"
          = Done ExampleWwan.result_info) as H0 by (vm_compute; reflexivity).
  assert (_get_chpp_type_from_chre ExampleWwan.self "chreWwanCellInfoResult"
          = Done "struct ChppWwanCellInfoResult") as H1 by (vm_compute; reflexivity).
  assert (sizeof_function_ast ExampleWwan.self "chreWwanCellInfoResult"
          = Done (Some ExampleWwan.size_fun)) as H2 by (vm_compute; reflexivity).
  assert (encoding_function_definition ExampleWwan.self "chreWwanCellInfoResult" []
          = Done wwan_result_encoder) as H3 by (vm_compute; reflexivity).
  assert (Forall (λ m, vla_alone m ∧ keeps_cursor ExampleWwan.self m
                       ∧ encodable ExampleWwan.self (ExampleWwan.env 3 true) m)
            (members ExampleWwan.result_info)) as H4.
  { repeat (apply List.Forall_cons;
      [split;
        [intros a Ha Hv; cbn in Ha;
         repeat (apply elem_of_cons in Ha as [->|Ha]; [first [discriminate Hv|reflexivity]|]);
         by apply elem_of_nil in Ha
        |split; [vm_compute; reflexivity|];
         split; [vm_compute; discriminate|];
         intros a disc mapping Hdec Hk; vm_compute in Hdec;
         first [discriminate Hdec
               |injection Hdec as <-; discriminate Hk]]|]).
    apply List.Forall_nil. }
  assert (exec_block (ExampleWwan.env 3 true) (f_body ExampleWwan.size_fun)
            (ExampleWwan.start 0) = Returned 16 wwan_size_end) as H5
    by (vm_compute; reflexivity).
  assert (vla_ready wwan_encoder_start 4 16) as H6.
  { unfold vla_ready, wwan_encoder_start. cbn. split_and!; [done| |done].
    rewrite lookup_insert_ne by done. by rewrite lookup_insert_eq. }
  split; [exact H2|]. split; [exact H5|]. split; [exact H6|].
  exact (encoder_fills_the_computed_size _ _ _ _ _ _ _ _ _ _ _ H0 H1 H2 H3 H4 H5 H6
           ltac:(done) ltac:(done)).
Defined.

(** ** The names of the CHPP types *)

(** X21. Two types that no [rename_type] annotation renames never get the
    same CHPP type from [_get_chpp_type_from_chre]. *)
Theorem chpp_type_names_are_injective self t1 t2 n :
  keeps_name self t1 → keeps_name self t2 →
  _get_chpp_type_from_chre self t1 = Done n →
  _get_chpp_type_from_chre self t2 = Done n →
  t1 = t2.
Proof.
  unfold keeps_name, _get_chpp_type_from_chre, _get_struct_or_union_prefix.
  intros -> ->.
  destruct (struct_info_of self t1) as [e1| |]; obind.
  destruct (struct_info_of self t2) as [e2| |]; obind.
  destruct (Py.startswith t1 "chre") eqn:H1; [|done].
  destruct (Py.startswith t2 "chre") eqn:H2; [|done].
  apply startswith_inv in H1, H2. cbn [String.length] in H1, H2.
  intros Hn1 Hn2. rewrite H1, H2. f_equal. clear H1 H2. revert Hn1 Hn2.
  generalize (Py.drop 4 t1) (Py.drop 4 t2). intros d1 d2 [= <-] [= Heq].
  destruct (is_union e1), (is_union e2); cbn in Heq; by simplify_eq.
Qed.

Lemma chpp_type_names_are_injective_witness :
  _get_chpp_type_from_chre ExampleWwan.self "chreWwanGsm" = Done "struct ChppWwanGsm" ∧
  "chreWwanGsm" = "chreWwanGsm".
Proof.
  assert (keeps_name ExampleWwan.self "chreWwanGsm") as H0 by (vm_compute; reflexivity).
  assert (_get_chpp_type_from_chre ExampleWwan.self "chreWwanGsm"
          = Done "struct ChppWwanGsm") as H1 by (vm_compute; reflexivity).
  split; [exact H1|].
  exact (chpp_type_names_are_injective _ _ _ _ H0 H0 H1 H1).
Defined.

(** ** Union members without [union_variant] *)

Section EncoderCalls.

Variable self : CodeGenerator.

Lemma encoders_text_elem order out0 out T :
  encoders_text self order out0 = Done out → T ∈ order →
  ∃ text before after,
    encoding_function_definition self T [] = Done text ∧ out = before ++ text ++ after.
Proof.
  revert out0. induction order as [|x order IH]; intros out0 Hrun Hin.
  - by apply elem_of_nil in Hin.
  - unfold encoders_text in Hrun. cbn [for_each] in Hrun.
    rewrite encoding_function_definition_prefix in Hrun.
    destruct (encoding_function_definition self x []) as [c| |] eqn:Hx; obind_in Hrun.
    fold (encoders_text self order (out0 ++ c)) in Hrun.
    apply elem_of_cons in Hin as [->|Hin]; [|exact (IH _ Hrun Hin)].
    rewrite encoders_text_prefix in Hrun.
    destruct (encoders_text self order []) as [c'| |]; obind_in Hrun. simplify_eq.
    exists c, out0, c'. split; [done|]. by rewrite <- app_assoc.
Qed.

Lemma encoding_member_ast_prefix body m body' :
  encoding_member_ast self body m = Done body' →
  ∃ code, body' = body ++ code ∧ encoding_member_ast self [] m = Done code.
Proof.
  unfold encoding_member_ast.
  destruct (encoding_by_annotation_ast self m (m_annotations m)) as [[code|]| |]; obind.
  - intros [= <-]. by exists code.
  - destruct (assignment_statement_ast self "  " m false None) as [copy| |]; obind.
    intros [= <-]. by exists [copy].
Qed.

Lemma encoding_members_elem members body0 body m :
  for_each (encoding_member_ast self) members body0 = Done body →
  (∀ s, s ∈ body0 → s ∈ body) ∧
  (m ∈ members →
   ∃ code, encoding_member_ast self [] m = Done code ∧ ∀ s, s ∈ code → s ∈ body).
Proof.
  revert body0. induction members as [|x members IH]; intros body0 Hrun.
  - cbn in Hrun. simplify_eq. split; [done|]. by intros ?%elem_of_nil.
  - cbn [for_each] in Hrun.
    destruct (encoding_member_ast self body0 x) as [body1| |] eqn:Hx; obind_in Hrun.
    destruct (encoding_member_ast_prefix _ _ _ Hx) as (code & -> & Hcode).
    destruct (IH _ Hrun) as [Hkeep Hrest]. split.
    + intros s Hs. apply Hkeep. set_solver.
    + intros [->|Hin]%elem_of_cons; [|by apply Hrest].
      exists code. split; [done|]. intros s Hs. apply Hkeep. set_solver.
Qed.

End EncoderCalls.

(** X22. A member of union type needs a [union_variant] annotation: when a
    structure that [_gen_encoding_functions] handles has a member of union
    type with no annotation that generates its code, the text returned holds
    the definition of the encoding function of the structure, this
    definition calls the encoding function of the union, and the text
    defines no function of this name. *)
Theorem union_member_needs_union_variant a self fuel out T info m U eU :
  CodeGenerator_init a = Done self →
  _gen_encoding_functions self fuel = Done out →
  (∃ r, r ∈ root_structs (api_json (api self)) ∧
        rtc (dep (structs_and_unions (api self))) r T) →
  struct_info_of self T = Done info → is_union info = false →
  m ∈ members info →
  m_is_nested_type m = true → m_nested_type_name m = Some U →
  struct_info_of self U = Done eU → is_union eU = true →
  deciding_annotation (m_annotations m) = None →
  ∃ order text before after f fn,
    encoders_text self order [] = Done out ∧ T ∈ order ∧
    encoding_function_definition self T [] = Done text ∧
    out = before ++ text ++ after ∧
    encoding_function_ast self T = Done f ∧
    Py.join text = render_fun f ∧
    _get_encoding_function_name self U = Done fn ∧
    calls f fn ∧
    ∀ X, X ∈ order → _get_encoding_function_name self X ≠ Done fn.
Proof.
  intros Hinit Hrun Hroot Hinfo Hstruct Hm Hnested HU HeU Hunion Hdec.
  destruct (gen_encoding_functions_spec _ _ _ Hrun) as (order & Htext & _ & Helem & _).
  assert (dict_get (structs_and_unions (api self)) T = Some info) as HgT.
  { unfold struct_info_of, dict_item in Hinfo. unfold dict_get.
    destruct (dtable _ !! T); by simplify_eq. }
  assert (dict_get (structs_and_unions (api self)) U = Some eU) as HgU.
  { unfold struct_info_of, dict_item in HeU. unfold dict_get.
    destruct (dtable _ !! U); by simplify_eq. }
  assert (T ∈ order) as HT by (apply Helem; split; [by exists info|done]).
  assert (U ∉ order) as HUo.
  { intros [(e & He & Hs) _]%Helem. rewrite HgU in He. simplify_eq. congruence. }
  destruct (encoders_text_elem _ _ _ _ _ Htext HT) as (text & before & after & Hdef & Hout).
  pose proof (encoding_function_render self T) as Hrender. rewrite Hdef in Hrender.
  destruct (encoding_function_ast self T) as [f| |] eqn:Hf; obind_in Hrender.
  pose proof Hf as Hf'. unfold encoding_function_ast in Hf'.
  destruct (_gen_encoding_function_signature self T) as [signature| |]; obind_in Hf'.
  rewrite Hinfo in Hf'. obind_in Hf'.
  destruct (for_each (encoding_member_ast self) (members info) []) as [body| |] eqn:Hbody;
    obind_in Hf'. injection Hf' as Hf'.
  destruct (encoding_members_elem _ _ _ _ m Hbody) as [_ Hcode].
  destruct (Hcode Hm) as (code & Hmember & Hin).
  unfold encoding_member_ast in Hmember.
  destruct (encoding_by_annotation_ast self m (m_annotations m)) as [generated| |] eqn:Hgen;
    obind_in Hmember.
  apply encoding_by_annotation_ast_inv in Hgen. rewrite Hdec in Hgen. subst generated.
  unfold assignment_statement_ast, nested_type_name in Hmember.
  rewrite Hnested, HU in Hmember. obind_in Hmember. rewrite HeU in Hmember.
  obind_in Hmember.
  destruct (_get_encoding_function_name self U) as [fn| |] eqn:Hfn; obind_in Hmember.
  injection Hmember as Hmember.
  exists order, text, before, after, f, fn.
  split_and!; [done|done|done|done|done|done|done| |].
  - eexists _, _. rewrite <- Hf'. cbn [f_body]. apply Hin. rewrite <- Hmember.
    apply list_elem_of_here.
  - intros X HX HfnX. apply HUo.
    unfold _get_encoding_function_name in Hfn, HfnX.
    by rewrite <- (converter_name_inj a self "Convert" X U fn Hinit HfnX Hfn).
Qed.

Lemma union_member_needs_union_variant_witness :
  _gen_encoding_functions ExampleBareUnion.self 6 = Done ExampleBareUnion.encoders ∧
  ExampleBareUnion.m_v ∈ members ExampleBareUnion.box_info ∧
  ∃ order text before after f fn,
    encoders_text ExampleBareUnion.self order [] = Done ExampleBareUnion.encoders ∧
    "chreWwanBox" ∈ order ∧
    encoding_function_definition ExampleBareUnion.self "chreWwanBox" [] = Done text ∧
    ExampleBareUnion.encoders = before ++ text ++ after ∧
    encoding_function_ast ExampleBareUnion.self "chreWwanBox" = Done f ∧
    Py.join text = render_fun f ∧
    _get_encoding_function_name ExampleBareUnion.self "chreWwanValue" = Done fn ∧
    calls f fn ∧
    ∀ X, X ∈ order → _get_encoding_function_name ExampleBareUnion.self X ≠ Done fn.
Proof.
  assert (CodeGenerator_init ExampleBareUnion.parsed_api = Done ExampleBareUnion.self) as H0
    by (vm_compute; reflexivity).
  assert (_gen_encoding_functions ExampleBareUnion.self 6 = Done ExampleBareUnion.encoders)
    as H1 by (vm_compute; reflexivity).
  assert (∃ r, r ∈ root_structs (api_json (api ExampleBareUnion.self)) ∧
               rtc (dep (structs_and_unions (api ExampleBareUnion.self))) r "chreWwanBox")
    as H2.
  { exists "chreWwanBox". split; [apply list_elem_of_here|apply rtc_refl]. }
  assert (struct_info_of ExampleBareUnion.self "chreWwanBox" = Done ExampleBareUnion.box_info)
    as H3 by (vm_compute; reflexivity).
  assert (ExampleBareUnion.m_v ∈ members ExampleBareUnion.box_info) as H4.
  { apply list_elem_of_further, list_elem_of_here. }
  assert (struct_info_of ExampleBareUnion.self "chreWwanValue"
          = Done ExampleBareUnion.value_info) as H5 by (vm_compute; reflexivity).
  split; [exact H1|]. split; [exact H4|].
  exact (union_member_needs_union_variant _ _ _ _ _ _ _ _ _ H0 H1 H2 H3 eq_refl H4
           eq_refl eq_refl H5 eq_refl eq_refl).
Defined.

(** ** The prototypes of the header *)

Lemma allocation_signature_docs self r s :
  _gen_encode_allocation_function_signature self r false = Done s →
  _gen_encode_allocation_function_signature self r true = Done (encode_allocation_docs :: s).
Proof.
  unfold _gen_encode_allocation_function_signature.
  destruct (_get_encode_allocation_function_name self r); obind.
  destruct (_get_struct_or_union_prefix self r); obind.
  destruct (_get_chpp_type_from_chre self r); obind.
  by intros [= <-].
Qed.

Lemma allocation_function_opens_with_signature self r code :
  _gen_encode_allocation_function self r = Done code →
  ∃ s b, _gen_encode_allocation_function_signature self r false = Done s ∧ code = s ++ b.
Proof.
  unfold _gen_encode_allocation_function.
  destruct (_gen_encode_allocation_function_signature self r false) as [s| |]; obind.
  destruct (_get_chpp_sizeof_call self r); obind.
  destruct (_get_chpp_type_from_chre self r); obind.
  destruct (struct_info_of self r) as [info| |]; obind.
  destruct (has_vla_member info); obind;
    destruct (_get_encoding_function_name self r); obind;
    intros [= <-]; exists s; eexists; (split; [done|]);
    rewrite <- !app_assoc; reflexivity.
Qed.

Lemma prototypes_loop self roots out0 h0 conv :
  for_each (λ out r, code ← _gen_encode_allocation_function self r; Done (out ++ code))
    roots out0 = Done conv →
  ∃ sigs bodies,
    Forall2 (λ r s, _gen_encode_allocation_function_signature self r false = Done s)
      roots sigs ∧
    length bodies = length sigs ∧
    conv = out0 ++ concat (zip_with app sigs bodies) ∧
    for_each (λ out r,
                signature ← _gen_encode_allocation_function_signature self r true;
                let out := out ++ signature in
                Done (out ++ [";" +:+ nl +:+ nl])) roots h0
    = Done (h0 ++ concat (map (λ s, encode_allocation_docs :: s ++ [";" +:+ nl +:+ nl]) sigs)).
Proof.
  revert out0 h0. induction roots as [|r roots IH]; intros out0 h0 Hrun.
  - cbn in Hrun. simplify_eq. exists [], []. cbn. by rewrite !app_nil_r.
  - cbn [for_each] in Hrun.
    destruct (_gen_encode_allocation_function self r) as [code| |] eqn:Hr; obind_in Hrun.
    destruct (allocation_function_opens_with_signature _ _ _ Hr) as (s & b & Hs & ->).
    destruct (IH _ ((h0 ++ encode_allocation_docs :: s) ++ [";" +:+ nl +:+ nl]) Hrun)
      as (sigs & bodies & Hsigs & Hlen & -> & Hheader).
    exists (s :: sigs), (b :: bodies). split_and!.
    + by constructor.
    + cbn. by rewrite Hlen.
    + cbn [zip_with concat]. by rewrite <- !app_assoc.
    + cbn [for_each]. rewrite (allocation_signature_docs _ _ _ Hs). obind.
      etrans; [exact Hheader|]. cbn [map concat]. f_equal.
      rewrite <- !app_assoc. cbn [app]. by rewrite <- ?app_assoc.
Qed.

(** X23. The header declares what the conversion file defines: whenever
    [_gen_encode_allocation_functions] returns the entry points, one for
    each root structure, [_gen_encode_allocation_function_signatures]
    returns as many prototypes, in the same order, and the prototype of an
    entry point is the documentation comment, the very signature that opens
    the definition, and a semicolon. *)
Theorem prototypes_match_definitions self conv :
  _gen_encode_allocation_functions self = Done conv →
  ∃ sigs bodies,
    Forall2 (λ r s, _gen_encode_allocation_function_signature self r false = Done s)
      (root_structs (api_json (api self))) sigs ∧
    length bodies = length sigs ∧
    conv = concat (zip_with app sigs bodies) ∧
    _gen_encode_allocation_function_signatures self
    = Done (concat (map (λ s, encode_allocation_docs :: s ++ [";" +:+ nl +:+ nl]) sigs)).
Proof.
  intros Hrun.
  destruct (prototypes_loop _ _ _ [] _ Hrun) as (sigs & bodies & Hsigs & Hlen & -> & Hh).
  by exists sigs, bodies.
Qed.

Lemma prototypes_match_definitions_witness :
  _gen_encode_allocation_functions ExampleWwan.self = Done wwan_entry_points ∧
  ∃ sigs bodies,
    Forall2 (λ r s, _gen_encode_allocation_function_signature ExampleWwan.self r false
                    = Done s)
      (root_structs (api_json (api ExampleWwan.self))) sigs ∧
    length bodies = length sigs ∧
    wwan_entry_points = concat (zip_with app sigs bodies) ∧
    _gen_encode_allocation_function_signatures ExampleWwan.self
    = Done (concat (map (λ s, encode_allocation_docs :: s ++ [";" +:+ nl +:+ nl]) sigs)).
Proof.
  assert (_gen_encode_allocation_functions ExampleWwan.self = Done wwan_entry_points) as H0
    by (vm_compute; reflexivity).
  split; [exact H0|].
  exact (prototypes_match_definitions _ _ H0).
Defined.
